(** * Docreader: speech synchronisation, highlighting, conversion jobs, PDF cache

    A shallow embedding of the TypeScript sources
    - [src/hooks/useSpeechSynthesis.ts]          (module [Speech])
    - [src/components/AdvancedDocumentViewer.tsx] (module [Viewer])
    - [src/utils/fileConverter.ts]                (module [Converter])
    - [src/components/FileConverter.tsx]          (module [Jobs])
    - [src/components/MusicPlayerModule.tsx]      (module [Music])
    - [src/utils/pdfRenderer.ts]                  (module [PDF])
    followed by the properties proved about them.

    React state is modelled by the committed values of the [useState]
    cells: every handler runs against the state of the latest render, and a
    batch of [setX] calls made by one handler is one transition. *)

From Stdlib Require Import ZArith NArith QArith Lqa Lia Bool List Ascii.
From stdpp Require Import base option list strings gmap.

Open Scope nat_scope.

(** ** JavaScript values *)

Module JS.

(** A string is its sequence of UTF-16 code units; [length] is [.length]. *)
Definition jsstring := list N.

Definition units (s : string) : jsstring :=
  map Ascii.N_of_ascii (String.list_ascii_of_string s).

(** Truthiness of a string: only the empty string is falsy. *)
Definition nonempty (s : jsstring) : bool :=
  match s with [] => false | _ :: _ => true end.

(** The class [\s] of a regular expression: WhiteSpace and LineTerminator. *)
Definition is_space (c : N) : bool :=
  ((9 <=? c) && (c <=? 13) || (c =? 32) || (c =? 160) || (c =? 5760)
   || (8192 <=? c) && (c <=? 8202) || (c =? 8232) || (c =? 8233)
   || (c =? 8239) || (c =? 8287) || (c =? 12288) || (c =? 65279))%N.

(** [s.split(/\s+/)]: the pieces between maximal runs of white space; a run
    at either end of the string leaves an empty piece there.  [in_run] tells
    that the previous unit belonged to the separator being consumed. *)
Fixpoint split_ws_from (in_run : bool) (s : jsstring) : list jsstring :=
  match s with
  | [] => [[]]
  | c :: r =>
      if is_space c then
        if in_run then split_ws_from true r else [] :: split_ws_from true r
      else
        match split_ws_from false r with
        | w :: ws => (c :: w) :: ws
        | [] => [[c]]
        end
  end.

Definition split_ws (s : jsstring) : list jsstring := split_ws_from false s.

(** [s.split(' ')]: every single space separates two pieces. *)
Fixpoint split_sp (s : jsstring) : list jsstring :=
  match s with
  | [] => [[]]
  | c :: r =>
      if (c =? 32)%N then [] :: split_sp r
      else
        match split_sp r with
        | w :: ws => (c :: w) :: ws
        | [] => [[c]]
        end
  end.

(** [ws.join(' ')]. *)
Fixpoint join_sp (ws : list jsstring) : jsstring :=
  match ws with
  | [] => []
  | [w] => w
  | w :: rest => w ++ 32%N :: join_sp rest
  end.

(** [s.slice(a, b)] and [s.slice(a)] for non-negative integer arguments. *)
Definition slice (s : jsstring) (a b : nat) : jsstring := drop a (take b s).
Definition slice_from (s : jsstring) (a : nat) : jsstring := drop a s.

(** [s.slice(a, b)] for integers of either sign: a negative argument
    counts from the end of the string, both are brought into the string,
    and the slice is empty when the start is not before the end. *)
Definition slice_int (s : jsstring) (a b : Z) : jsstring :=
  let len := Z.of_nat (length s) in
  let from := if (a <? 0)%Z then Z.max (len + a) 0 else Z.min a len in
  let to := if (b <? 0)%Z then Z.max (len + b) 0 else Z.min b len in
  slice s (Z.to_nat from) (Z.to_nat to).

(** A [number]: a finite value, an infinity or NaN.  Finite doubles are
    rationals, and comparison, [Math.min] and [Math.max] on them are exact,
    so no rounding is involved in what follows. *)
Inductive number := NaN | NegInf | Fin (q : Q) | PosInf.

Definition num (z : Z) : number := Fin (inject_Z z).

(** Falsy numbers are the zeros and NaN. *)
Definition truthy (x : number) : bool :=
  match x with
  | NaN => false
  | Fin q => negb (Qeq_bool q 0)
  | NegInf | PosInf => true
  end.

(** [a || b]. *)
Definition or_else (a b : number) : number := if truthy a then a else b.

Definition num_le (a b : number) : bool :=
  match a, b with
  | NaN, _ | _, NaN => false
  | NegInf, _ => true
  | _, PosInf => true
  | Fin p, Fin q => Qle_bool p q
  | _, _ => false
  end.

Definition math_min (a b : number) : number :=
  match a, b with
  | NaN, _ | _, NaN => NaN
  | _, _ => if num_le a b then a else b
  end.

Definition math_max (a b : number) : number :=
  match a, b with
  | NaN, _ | _, NaN => NaN
  | _, _ => if num_le a b then b else a
  end.

(** Equality of numbers as values ([===] without the NaN exception). *)
Definition num_eq (a b : number) : Prop :=
  match a, b with
  | NaN, NaN | NegInf, NegInf | PosInf, PosInf => True
  | Fin p, Fin q => p == q
  | _, _ => False
  end.

End JS.

(** ** The hook [useSpeechSynthesis] *)

Module Speech.
Import JS.

Record SpeechOptions := {
  rate : number;
  pitch : number;
  volume : number;
  voice : option string
}.

(** The default argument of [speak]. *)
Definition default_options : SpeechOptions :=
  {| rate := num 1; pitch := num 1; volume := num 1; voice := None |}.

(** A [SpeechSynthesisUtterance].  [uid] stands for the identity of the
    object created by [new]; the handlers installed on it close over the
    [text] argument of the [speak] call, which is [utext]. *)
Record Utterance := {
  uid : nat;
  utext : jsstring;
  urate : number;
  upitch : number;
  uvolume : number;
  uvoice : option string
}.

(** Calls made on [window.speechSynthesis]. *)
Inductive SynthCall :=
| SynthCancel
| SynthSpeak (u : Utterance)
| SynthPause
| SynthResume.

(** The [useState] cells and refs of the hook, the number of utterances
    allocated so far and the calls issued to the platform. *)
Record Hook := {
  isSupported : bool;
  isPlaying : bool;
  isPaused : bool;
  currentUtterance : option Utterance;
  currentWordIndex : nat;
  currentText : jsstring;
  isInitialized : bool;
  utteranceRef : option Utterance;
  isPlayingRef : bool;
  allocated : nat;
  synthCalls : list SynthCall
}.

Definition initial : Hook :=
  {| isSupported := false; isPlaying := false; isPaused := false;
     currentUtterance := None; currentWordIndex := 0; currentText := [];
     isInitialized := false; utteranceRef := None; isPlayingRef := false;
     allocated := 0; synthCalls := [] |}.

(** The mount effect: capability detection, then [loadVoices]. *)
Definition mount (supported voices_ok : bool) (h : Hook) : Hook :=
  if supported then
    {| isSupported := true; isPlaying := isPlaying h; isPaused := isPaused h;
       currentUtterance := currentUtterance h;
       currentWordIndex := currentWordIndex h; currentText := currentText h;
       isInitialized := if voices_ok then true else isInitialized h;
       utteranceRef := utteranceRef h; isPlayingRef := isPlayingRef h;
       allocated := allocated h; synthCalls := synthCalls h |}
  else h.

(** The utterance built by [speak]: lines 72-79.  The calls on
    [window.speechSynthesis] are taken not to throw, so the [catch] blocks
    of [speak], [pause], [resume] and [stop] are not entered. *)
Definition make_utterance (id : nat) (text : jsstring) (o : SpeechOptions)
  : Utterance :=
  {| uid := id;
     utext := text;
     urate := math_max (Fin (1 # 10)) (math_min (num 10) (or_else (rate o) (num 1)));
     upitch := math_max (num 0) (math_min (num 2) (or_else (pitch o) (num 1)));
     uvolume := math_max (num 0) (math_min (num 1) (or_else (volume o) (num 1)));
     uvoice := voice o |}.

Definition speak (text : jsstring) (o : SpeechOptions) (h : Hook) : Hook :=
  if negb (isSupported h) || negb (nonempty text) || negb (isInitialized h)
  then h
  else
    let u := make_utterance (allocated h) text o in
    {| isSupported := isSupported h;
       isPlaying := false;
       isPaused := false;
       currentUtterance := Some u;
       currentWordIndex := 0;
       currentText := text;
       isInitialized := isInitialized h;
       utteranceRef := Some u;
       isPlayingRef := isPlayingRef h;
       allocated := S (allocated h);
       synthCalls := synthCalls h ++ [SynthCancel; SynthSpeak u] |}.

(** The utterance a call to [speak] hands to the platform, if any. *)
Definition spoken (text : jsstring) (o : SpeechOptions) (h : Hook)
  : option Utterance :=
  if negb (isSupported h) || negb (nonempty text) || negb (isInitialized h)
  then None
  else Some (make_utterance (allocated h) text o).

(** The [for] loop of [onboundary]: [i] and [charCount] are the loop
    variables, [wordIndex] the variable assigned before [break]. *)
Fixpoint boundary_loop (words : list jsstring) (i charCount wordIndex : nat)
  (charIndex : nat) : nat :=
  match words with
  | [] => wordIndex
  | w :: rest =>
      if charIndex <=? charCount + length w then i
      else boundary_loop rest (S i) (charCount + length w + 1) wordIndex
             charIndex
  end.

Definition boundary_word (text : jsstring) (charIndex : nat) : nat :=
  boundary_loop (split_ws text) 0 0 0 charIndex.

Definition set_word_index (n : nat) (h : Hook) : Hook :=
  {| isSupported := isSupported h; isPlaying := isPlaying h;
     isPaused := isPaused h; currentUtterance := currentUtterance h;
     currentWordIndex := n; currentText := currentText h;
     isInitialized := isInitialized h; utteranceRef := utteranceRef h;
     isPlayingRef := isPlayingRef h; allocated := allocated h;
     synthCalls := synthCalls h |}.

Definition set_paused (b : bool) (h : Hook) : Hook :=
  {| isSupported := isSupported h; isPlaying := isPlaying h;
     isPaused := b; currentUtterance := currentUtterance h;
     currentWordIndex := currentWordIndex h; currentText := currentText h;
     isInitialized := isInitialized h; utteranceRef := utteranceRef h;
     isPlayingRef := isPlayingRef h; allocated := allocated h;
     synthCalls := synthCalls h |}.

Definition call (c : SynthCall) (h : Hook) : Hook :=
  {| isSupported := isSupported h; isPlaying := isPlaying h;
     isPaused := isPaused h; currentUtterance := currentUtterance h;
     currentWordIndex := currentWordIndex h; currentText := currentText h;
     isInitialized := isInitialized h; utteranceRef := utteranceRef h;
     isPlayingRef := isPlayingRef h; allocated := allocated h;
     synthCalls := synthCalls h ++ [c] |}.

(** The state written by [onend], by [onerror] for an error other than
    ['interrupted'], and by [stop]. *)
Definition reset (h : Hook) : Hook :=
  {| isSupported := isSupported h; isPlaying := false; isPaused := false;
     currentUtterance := None; currentWordIndex := 0;
     currentText := currentText h; isInitialized := isInitialized h;
     utteranceRef := None; isPlayingRef := false;
     allocated := allocated h; synthCalls := synthCalls h |}.

Definition onstart (h : Hook) : Hook :=
  {| isSupported := isSupported h; isPlaying := true; isPaused := false;
     currentUtterance := currentUtterance h;
     currentWordIndex := currentWordIndex h; currentText := currentText h;
     isInitialized := isInitialized h; utteranceRef := utteranceRef h;
     isPlayingRef := true; allocated := allocated h;
     synthCalls := synthCalls h |}.

(** Events the platform delivers to the handlers of an utterance. *)
Inductive SpeechEvent :=
| OnStart
| OnBoundary (name : string) (charIndex : nat)
| OnEnd
| OnPause
| OnResume
| OnError (error : string).

(** The handler of utterance [u] for event [ev]: lines 82-141. *)
Definition fire (u : Utterance) (ev : SpeechEvent) (h : Hook) : Hook :=
  match ev with
  | OnBoundary name charIndex =>
      if String.eqb name "word"
      then set_word_index (boundary_word (utext u) charIndex) h
      else h
  | OnStart => onstart h
  | OnEnd => reset h
  | OnPause => set_paused true h
  | OnResume => set_paused false h
  | OnError error =>
      if String.eqb error "interrupted" then h else reset h
  end.

Definition pause (h : Hook) : Hook :=
  if negb (isSupported h) then h
  else if isPlaying h && negb (isPaused h)
       then set_paused true (call SynthPause h)
       else h.

Definition resume (h : Hook) : Hook :=
  if negb (isSupported h) then h
  else if isPaused h
       then set_paused false (call SynthResume h)
       else h.

Definition stop (h : Hook) : Hook :=
  if negb (isSupported h) then h
  else reset (call SynthCancel h).

(** The playback state the three booleans encode. *)
Inductive PlaybackState := Idle | Playing | Paused.

Definition playback (h : Hook) : PlaybackState :=
  if isPlaying h then (if isPaused h then Paused else Playing) else Idle.

End Speech.

(** ** The viewer [AdvancedDocumentViewer] *)

Module Viewer.
Import JS Speech.

Record Viewer := {
  hook : Hook;
  content : jsstring;              (* docFile.content *)
  isPdf : bool;                    (* docFile.type === 'pdf' *)
  pdfFullText : jsstring;
  pdfPageCount : nat;              (* pdfRenderer?.getPageCount() *)
  currentPage : nat;
  doublePage : bool;               (* viewMode === 'double' *)
  selectedText : jsstring;
  textSelectionRef : jsstring;
  speechOptions : SpeechOptions;
  currentReadingText : jsstring;
  readingHighlight : option (nat * nat)   (* {start, end} | null *)
}.

Definition with_hook (h : Hook) (v : Viewer) : Viewer :=
  {| hook := h; content := content v; isPdf := isPdf v;
     pdfFullText := pdfFullText v; pdfPageCount := pdfPageCount v;
     currentPage := currentPage v; doublePage := doublePage v;
     selectedText := selectedText v; textSelectionRef := textSelectionRef v;
     speechOptions := speechOptions v;
     currentReadingText := currentReadingText v;
     readingHighlight := readingHighlight v |}.

Definition with_reading (t : jsstring) (hl : option (nat * nat)) (v : Viewer)
  : Viewer :=
  {| hook := hook v; content := content v; isPdf := isPdf v;
     pdfFullText := pdfFullText v; pdfPageCount := pdfPageCount v;
     currentPage := currentPage v; doublePage := doublePage v;
     selectedText := selectedText v; textSelectionRef := textSelectionRef v;
     speechOptions := speechOptions v;
     currentReadingText := t; readingHighlight := hl |}.

Definition open (doc : jsstring) : Viewer :=
  {| hook := Speech.initial; content := doc; isPdf := false;
     pdfFullText := []; pdfPageCount := 0; currentPage := 1;
     doublePage := false; selectedText := []; textSelectionRef := [];
     speechOptions := default_options;
     currentReadingText := []; readingHighlight := None |}.

(** The effect "Track reading progress and highlight current text",
    lines 210-229.  [currentWordIndex >= 0] holds of every index. *)
Definition reading_effect (v : Viewer) : Viewer :=
  let h := hook v in
  if isPlaying h && nonempty (currentText h) then
    let words := split_sp (currentText h) in
    if currentWordIndex h <? length words then
      let currentWord := nth (currentWordIndex h) words [] in
      let wordsBeforeCurrent := take (currentWordIndex h) words in
      let charStart :=
        length (join_sp wordsBeforeCurrent)
        + (if 0 <? currentWordIndex h then 1 else 0) in
      let charEnd := charStart + length currentWord in
      with_reading currentWord (Some (charStart, charEnd)) v
    else v
  else with_reading [] None v.

(** [a || b] on strings. *)
Definition str_or (a b : jsstring) : jsstring := if nonempty a then a else b.

Definition handleSpeechPlay (v : Viewer) : Viewer :=
  let textToSpeak :=
    str_or (textSelectionRef v)
      (str_or (selectedText v) (if isPdf v then pdfFullText v else content v)) in
  if isPaused (hook v) then with_hook (resume (hook v)) v
  else with_hook (speak textToSpeak (speechOptions v) (hook v)) v.

Definition handleSpeechStop (v : Viewer) : Viewer :=
  with_reading [] None (with_hook (stop (hook v)) v).

Definition handleTextSelection (text : jsstring) (v : Viewer) : Viewer :=
  {| hook := hook v; content := content v; isPdf := isPdf v;
     pdfFullText := pdfFullText v; pdfPageCount := pdfPageCount v;
     currentPage := currentPage v; doublePage := doublePage v;
     selectedText := text; textSelectionRef := text;
     speechOptions := speechOptions v;
     currentReadingText := currentReadingText v;
     readingHighlight := readingHighlight v |}.

(** [Math.ceil(docFile.content.length / 2000)], or the renderer's page
    count with [|| 1]. *)
Definition totalPages (v : Viewer) : nat :=
  if isPdf v then (if pdfPageCount v =? 0 then 1 else pdfPageCount v)
  else (length (content v) + 1999) / 2000.

Definition handlePageChange (page : nat) (v : Viewer) : Viewer :=
  {| hook := hook v; content := content v; isPdf := isPdf v;
     pdfFullText := pdfFullText v; pdfPageCount := pdfPageCount v;
     currentPage := Nat.max 1 (Nat.min page (totalPages v));
     doublePage := doublePage v;
     selectedText := selectedText v; textSelectionRef := textSelectionRef v;
     speechOptions := speechOptions v;
     currentReadingText := currentReadingText v;
     readingHighlight := readingHighlight v |}.

(** What happens to the viewer between two renders. *)
Inductive Action :=
| Mount (supported voices_ok : bool)
| SpeechPlay
| SpeechStop
| TextSelection (text : jsstring)
| PageChange (page : nat)
| Speak (text : jsstring) (o : SpeechOptions)
| Pause
| Resume
| Stop
| Platform (u : Utterance) (ev : SpeechEvent).

Definition apply (a : Action) (v : Viewer) : Viewer :=
  match a with
  | Mount s ok => with_hook (mount s ok (hook v)) v
  | SpeechPlay => handleSpeechPlay v
  | SpeechStop => handleSpeechStop v
  | TextSelection t => handleTextSelection t v
  | PageChange p => handlePageChange p v
  | Speak t o => with_hook (speak t o (hook v)) v
  | Pause => with_hook (pause (hook v)) v
  | Resume => with_hook (resume (hook v)) v
  | Stop => with_hook (stop (hook v)) v
  | Platform u ev => with_hook (fire u ev (hook v)) v
  end.

(** One action, then the effects of the render it causes. *)
Definition step (v : Viewer) (a : Action) : Viewer :=
  reading_effect (apply a v).

Definition run (v : Viewer) (l : list Action) : Viewer := fold_left step l v.

(** The slice of the document shown by [renderTextContent]. *)
Definition page_slice (v : Viewer) : jsstring :=
  let startIndex := ((Z.of_nat (currentPage v) - 1) * 2000)%Z in
  let endIndex := (startIndex + (if doublePage v then 4000 else 2000))%Z in
  slice_int (content v) startIndex endIndex.

(** The reading-position stage of [renderTextContent], lines 539-548: the
    slice is left as it is, or cut in three around the marked span. *)
Inductive Rendered :=
| Plain (text : jsstring)
| Marked (beforeHighlight highlightedText afterHighlight : jsstring).

Definition highlight_query (h : Hook) (hl : option (nat * nat))
  (slice_text : jsstring) : Rendered :=
  if isPlaying h && nonempty (currentText h) then
    match hl with
    | Some (s, e) =>
        Marked (slice slice_text 0 s) (slice slice_text s e)
               (slice_from slice_text e)
    | None => Plain slice_text
    end
  else Plain slice_text.

Definition renderTextContent (v : Viewer) : Rendered :=
  highlight_query (hook v) (readingHighlight v) (page_slice v).

End Viewer.

(** ** The converter [fileConverter.ts] *)

Module Converter.

(** A thrown value: an [Error] with its message, or something else. *)
Inductive Thrown := ErrorObj (message : string) | NotAnError.

(** [error instanceof Error ? error.message : dflt]. *)
Definition message_or (dflt : string) (t : Thrown) : string :=
  match t with ErrorObj m => m | NotAnError => dflt end.

(** An asynchronous computation that reports progress: the values passed
    to [onProgress], in order, and then a rejection or a result. *)
Definition Conv (A : Type) : Type := list Q * (Thrown + A).

Definition ret {A} (a : A) : Conv A := ([], inr a).
Definition throw {A} (t : Thrown) : Conv A := ([], inl t).
Definition onProgress (p : Q) : Conv unit := ([p], inr tt).

Definition bind {A B} (m : Conv A) (f : A -> Conv B) : Conv B :=
  match m with
  | (t, inl e) => (t, inl e)
  | (t, inr a) => let '(t', r) := f a in (t ++ t', r)
  end.

Definition try_catch {A} (m : Conv A) (handler : Thrown -> Conv A) : Conv A :=
  match m with
  | (t, inl e) => let '(t', r) := handler e in (t ++ t', r)
  | (t, inr a) => (t, inr a)
  end.

Declare Scope conv_scope.
Delimit Scope conv_scope with conv.
Notation "m ;; k" := (bind m (fun _ => k))
  (at level 100, k at level 200, right associativity) : conv_scope.
Open Scope conv_scope.

Fixpoint for_each (l : list nat) (body : nat -> Conv unit) : Conv unit :=
  match l with
  | [] => ret tt
  | i :: rest => body i ;; for_each rest body
  end.

(** Where the libraries (FileReader, epubjs, jsPDF, URL) can fail. *)
Inductive Stage :=
| OpenBook              (* ePub(arrayBuffer) *)
| LoadBook              (* book.loaded.metadata / spine / navigation *)
| BuildPdf              (* new jsPDF, title page *)
| LoadItem (k : nat)    (* loading and typesetting spine item k *)
| OutputBlob.           (* pdf.output('blob'), URL.createObjectURL *)

(** What the libraries do during one conversion attempt of an EPUB. *)
Record EpubRun := {
  read_fails : bool;                   (* reader.onerror fires *)
  items : nat;                         (* spine.spineItems.length *)
  fault : Stage -> option Thrown;      (* the exception a stage raises, if any *)
  url : string                         (* the object URL created *)
}.

Definition may_fail (r : EpubRun) (s : Stage) : Conv unit :=
  match fault r s with
  | Some t => throw t
  | None => ret tt
  end.

Definition ratio (i n : nat) : Q :=
  inject_Z (Z.of_nat i) / inject_Z (Z.of_nat n).

Definition convertEpubToPdfAdvanced (r : EpubRun) : Conv string :=
  if read_fails r then throw (ErrorObj "Failed to read EPUB file")
  else
    onProgress 10 ;;
    may_fail r OpenBook ;;
    onProgress 20 ;;
    may_fail r LoadBook ;;
    onProgress 30 ;;
    may_fail r BuildPdf ;;
    for_each (seq 0 (items r)) (fun processedItems =>
      try_catch
        (onProgress (30 + ratio processedItems (items r) * 60) ;;
         may_fail r (LoadItem processedItems))
        (fun itemError => ret tt)) ;;
    onProgress 95 ;;
    may_fail r OutputBlob ;;
    onProgress 100 ;;
    ret (url r).

Definition convertEpubToPdfSimple (r : EpubRun) : Conv string :=
  if read_fails r then throw (ErrorObj "Failed to read EPUB file")
  else
    onProgress 20 ;;
    may_fail r OpenBook ;;
    onProgress 40 ;;
    may_fail r BuildPdf ;;
    may_fail r LoadBook ;;
    for_each (seq 0 (items r)) (fun i =>
      may_fail r (LoadItem i) ;;
      onProgress (40 + ratio i (items r) * 50)) ;;
    onProgress 90 ;;
    may_fail r OutputBlob ;;
    onProgress 100 ;;
    ret (url r).

Definition azw3_message : string :=
  "AZW3 files are typically DRM-protected and cannot be converted directly. "
  ++ "Please use DRM-free files or convert to EPUB first using tools like Calibre.".

Definition convertAzw3ToPdf : Conv string :=
  onProgress 25 ;;
  onProgress 50 ;;
  onProgress 75 ;;
  throw (ErrorObj azw3_message).

(** [toLowerCase] on the letters A-Z. *)
Definition lower_ascii (c : Ascii.ascii) : Ascii.ascii :=
  let n := Ascii.nat_of_ascii c in
  if (65 <=? n) && (n <=? 90) then Ascii.ascii_of_nat (n + 32) else c.

Fixpoint toLowerCase (s : string) : string :=
  match s with
  | EmptyString => EmptyString
  | String c r => String (lower_ascii c) (toLowerCase r)
  end.

(** The libraries' behaviour during the two attempts made for an EPUB. *)
Record Env := { advanced : EpubRun; simple : EpubRun }.

Definition convertFileEnhanced (inputFormat : string) (env : Env)
  : Conv string :=
  onProgress 2 ;;
  try_catch
    ((if String.eqb (toLowerCase inputFormat) "epub"
         || String.eqb (toLowerCase inputFormat) "azw3"
      then ret tt
      else throw (ErrorObj ("Unsupported input format: " ++ inputFormat))) ;;
     onProgress 5 ;;
     if String.eqb inputFormat "epub" then
       try_catch (convertEpubToPdfAdvanced (advanced env))
         (fun advancedError =>
            onProgress 10 ;;   (* Reset progress for fallback *)
            convertEpubToPdfSimple (simple env))
     else if String.eqb inputFormat "azw3" then convertAzw3ToPdf
     else throw (ErrorObj "Unsupported format"))
    (fun error =>
       throw (ErrorObj ("Conversion failed: " ++ message_or "Unknown error" error))).

End Converter.

(** ** The component [FileConverter] *)

Module Jobs.
Import Converter.

Inductive Status := Pending | Processing | Completed | Error.

Record File := { fname : string; fsize : N }.

Record ConversionJob := {
  id : string;
  inputFile : File;
  inputFormat : string;
  outputFormat : string;
  status : Status;
  progress : Q;
  outputUrl : option string;
  error : option string
}.

(** The [jobs] cell and the calls made to [URL.revokeObjectURL]. *)
Record FileConverter := {
  jobs : list ConversionJob;
  revoked : list string
}.

Definition setJobs (f : list ConversionJob -> list ConversionJob)
  (c : FileConverter) : FileConverter :=
  {| jobs := f (jobs c); revoked := revoked c |}.

(** [prev.map(j => j.id === jobId ? f(j) : j)]. *)
Definition update (jobId : string) (f : ConversionJob -> ConversionJob)
  : list ConversionJob -> list ConversionJob :=
  map (fun j => if String.eqb (id j) jobId then f j else j).

Definition to_processing (j : ConversionJob) : ConversionJob :=
  {| id := id j; inputFile := inputFile j; inputFormat := inputFormat j;
     outputFormat := outputFormat j; status := Processing;
     progress := progress j; outputUrl := outputUrl j; error := error j |}.

Definition with_progress (p : Q) (j : ConversionJob) : ConversionJob :=
  {| id := id j; inputFile := inputFile j; inputFormat := inputFormat j;
     outputFormat := outputFormat j; status := status j;
     progress := p; outputUrl := outputUrl j; error := error j |}.

Definition to_completed (u : string) (j : ConversionJob) : ConversionJob :=
  {| id := id j; inputFile := inputFile j; inputFormat := inputFormat j;
     outputFormat := outputFormat j; status := Completed;
     progress := 100; outputUrl := Some u; error := error j |}.

Definition to_error (t : Thrown) (j : ConversionJob) : ConversionJob :=
  {| id := id j; inputFile := inputFile j; inputFormat := inputFormat j;
     outputFormat := outputFormat j; status := Error;
     progress := 0; outputUrl := outputUrl j;
     error := Some (message_or "Conversion failed" t) |}.

Definition to_retry (j : ConversionJob) : ConversionJob :=
  {| id := id j; inputFile := inputFile j; inputFormat := inputFormat j;
     outputFormat := outputFormat j; status := Processing;
     progress := 0; outputUrl := outputUrl j; error := None |}.

(** The progress callback handed to the converter. *)
Definition report (jobId : string) (c : FileConverter) (p : Q)
  : FileConverter :=
  setJobs (update jobId (with_progress p)) c.

(** The [try] block shared by [handleFilesDrop] and [retryJob]: the
    callbacks of the conversion in order, then its outcome. *)
Definition settle (jobId : string) (r : Conv string) (c : FileConverter)
  : FileConverter :=
  let c' := fold_left (report jobId) (fst r) c in
  match snd r with
  | inr outputUrl => setJobs (update jobId (to_completed outputUrl)) c'
  | inl thrown => setJobs (update jobId (to_error thrown)) c'
  end.

(** [jobs.find(j => j.id === jobId)]. *)
Definition find_job (jobId : string) (l : list ConversionJob)
  : option ConversionJob :=
  List.find (fun j => String.eqb (id j) jobId) l.

(** The states the component goes through while a conversion reports
    progress, the first being the one the conversion starts from. *)
Fixpoint reports (jobId : string) (trace : list Q) (c : FileConverter)
  : list FileConverter :=
  match trace with
  | [] => [c]
  | p :: rest => c :: reports jobId rest (report jobId c p)
  end.

(** The progress stored for job [jobId], as the job list shows it. *)
Definition stored_progress (jobId : string) (c : FileConverter) : option Q :=
  progress <$> find_job jobId (jobs c).

(** The values of [progress] the job goes through while it is
    [Processing]: the one it starts from, then one per callback. *)
Definition progress_history (jobId inputFormat : string) (env : Env)
  (c : FileConverter) : list Q :=
  omap (stored_progress jobId)
    (reports jobId (fst (convertFileEnhanced inputFormat env)) c).

(** [name.toLowerCase().split('.').pop()]. *)
Fixpoint last_piece (cur s : string) : string :=
  match s with
  | EmptyString => cur
  | String c r =>
      if Ascii.eqb c "."%char then last_piece EmptyString r
      else last_piece (cur ++ String c EmptyString)%string r
  end.

Definition extension_of (name : string) : string :=
  last_piece EmptyString (toLowerCase name).

(** One iteration of the loop of [handleFilesDrop]; [newId] is the string
    made from the clock and the random generator. *)
Definition handleFileDrop (file : File) (newId : string) (env : Env)
  (c : FileConverter) : FileConverter :=
  let extension := extension_of (fname file) in
  if String.eqb extension "epub" || String.eqb extension "azw3" then
    let job :=
      {| id := newId; inputFile := file; inputFormat := extension;
         outputFormat := "pdf"; status := Pending; progress := 0;
         outputUrl := None; error := None |} in
    let c1 := setJobs (fun prev => prev ++ [job]) c in
    let c2 := setJobs (update newId to_processing) c1 in
    settle newId (convertFileEnhanced (inputFormat job) env) c2
  else
    let errorJob :=
      {| id := newId; inputFile := file;
         inputFormat := if String.eqb extension "" then "unknown" else extension;
         outputFormat := "pdf"; status := Error; progress := 0;
         outputUrl := None;
         error := Some ("Unsupported file format: " ++ extension
                        ++ ". Only EPUB and AZW3 files are supported.")%string |} in
    setJobs (fun prev => prev ++ [errorJob]) c.

Definition retryJob (job : ConversionJob) (env : Env) (c : FileConverter)
  : FileConverter :=
  settle (id job) (convertFileEnhanced (inputFormat job) env)
    (setJobs (update (id job) to_retry) c).

(** The calls [URL.revokeObjectURL] makes for a job: one if it has a
    non-empty [outputUrl]. *)
Definition release (j : option ConversionJob) : list string :=
  match j with
  | Some j' =>
      match outputUrl j' with
      | Some u => if String.eqb u "" then [] else [u]
      | None => []
      end
  | None => []
  end.

(** [removeJob], lines 500-506.  [seen] is the [jobs] of the render that
    made the handler: the job is looked up there, while the update filters
    the list as it is when the update is applied. *)
Definition removeJob (seen : list ConversionJob) (jobId : string)
  (c : FileConverter) : FileConverter :=
  let job := find_job jobId seen in
  {| jobs := List.filter (fun j => negb (String.eqb (id j) jobId)) (jobs c);
     revoked := revoked c ++ release job |}.

Definition clearJobs (c : FileConverter) : FileConverter :=
  {| jobs := [];
     revoked := revoked c ++ concat (map (fun j => release (Some j)) (jobs c)) |}.

End Jobs.

(** ** The music player: [removeTrack] *)

Module Music.

Record Track := {
  tid : string;
  tname : string;
  duration : Q;
  turl : string
}.

(** The [music] state the module reads and writes, and the calls made to
    [URL.revokeObjectURL]. *)
Record Player := {
  tracks : list Track;
  currentTrack : option Track;
  currentTime : Q;
  playing : bool;
  revoked : list string
}.

Definition find_track (trackId : string) (l : list Track) : option Track :=
  List.find (fun t => String.eqb (tid t) trackId) l.

Definition same_id (trackId : string) (t : option Track) : bool :=
  match t with Some t' => String.eqb (tid t') trackId | None => false end.

(** [removeTrack], lines 77-93.  [seen] is the [music.tracks] of the
    render that made the handler: the track is looked up there, while the
    update filters the list as it is when the update is applied. *)
Definition removeTrack (seen : list Track) (trackId : string) (m : Player)
  : Player :=
  let track := find_track trackId seen in
  let newTracks :=
    List.filter (fun t => negb (String.eqb (tid t) trackId)) (tracks m) in
  {| tracks := newTracks;
     currentTrack :=
       if same_id trackId (currentTrack m) then head newTracks
       else currentTrack m;
     currentTime := currentTime m;
     playing := playing m;
     revoked :=
       revoked m ++ match track with Some t => [turl t] | None => [] end |}.

End Music.

(** ** The page cache of [PDFRenderer] *)

Module PDF.
Import JS.

(** A loaded document, as far as [renderPage] looks at it: the number of
    pages, the size of each page at scale 1 and its text. *)
Record PDFDocument := {
  numPages : nat;
  page_width : nat -> Q;
  page_height : nat -> Q;
  page_text : nat -> jsstring
}.

(** [canvas] is the identity of the canvas element created for the page. *)
Record PDFPageData := {
  pageNumber : nat;
  canvas : nat;
  textContent : jsstring;
  width : Q;
  height : Q
}.

Record PDFRenderer := {
  pdf : option PDFDocument;
  pages : gmap nat PDFPageData;
  canvases : nat                 (* canvas elements created so far *)
}.

Definition fresh : PDFRenderer := {| pdf := None; pages := ∅; canvases := 0 |}.

Definition loadPDF (d : PDFDocument) (r : PDFRenderer) : PDFRenderer :=
  {| pdf := Some d; pages := pages r; canvases := canvases r |}.

(** [renderPage(pageNumber, scale)]: the rejection message or the page
    data, and the renderer afterwards.  [getPage] rejects a page number
    outside [1..numPages]. *)
Definition renderPage (p : nat) (scale : Q) (r : PDFRenderer)
  : (string + PDFPageData) * PDFRenderer :=
  match pdf r with
  | None => (inl "PDF not loaded", r)
  | Some d =>
      let cacheKey := p in
      match pages r !! cacheKey with
      | Some cached => (inr cached, r)
      | None =>
          if (1 <=? p) && (p <=? numPages d) then
            let pageData :=
              {| pageNumber := p;
                 canvas := canvases r;
                 textContent := page_text d p;
                 width := page_width d p * scale;
                 height := page_height d p * scale |} in
            (inr pageData,
             {| pdf := pdf r;
                pages := <[cacheKey := pageData]> (pages r);
                canvases := S (canvases r) |})
          else (inl "Invalid page request", r)
      end
  end.

Definition clearCache (r : PDFRenderer) : PDFRenderer :=
  {| pdf := pdf r; pages := ∅; canvases := canvases r |}.

End PDF.

(** ** The properties as the specification words them *)

Module Claims.
Import JS Speech Viewer Converter Jobs PDF.

(** Clamping into [[lo, hi]]: an input below [lo] becomes [lo], one above
    [hi] becomes [hi], any other is kept. *)
Definition clamp (lo hi : Q) (x : number) : number :=
  match x with
  | NaN => NaN
  | NegInf => Fin lo
  | PosInf => Fin hi
  | Fin q =>
      if Qle_bool hi q then Fin hi
      else if Qle_bool q lo then Fin lo
      else Fin q
  end.

(** The first word, scanning in order, whose cumulative end offset
    [charCount + wordLength] is at least [o]; the running offset grows by
    the word's length plus one separator. *)
Fixpoint first_qualifying (words : list jsstring) (i charCount o : nat)
  : option nat :=
  match words with
  | [] => None
  | w :: rest =>
      if o <=? charCount + length w then Some i
      else first_qualifying rest (S i) (charCount + length w + 1) o
  end.

(** The tracker of section 4.2: the index of the qualifying word, and the
    previous cursor when no word qualifies. *)
Definition tracked (text : jsstring) (o : nat) (previous : nat) : nat :=
  match first_qualifying (split_ws text) 0 0 o with
  | Some i => i
  | None => previous
  end.

(** Generation isolation: once a second [speak] has been accepted, no event
    of the first request changes the state. *)
Definition generation_isolated : Prop :=
  forall (h : Hook) t1 o1 t2 o2 u1 ev,
    spoken t1 o1 h = Some u1 ->
    spoken t2 o2 (speak t1 o1 h) <> None ->
    fire u1 ev (speak t2 o2 (speak t1 o1 h)) = speak t2 o2 (speak t1 o1 h).

(** Removal releases exactly once: when the removal of a job that holds
    an output URL is invoked twice in succession, the first call releases
    the URL and the second call is a no-op. *)
Definition released_once : Prop :=
  forall (c : Jobs.FileConverter) (j : Jobs.ConversionJob) (u : string),
    List.NoDup (map Jobs.id (Jobs.jobs c)) -> In j (Jobs.jobs c) ->
    Jobs.outputUrl j = Some u -> u <> "" ->
    let c1 := Jobs.removeJob (Jobs.jobs c) (Jobs.id j) c in
    Jobs.revoked c1 = Jobs.revoked c ++ [u]
    /\ Jobs.removeJob (Jobs.jobs c) (Jobs.id j) c1 = c1.

(** A sequence of progress values in which no value is below the one
    before it. *)
Fixpoint nondecreasing (l : list Q) : Prop :=
  match l with
  | p :: (q :: _) as rest => (p <= q)%Q /\ nondecreasing rest
  | _ => True
  end.

(** The progress of a job never decreases while it is [Processing]. *)
Definition progress_monotone : Prop :=
  forall (jobId inputFormat : string) (env : Converter.Env)
         (c : Jobs.FileConverter) (j : Jobs.ConversionJob),
    Jobs.find_job jobId (Jobs.jobs c) = Some j ->
    Jobs.status j = Jobs.Processing ->
    nondecreasing (Jobs.progress_history jobId inputFormat env c).

(** The highlight query checks its slice against the text being read: a
    slice that is not that text gets no highlight. *)
Definition slice_checked : Prop :=
  forall (v : Viewer.Viewer),
    Viewer.page_slice v <> currentText (Viewer.hook v) ->
    Viewer.renderTextContent v = Viewer.Plain (Viewer.page_slice v).

(** *** Auxiliary predicates *)

(** [ascending lo hi t]: [t] is non-decreasing, starts at or above [lo]
    and ends at or below [hi]. *)
Fixpoint ascending (lo hi : Q) (t : list Q) : Prop :=
  match t with
  | [] => (lo <= hi)%Q
  | p :: rest => (lo <= p)%Q /\ ascending p hi rest
  end.

(** The values reported by a conversion are [ascending]. *)
Definition asc {A} (lo hi : Q) (m : Conv A) : Prop := ascending lo hi (fst m).

(** Whether the runner fell back to the simple EPUB conversion. *)
Definition fell_back (fmt : string) (env : Env) : bool :=
  String.eqb fmt "epub"
  && match snd (convertEpubToPdfAdvanced (advanced env)) with
     | inl _ => true
     | inr _ => false
     end.

(** The reading highlight, when there is one, lies within the text being
    spoken. *)
Definition bounded (v : Viewer) : Prop :=
  forall s e, readingHighlight v = Some (s, e) ->
    s <= e <= length (currentText (hook v)).

(** Calls [renderPage(q, s)] made one after the other. *)
Definition render_all (calls : list (nat * Q)) (r : PDFRenderer) : PDFRenderer :=
  fold_left (fun r' c => (renderPage c.1 c.2 r').2) calls r.

End Claims.

(** ** Concrete inputs used below *)

Module Scenarios.
Import JS Speech Viewer Converter Jobs Music PDF.

(** A hook whose mount effect found the capability and loaded the voices. *)
Definition ready : Hook := mount true true initial.

(** A document of two pages and what is shown after the first page's
    heading was selected and read, and the second page opened. *)
Definition two_pages : jsstring :=
  units "First page words" ++ repeat 120%N 1984 ++ units "Second page here".

Definition reading_page_one : Viewer :=
  let u := make_utterance 0 (units "First page words") default_options in
  run (open two_pages)
    [Mount true true; TextSelection (units "First page words"); SpeechPlay;
     Platform u OnStart; Platform u (OnBoundary "word" 6); PageChange 2].

(** An EPUB whose archive cannot be loaded by the advanced attempt and is
    converted by the fallback. *)
Definition corrupt_then_simple : Env :=
  {| advanced := {| read_fails := false; items := 3;
                    fault := fun s => match s with
                                      | LoadBook => Some (ErrorObj "corrupt archive")
                                      | _ => None
                                      end;
                    url := "blob:advanced" |};
     simple := {| read_fails := false; items := 2; fault := fun _ => None;
                  url := "blob:simple" |} |}.

Definition one_processing : FileConverter :=
  {| jobs := [ {| id := "job-1"; inputFile := {| fname := "book.epub"; fsize := 1000 |};
                  inputFormat := "epub"; outputFormat := "pdf";
                  status := Processing; progress := 0;
                  outputUrl := None; error := None |} ];
     Jobs.revoked := [] |}.

(** The scenario of the specification: the archive is corrupt for both
    attempts, and the job ends with "Conversion failed: corrupt archive". *)
Definition corrupt : EpubRun :=
  {| read_fails := false; items := 0;
     fault := fun s => match s with
                       | OpenBook => Some (ErrorObj "corrupt archive")
                       | _ => None
                       end;
     url := "" |}.

Definition corrupt_archive : Env := {| advanced := corrupt; simple := corrupt |}.

Definition finished_job : ConversionJob :=
  {| id := "job-1"; inputFile := {| fname := "book.epub"; fsize := 1000 |};
     inputFormat := "epub"; outputFormat := "pdf"; status := Completed;
     progress := 100; outputUrl := Some "blob:pdf-1"; error := None |}.

Definition one_song : Track :=
  {| tid := "track-1"; tname := "song"; duration := 180; turl := "blob:audio-1" |}.

(** A document of three pages, rendered at 1.5 and then asked for at 3. *)
Definition three_pages : PDFDocument :=
  {| numPages := 3; page_width := fun _ => 600%Q; page_height := fun _ => 800%Q;
     page_text := fun _ => JS.units "page text" |}.

End Scenarios.

(** ** More of the viewer: keyboard paging, zoom, search results *)

Module Navigation.
Import JS Speech Viewer.

Definition setCurrentPage (p : nat) (v : Viewer) : Viewer :=
  {| hook := hook v; content := content v; isPdf := isPdf v;
     pdfFullText := pdfFullText v; pdfPageCount := pdfPageCount v;
     currentPage := p; doublePage := doublePage v;
     selectedText := selectedText v; textSelectionRef := textSelectionRef v;
     speechOptions := speechOptions v;
     currentReadingText := currentReadingText v;
     readingHighlight := readingHighlight v |}.

(** The keys [handleKeyDown] looks at; [Space] carries [e.shiftKey].
    Ctrl-F only focuses the search input and is an [OtherKey] here. *)
Inductive Key :=
| ArrowUp | ArrowDown | ArrowLeft | ArrowRight | Home | End_
| Space (shiftKey : bool)
| OtherKey.

(** [handleKeyDown], lines 66-123; [in_input] tells that the event target
    is an input or a text area.  A page number below 0 passed to
    [handlePageChange] is clamped to 1 like 0 is, so the truncated
    subtraction gives the page the code computes. *)
Definition handleKeyDown (in_input : bool) (k : Key) (v : Viewer) : Viewer :=
  if in_input then v
  else
    match k with
    | ArrowUp => handlePageChange (currentPage v - 1) v
    | ArrowDown => handlePageChange (currentPage v + 1) v
    | ArrowLeft =>
        if doublePage v then handlePageChange (currentPage v - 2) v
        else handlePageChange (currentPage v - 1) v
    | ArrowRight =>
        if doublePage v then handlePageChange (currentPage v + 2) v
        else handlePageChange (currentPage v + 1) v
    | Home => setCurrentPage 1 v
    | End_ => setCurrentPage (totalPages v) v
    | Space shiftKey =>
        if shiftKey then handlePageChange (currentPage v - 1) v
        else handlePageChange (currentPage v + 1) v
    | OtherKey => v
    end.

Definition press_all (v : Viewer) (keys : list Key) : Viewer :=
  fold_left (fun v' k => handleKeyDown false k v') keys v.

(** The slice of a text document shown as page [p] in single-page mode. *)
Definition single_page (doc : jsstring) (p : nat) : jsstring :=
  slice_int doc ((Z.of_nat p - 1) * 2000) ((Z.of_nat p - 1) * 2000 + 2000).

(** *** Zoom *)

Inductive FitMode := FitWidth | FitHeight | FitPage | FitCustom.

Record Zoom := { zoomLevel : Z; fitMode : FitMode }.

Definition zoom_initial : Zoom := {| zoomLevel := 100; fitMode := FitPage |}.

Definition handleZoomIn (z : Zoom) : Zoom :=
  {| zoomLevel := Z.min (zoomLevel z + 25) 300; fitMode := FitCustom |}.

Definition handleZoomOut (z : Zoom) : Zoom :=
  {| zoomLevel := Z.max (zoomLevel z - 25) 25; fitMode := FitCustom |}.

Definition handleFitToWidth (z : Zoom) : Zoom :=
  {| zoomLevel := 100; fitMode := FitWidth |}.

Definition handleFitToHeight (z : Zoom) : Zoom :=
  {| zoomLevel := 100; fitMode := FitHeight |}.

Definition handleFitToPage (z : Zoom) : Zoom :=
  {| zoomLevel := 100; fitMode := FitPage |}.

Inductive ZoomAction := ZoomIn | ZoomOut | ToWidth | ToHeight | ToPage.

Definition zoom_step (z : Zoom) (a : ZoomAction) : Zoom :=
  match a with
  | ZoomIn => handleZoomIn z
  | ZoomOut => handleZoomOut z
  | ToWidth => handleFitToWidth z
  | ToHeight => handleFitToHeight z
  | ToPage => handleFitToPage z
  end.

(** *** Search results *)

Record SearchResult := {
  page : nat;
  text : jsstring;
  position_y : nat               (* position: { x: 0, y: match.index } *)
}.

(** The viewer together with the cells of the search box. *)
Record Finder := {
  view : Viewer;
  searchQuery : jsstring;
  searchResults : list SearchResult;
  currentSearchIndex : nat
}.

(** [!searchQuery.trim()]: the query is empty or white space only. *)
Definition blank (q : jsstring) : bool := forallb is_space q.

(** The page given to a match at [index]: [Math.ceil(index / 2000)] for a
    text document.  For a PDF the code divides by a quotient of floats;
    [pdfPageOf] stands for the value of that expression. *)
Definition match_page (pdfPageOf : nat -> nat) (v : Viewer) (index : nat) : nat :=
  if isPdf v then pdfPageOf index else (index + 1999) / 2000.

(** What [new RegExp(searchQuery, 'gi')] gives: a [SyntaxError] when the
    query is not a valid pattern, or a regular expression.  [exec k] is what
    [regex.exec(searchText)] returns when [regex.lastIndex] is [k]: [None]
    for [null], or the index and the text of the match.  With the flag [g]
    the call leaves the end of the match in [lastIndex]. *)
Inductive RegExp :=
| SyntaxError
| Regex (exec : nat -> option (nat * jsstring)).

(** The loop [while ((match = regex.exec(searchText)) !== null)], lines
    271-280: [lastIndex] is the property of the regular expression,
    [results] the array pushed to.  The loop has no bound of its own;
    [fuel] is the number of calls of [exec] still allowed, and [None] tells
    that the loop is still running when they are used up. *)
Fixpoint exec_loop (fuel : nat) (exec : nat -> option (nat * jsstring))
  (page_of : nat -> nat) (lastIndex : nat) (results : list SearchResult)
  : option (list SearchResult) :=
  match fuel with
  | 0 => None
  | S fuel' =>
      match exec lastIndex with
      | None => Some results
      | Some (index, t) =>
          exec_loop fuel' exec page_of (index + length t)
            (results ++ [ {| page := page_of index; text := t;
                             position_y := index |} ])
      end
  end.

(** The result pushed for the match [m]. *)
Definition pushed (page_of : nat -> nat) (m : nat * jsstring) : SearchResult :=
  {| page := page_of m.1; text := m.2; position_y := m.1 |}.

(** How a call of [handleSearch] ends: it returns with the state it wrote,
    it throws before writing anything, or it is still in its loop. *)
Inductive Outcome :=
| Returned (f : Finder)
| Threw
| Running.

(** [handleSearch], lines 260-288, allowed [fuel] calls of [exec]. *)
Definition handleSearch (pdfPageOf : nat -> nat) (re : RegExp) (fuel : nat)
  (f : Finder) : Outcome :=
  if blank (searchQuery f) then
    Returned {| view := view f; searchQuery := searchQuery f;
                searchResults := [];
                currentSearchIndex := currentSearchIndex f |}
  else
    match re with
    | SyntaxError => Threw
    | Regex exec =>
        match exec_loop fuel exec (match_page pdfPageOf (view f)) 0 [] with
        | None => Running
        | Some results =>
            Returned {| view := match results with
                                | r :: _ => setCurrentPage (page r) (view f)
                                | [] => view f
                                end;
                        searchQuery := searchQuery f;
                        searchResults := results;
                        currentSearchIndex := 0 |}
        end
    end.

(** The state a call of [handleSearch] leaves when it returns, [matches]
    being the matches its loop found, in order, each with its index and
    text. *)
Definition searched (pdfPageOf : nat -> nat)
  (matches : list (nat * jsstring)) (f : Finder) : Finder :=
  if blank (searchQuery f) then
    {| view := view f; searchQuery := searchQuery f; searchResults := [];
       currentSearchIndex := currentSearchIndex f |}
  else
    let results :=
      map (fun m => {| page := match_page pdfPageOf (view f) m.1;
                       text := m.2; position_y := m.1 |}) matches in
    {| view := match results with
               | r :: _ => setCurrentPage (page r) (view f)
               | [] => view f
               end;
       searchQuery := searchQuery f;
       searchResults := results;
       currentSearchIndex := 0 |}.

Inductive Direction := Next | Prev.

(** [navigateSearchResult], lines 290-299. *)
Definition navigateSearchResult (d : Direction) (f : Finder) : Finder :=
  let n := length (searchResults f) in
  if n =? 0 then f
  else
    let newIndex :=
      match d with
      | Next => (currentSearchIndex f + 1) mod n
      | Prev => (currentSearchIndex f + n - 1) mod n
      end in
    {| view := match searchResults f !! newIndex with
               | Some r => setCurrentPage (page r) (view f)
               | None => view f
               end;
       searchQuery := searchQuery f;
       searchResults := searchResults f;
       currentSearchIndex := newIndex |}.

Definition setSearchQuery (q : jsstring) (f : Finder) : Finder :=
  {| view := view f; searchQuery := q; searchResults := searchResults f;
     currentSearchIndex := currentSearchIndex f |}.

(** What changes the cells of the search box: typing, a search that
    returned having found [matches], a step to another result. *)
Inductive FindAction :=
| TypeQuery (q : jsstring)
| Search (matches : list (nat * jsstring))
| Navigate (d : Direction).

Definition find_step (pdfPageOf : nat -> nat) (f : Finder) (a : FindAction)
  : Finder :=
  match a with
  | TypeQuery q => setSearchQuery q f
  | Search matches => searched pdfPageOf matches f
  | Navigate d => navigateSearchResult d f
  end.

End Navigation.

(** ** The older entry point [convertFile] *)

Module Legacy.
Import Converter.

(** [convertFile], lines 5-22: no validation, no fallback. *)
Definition convertFile (inputFormat : string) (env : Env) : Conv string :=
  onProgress 5 ;;
  try_catch
    (if String.eqb inputFormat "epub" then
       convertEpubToPdfAdvanced (advanced env)
     else if String.eqb inputFormat "azw3" then convertAzw3ToPdf
     else throw (ErrorObj "Unsupported format"))
    (fun error =>
       throw (ErrorObj ("Conversion failed: " ++ message_or "Unknown error" error))).

End Legacy.

(** ** Dropping several files on the converter *)

Module Drops.
Import Converter Jobs.

(** The loop of [handleFilesDrop], lines 369-422: the files one after the
    other, each with the id drawn for it and what the libraries do during
    its conversion. *)
Definition handleFilesDrop (files : list (File * string * Env))
  (c : FileConverter) : FileConverter :=
  fold_left (fun c' f => handleFileDrop f.1.1 f.1.2 f.2 c') files c.

(** [handleCloseModal]: [clearJobs()], then the parent's [onClose()]. *)
Definition handleCloseModal (c : FileConverter) : FileConverter := clearJobs c.

(** The counters shown in the header of the dialog. *)
Definition count_status (s : Status) (c : FileConverter) : nat :=
  length (List.filter (fun j => match status j, s with
                                | Pending, Pending | Processing, Processing
                                | Completed, Completed | Error, Error => true
                                | _, _ => false
                                end) (jobs c)).

End Drops.

(** ** Reading a dropped document: [fileReaders.ts] and [App] *)

Module Readers.
Import JS Converter Jobs.

Inductive SupportedFileType := TPdf | TEpub | TTxt | TAzw3 | TUnsupported.

(** [getSupportedFileType], lines 9-24. *)
Definition getSupportedFileType (file : File) : SupportedFileType :=
  let extension := extension_of (fname file) in
  if String.eqb extension "pdf" then TPdf
  else if String.eqb extension "epub" then TEpub
  else if String.eqb extension "txt" then TTxt
  else if String.eqb extension "azw3" then TAzw3
  else TUnsupported.

(** [s.trim()]. *)
Fixpoint trim_start (s : jsstring) : jsstring :=
  match s with
  | c :: r => if is_space c then trim_start r else s
  | [] => []
  end.

Definition trim (s : jsstring) : jsstring :=
  rev (trim_start (rev (trim_start s))).

(** What the libraries find in a file.  [text_of] is the result of
    [readAsText], [None] when the reader fails.  A PDF is unreadable by
    the reader, rejected by pdf.js, or a list of pages, each the [str] of
    its text items.  An EPUB is unreadable, rejected by epubjs, or a list
    of spine items, each failing to load ([None]) or giving the
    [textContent] of its selected nodes ([None] for a null one). *)
Inductive PdfFile :=
| PdfUnreadable
| PdfRejected
| PdfPages (pages : list (list jsstring)).

Inductive EpubFile :=
| EpubUnreadable
| EpubRejected
| EpubItems (items : list (option (list (option jsstring)))).

Record Disk := {
  text_of : File -> option jsstring;
  pdf_of : File -> PdfFile;
  epub_of : File -> EpubFile
}.

Definition newlines : jsstring := [10%N; 10%N].

(** [readTextFile], lines 26-36. *)
Definition readTextFile (d : Disk) (file : File) : Thrown + jsstring :=
  match text_of d file with
  | Some content => inr content
  | None => inl (ErrorObj "Failed to read text file")
  end.

(** The text of the pages: each page's items joined by a space and
    followed by two line feeds. *)
Definition pages_text (pages : list (list jsstring)) : jsstring :=
  concat (map (fun items => join_sp items ++ newlines) pages).

(** [readPDFFile], lines 38-71. *)
Definition readPDFFile (d : Disk) (file : File) : Thrown + jsstring :=
  match pdf_of d file with
  | PdfUnreadable => inl (ErrorObj "Failed to read PDF file")
  | PdfRejected =>
      inl (ErrorObj "Failed to read PDF file. The file may be corrupted or password-protected.")
  | PdfPages pages => inr (pages_text pages)
  end.

(** The text kept for one node: its trimmed content and two line feeds,
    nothing when the content is null or blank. *)
Definition node_text (node : option jsstring) : jsstring :=
  match node with
  | Some content =>
      let text := trim content in
      if nonempty text then text ++ newlines else []
  | None => []
  end.

Definition item_text (item : option (list (option jsstring))) : jsstring :=
  match item with
  | Some nodes => concat (map node_text nodes)
  | None => []                   (* the item failed to load: it is skipped *)
  end.

(** [readEPUBFile], lines 73-109. *)
Definition readEPUBFile (d : Disk) (file : File) : Thrown + jsstring :=
  match epub_of d file with
  | EpubUnreadable => inl (ErrorObj "Failed to read EPUB file")
  | EpubRejected =>
      inl (ErrorObj "Failed to read EPUB file. The file may be corrupted or DRM-protected.")
  | EpubItems items => inr (concat (map item_text items))
  end.

Record DocumentFile := {
  dname : string;
  dtype : SupportedFileType;
  dsize : N;
  dcontent : jsstring;
  dfile : File
}.

(** [readDocumentFile], lines 111-142. *)
Definition readDocumentFile (d : Disk) (file : File) : Thrown + DocumentFile :=
  let fileType := getSupportedFileType file in
  let read : Thrown + jsstring :=
    match fileType with
    | TTxt => readTextFile d file
    | TPdf => readPDFFile d file
    | TEpub => readEPUBFile d file
    | TAzw3 =>
        inl (ErrorObj "AZW3 format is not supported due to DRM restrictions. Please convert to EPUB first.")
    | TUnsupported =>
        inl (ErrorObj "Unsupported file format. Please use PDF, EPUB, or TXT files.")
    end in
  match read with
  | inr content =>
      inr {| dname := fname file; dtype := fileType; dsize := fsize file;
             dcontent := content; dfile := file |}
  | inl error =>
      inl (ErrorObj ("Failed to read file: " ++ message_or "Unknown error" error))
  end.

(** The cells of [App] that a drop writes. *)
Record App := {
  currentDocument : option DocumentFile;
  isProcessing : bool;
  app_error : option string
}.

Definition app_initial : App :=
  {| currentDocument := None; isProcessing := false; app_error := None |}.

(** [App.handleFilesDrop], lines 68-83 of the application file: only the
    first file is processed. *)
Definition appHandleFilesDrop (d : Disk) (files : list File) (a : App) : App :=
  match files with
  | [] => a
  | file :: _ =>
      match readDocumentFile d file with
      | inr documentFile =>
          {| currentDocument := Some documentFile; isProcessing := false;
             app_error := None |}
      | inl err =>
          {| currentDocument := currentDocument a; isProcessing := false;
             app_error := Some (message_or "Failed to process file" err) |}
      end
  end.

Definition handleNewDocument (a : App) : App :=
  {| currentDocument := None; isProcessing := isProcessing a; app_error := None |}.

End Readers.

(** ** More of [PDFRenderer] *)

Module PDFText.
Import JS PDF.

(** [getPageCount()]: [this.pdf?.numPages || 0]. *)
Definition getPageCount (r : PDFRenderer) : nat :=
  match pdf r with Some d => numPages d | None => 0 end.

(** [getAllTextContent()], lines 92-105: the text of the pages 1 to
    [numPages], each followed by two line feeds; the empty string when no
    document is loaded. *)
Definition getAllTextContent (r : PDFRenderer) : jsstring :=
  match pdf r with
  | None => []
  | Some d =>
      concat (map (fun i => page_text d i ++ [10%N; 10%N]) (seq 1 (numPages d)))
  end.

(** The calls a user of the class can make. *)
Inductive Call :=
| Load (d : PDFDocument)
| Render (p : nat) (scale : Q)
| Clear.

Definition call_step (r : PDFRenderer) (c : Call) : PDFRenderer :=
  match c with
  | Load d => loadPDF d r
  | Render p s => (renderPage p s r).2
  | Clear => clearCache r
  end.

Definition calls (r : PDFRenderer) (l : list Call) : PDFRenderer :=
  fold_left call_step l r.

End PDFText.

(** ** The productivity context: Pomodoro timer and music state *)

Module Pomodoro.

Inductive Mode := Focus | ShortBreak | LongBreak.

Record PomodoroState := {
  minutes : nat;
  seconds : nat;
  isActive : bool;
  isPaused : bool;
  mode : Mode;
  session : nat
}.

Definition initial : PomodoroState :=
  {| minutes := 25; seconds := 0; isActive := false; isPaused := false;
     mode := Focus; session := 1 |}.

(** The callback of the interval, lines 87-96. *)
Definition tick (p : PomodoroState) : PomodoroState :=
  if 0 <? seconds p then
    {| minutes := minutes p; seconds := seconds p - 1; isActive := isActive p;
       isPaused := isPaused p; mode := mode p; session := session p |}
  else if 0 <? minutes p then
    {| minutes := minutes p - 1; seconds := 59; isActive := isActive p;
       isPaused := isPaused p; mode := mode p; session := session p |}
  else
    {| minutes := minutes p; seconds := seconds p; isActive := false;
       isPaused := isPaused p; mode := mode p; session := session p |}.

(** One second of wall clock: the interval exists only while the timer is
    active and not paused. *)
Definition second (p : PomodoroState) : PomodoroState :=
  if isActive p && negb (isPaused p) then tick p else p.

Definition startPomodoro (p : PomodoroState) : PomodoroState :=
  {| minutes := minutes p; seconds := seconds p; isActive := true;
     isPaused := false; mode := mode p; session := session p |}.

Definition pausePomodoro (p : PomodoroState) : PomodoroState :=
  {| minutes := minutes p; seconds := seconds p; isActive := isActive p;
     isPaused := negb (isPaused p); mode := mode p; session := session p |}.

Definition resetPomodoro (p : PomodoroState) : PomodoroState := initial.

(** [handlePomodoroToggle] of the mini modules. *)
Definition handlePomodoroToggle (p : PomodoroState) : PomodoroState :=
  if isActive p && negb (isPaused p) then pausePomodoro p else startPomodoro p.

Definition remaining (p : PomodoroState) : nat := 60 * minutes p + seconds p.

Inductive Event := Second | Start | PauseToggle | Reset | Toggle.

Definition on (p : PomodoroState) (e : Event) : PomodoroState :=
  match e with
  | Second => second p
  | Start => startPomodoro p
  | PauseToggle => pausePomodoro p
  | Reset => resetPomodoro p
  | Toggle => handlePomodoroToggle p
  end.

End Pomodoro.

Module Playlist.
Import Music.

Inductive RepeatMode := RepeatNone | RepeatOne | RepeatAll.

(** The whole [MusicState] of the context. *)
Record MusicState := {
  tracks : list Track;
  currentTrack : option Track;
  isPlaying : bool;
  currentTime : Q;
  volume : Q;
  isShuffled : bool;
  repeatMode : RepeatMode
}.

Definition initial : MusicState :=
  {| tracks := []; currentTrack := None; isPlaying := false; currentTime := 0;
     volume := 7 # 10; isShuffled := false; repeatMode := RepeatNone |}.

(** [tracks.findIndex(track => track.id === trackId)]: -1 when absent. *)
Fixpoint findIndex_from (i : Z) (trackId : option string) (l : list Track) : Z :=
  match l with
  | [] => -1
  | t :: rest =>
      if match trackId with
         | Some k => String.eqb (tid t) k
         | None => false
         end
      then i
      else findIndex_from (i + 1) trackId rest
  end.

Definition currentIndex (m : MusicState) : Z :=
  findIndex_from 0 (tid <$> currentTrack m) (tracks m).

(** [tracks[i]] for a number [i]: undefined outside the list. *)
Definition track_at (l : list Track) (i : Z) : option Track :=
  if (i <? 0)%Z then None else l !! Z.to_nat i.

Definition with_current (t : option Track) (m : MusicState) : MusicState :=
  {| tracks := tracks m; currentTrack := t; isPlaying := false;
     currentTime := 0; volume := volume m; isShuffled := isShuffled m;
     repeatMode := repeatMode m |}.

(** The indices other than the current one, and the one picked by
    [Math.floor(Math.random() * availableIndices.length)], whose value is
    [pick]; [|| 0] replaces a missing or zero pick by 0. *)
Definition availableIndices (m : MusicState) : list Z :=
  List.filter (fun i => negb (i =? currentIndex m)%Z)
    (map Z.of_nat (seq 0 (length (tracks m)))).

Definition shuffled_index (pick : nat) (m : MusicState) : Z :=
  default 0%Z (availableIndices m !! pick).

(** [skipToNext], lines 159-191, up to the state it sets; playback is
    resumed later, when the audio element reports that it plays. *)
Definition skipToNext (pick : nat) (m : MusicState) : MusicState :=
  if length (tracks m) =? 0 then m
  else
    let nextIndex :=
      if isShuffled m then shuffled_index pick m
      else Z.rem (currentIndex m + 1) (Z.of_nat (length (tracks m))) in
    with_current (track_at (tracks m) nextIndex) m.

(** [skipToPrevious], lines 193-225. *)
Definition skipToPrevious (pick : nat) (m : MusicState) : MusicState :=
  if length (tracks m) =? 0 then m
  else
    let prevIndex :=
      if isShuffled m then shuffled_index pick m
      else Z.rem (currentIndex m - 1 + Z.of_nat (length (tracks m)))
             (Z.of_nat (length (tracks m))) in
    with_current (track_at (tracks m) prevIndex) m.

(** [selectTrack] of the music module, lines 65-75. *)
Definition selectTrack (trackId : string) (m : MusicState) : MusicState :=
  match find_track trackId (tracks m) with
  | Some track => with_current (Some track) m
  | None => m
  end.

(** The state written once the audio element plays after a skip. *)
Definition resumed (m : MusicState) : MusicState :=
  {| tracks := tracks m; currentTrack := currentTrack m; isPlaying := true;
     currentTime := currentTime m; volume := volume m;
     isShuffled := isShuffled m; repeatMode := repeatMode m |}.

(** [playPause], lines 146-157; [mounted] tells that the audio element
    exists. *)
Definition playPause (mounted : bool) (m : MusicState) : MusicState :=
  match mounted, currentTrack m with
  | true, Some _ =>
      {| tracks := tracks m; currentTrack := currentTrack m;
         isPlaying := negb (isPlaying m); currentTime := currentTime m;
         volume := volume m; isShuffled := isShuffled m;
         repeatMode := repeatMode m |}
  | _, _ => m
  end.

(** [Math.min] on finite numbers, and [d || 0]. *)
Definition qmin (a b : Q) : Q := if Qle_bool a b then a else b.
Definition or_zero (d : Q) : Q := if Qeq_bool d 0 then 0 else d.

(** The timer of the music state, lines 112-125: while a track plays, once
    a second, [Math.min(currentTime + 1, duration || 0)]. *)
Definition music_second (m : MusicState) : MusicState :=
  match isPlaying m, currentTrack m with
  | true, Some t =>
      {| tracks := tracks m; currentTrack := currentTrack m;
         isPlaying := isPlaying m;
         currentTime := qmin (currentTime m + 1) (or_zero (duration t));
         volume := volume m; isShuffled := isShuffled m;
         repeatMode := repeatMode m |}
  | _, _ => m
  end.

(** [toggleRepeat], lines 110-115: the modes in the order none, all, one. *)
Definition toggleRepeat (m : MusicState) : MusicState :=
  {| tracks := tracks m; currentTrack := currentTrack m;
     isPlaying := isPlaying m; currentTime := currentTime m;
     volume := volume m; isShuffled := isShuffled m;
     repeatMode := match repeatMode m with
                   | RepeatNone => RepeatAll
                   | RepeatAll => RepeatOne
                   | RepeatOne => RepeatNone
                   end |}.

(** [toggleShuffle] and [setVolume] of the music module, lines 106-118. *)
Definition toggleShuffle (m : MusicState) : MusicState :=
  {| tracks := tracks m; currentTrack := currentTrack m;
     isPlaying := isPlaying m; currentTime := currentTime m;
     volume := volume m; isShuffled := negb (isShuffled m);
     repeatMode := repeatMode m |}.

Definition setVolume (v : Q) (m : MusicState) : MusicState :=
  {| tracks := tracks m; currentTrack := currentTrack m;
     isPlaying := isPlaying m; currentTime := currentTime m;
     volume := v; isShuffled := isShuffled m; repeatMode := repeatMode m |}.

(** The state written by [addTracks], lines 227-258, when the metadata of
    one audio file has loaded: the track goes to the end of the list and
    becomes current when there was no current track. *)
Definition addTrack (t : Track) (m : MusicState) : MusicState :=
  {| tracks := tracks m ++ [t];
     currentTrack := match currentTrack m with
                     | Some c => Some c
                     | None => Some t
                     end;
     isPlaying := isPlaying m; currentTime := currentTime m;
     volume := volume m; isShuffled := isShuffled m;
     repeatMode := repeatMode m |}.

(** The state written by [removeTrack] of the music module, lines 77-93;
    the release of the URL is in [Music.removeTrack]. *)
Definition removeTrack (trackId : string) (m : MusicState) : MusicState :=
  let newTracks :=
    List.filter (fun t => negb (String.eqb (tid t) trackId)) (tracks m) in
  {| tracks := newTracks;
     currentTrack :=
       if same_id trackId (currentTrack m) then head newTracks
       else currentTrack m;
     isPlaying := isPlaying m; currentTime := currentTime m;
     volume := volume m; isShuffled := isShuffled m;
     repeatMode := repeatMode m |}.

Inductive Event :=
| SkipNext (pick : nat)
| SkipPrevious (pick : nat)
| Select (trackId : string)
| PlayPause (mounted : bool)
| Resumed
| MusicSecond
| ToggleRepeat
| ToggleShuffle
| SetVolume (v : Q)
| AddTrack (t : Track).

Definition on (m : MusicState) (e : Event) : MusicState :=
  match e with
  | SkipNext pick => skipToNext pick m
  | SkipPrevious pick => skipToPrevious pick m
  | Select k => selectTrack k m
  | PlayPause mounted => playPause mounted m
  | Resumed => resumed m
  | MusicSecond => music_second m
  | ToggleRepeat => toggleRepeat m
  | ToggleShuffle => toggleShuffle m
  | SetVolume v => setVolume v m
  | AddTrack t => addTrack t m
  end.

End Playlist.

(** ** Auxiliary notions for the properties of the remaining code *)

Module Notions.
Import JS Speech.

(** In the log of platform calls, every [speak] comes directly after a
    [cancel]. *)
Definition cancels_before_speaking (log : list SynthCall) : Prop :=
  forall i u, log !! i = Some (SynthSpeak u) ->
    exists j, i = S j /\ log !! j = Some SynthCancel.

(** A text whose only white space is single spaces: no tab, line break or
    other separator, and no two spaces in a row.  [after_space] tells that
    the previous unit was a space. *)
Fixpoint single_spaced_from (after_space : bool) (s : jsstring) : bool :=
  match s with
  | [] => true
  | c :: r =>
      if is_space c then
        (c =? 32)%N && negb after_space && single_spaced_from true r
      else single_spaced_from false r
  end.

Definition single_spaced (s : jsstring) : bool := single_spaced_from false s.

(** The offset at which word [k] starts when the words are laid out with
    one separator after each. *)
Definition word_start (ws : list jsstring) (k : nat) : nat :=
  list_sum (map (fun w => length w + 1) (take k ws)).

(** Whether a name contains a full stop. *)
Fixpoint has_dot (s : string) : bool :=
  match s with
  | EmptyString => false
  | String c r => Ascii.eqb c "."%char || has_dot r
  end.

(** The jobs other than the one with id [jobId], in their order. *)
Definition others (jobId : string) (l : list Jobs.ConversionJob)
  : list Jobs.ConversionJob :=
  List.filter (fun j => negb (String.eqb (Jobs.id j) jobId)) l.

(** The offset of block [k] when the blocks are laid out each followed by
    a separator of length [sep]. *)
Definition block_offset (sep : nat) (ps : list jsstring) (k : nat) : nat :=
  list_sum (map (fun p => length p + sep) (take k ps)).

(** The cache of a renderer is consistent: the entry of page [p] is the
    data of page [p], its canvas is one of those created so far, and no
    two pages share a canvas. *)
Definition cache_ok (r : PDF.PDFRenderer) : Prop :=
  (forall p d, PDF.pages r !! p = Some d ->
     PDF.pageNumber d = p /\ PDF.canvas d < PDF.canvases r)
  /\ (forall p q d d', PDF.pages r !! p = Some d -> PDF.pages r !! q = Some d' ->
        PDF.canvas d = PDF.canvas d' -> p = q).

(** The playing position lies within the current track, which is one of
    the tracks of the list; without a current track it is 0. *)
Definition position_ok (m : Playlist.MusicState) : Prop :=
  (0 <= Playlist.currentTime m)%Q
  /\ (forall t, Playlist.currentTrack m = Some t ->
        In t (Playlist.tracks m)
        /\ (Playlist.currentTime m <= Music.duration t)%Q)
  /\ (Playlist.currentTrack m = None -> (Playlist.currentTime m == 0)%Q).

(** No track of the list has a negative duration. *)
Definition durations_ok (l : list Music.Track) : Prop :=
  Forall (fun t => (0 <= Music.duration t)%Q) l.

(** The track an event adds to the list, if any. *)
Definition added (e : Playlist.Event) : list Music.Track :=
  match e with Playlist.AddTrack t => [t] | _ => [] end.

(** What is relied on of [regex.exec] on the text [s]: a match found with
    [lastIndex = k] starts at or after [k] and lies within [s], and it is
    also the match found from every position between [k] and its start. *)
Definition engine_ok (s : jsstring) (exec : nat -> option (nat * jsstring))
  : Prop :=
  forall k i m, exec k = Some (i, m) ->
    k <= i /\ i + length m <= length s
    /\ forall j, k <= j <= i -> exec j = Some (i, m).

(** The selected search result exists whenever there are results. *)
Definition index_ok (f : Navigation.Finder) : Prop :=
  Navigation.searchResults f = []
  \/ Navigation.currentSearchIndex f < length (Navigation.searchResults f).

End Notions.

(** ** Sample playlists *)

Module Samples.
Import Music.

Definition three_songs : list Track :=
  [ {| tid := "a"; tname := "one"; duration := 100; turl := "blob:a" |};
    {| tid := "b"; tname := "two"; duration := 50; turl := "blob:b" |};
    {| tid := "c"; tname := "three"; duration := 75; turl := "blob:c" |} ].

(** The matches of the pattern [page] in the document of two pages, and
    the search box with that query typed. *)
Definition page_matches (k : nat) : option (nat * JS.jsstring) :=
  if k <=? 6 then Some (6, JS.units "page")
  else if k <=? 2007 then Some (2007, JS.units "page")
  else None.

Definition finding_page : Navigation.Finder :=
  {| Navigation.view := Viewer.open Scenarios.two_pages;
     Navigation.searchQuery := JS.units "page";
     Navigation.searchResults := [];
     Navigation.currentSearchIndex := 0 |}.

Definition listening (shuffled : bool) : Playlist.MusicState :=
  {| Playlist.tracks := three_songs;
     Playlist.currentTrack := head three_songs;
     Playlist.isPlaying := true;
     Playlist.currentTime := 60;
     Playlist.volume := 7 # 10;
     Playlist.isShuffled := shuffled;
     Playlist.repeatMode := Playlist.RepeatNone |}.

End Samples.

(** ** Properties of the hook *)

Module SpeechFacts.
Import JS Speech Claims Scenarios.

Lemma Qle_bool_false (p q : Q) : Qle_bool p q = false -> (q < p)%Q.
Proof.
  intros H. apply Qnot_le_lt. intros Hle.
  apply Qle_bool_iff in Hle. congruence.
Qed.

(** [Math.max(lo, Math.min(hi, x))] is the clamp of [x]. *)
Lemma max_min_clamp (lo hi : Q) (x : number) :
  (lo <= hi)%Q ->
  num_eq (math_max (Fin lo) (math_min (Fin hi) x)) (clamp lo hi x).
Proof.
  intros Hlh. destruct x as [| |q|]; simpl; try reflexivity.
  - destruct (Qle_bool hi q) eqn:E1; simpl.
    + apply Qle_bool_iff in Hlh. rewrite Hlh. simpl. reflexivity.
    + destruct (Qle_bool lo q) eqn:E2, (Qle_bool q lo) eqn:E3; simpl;
        try reflexivity.
      * apply Qle_bool_iff in E2, E3. now apply Qle_antisym.
      * apply Qle_bool_false in E2, E3.
        exfalso. apply (Qlt_irrefl q). now apply Qlt_trans with lo.
  - apply Qle_bool_iff in Hlh. rewrite Hlh. simpl. reflexivity.
Qed.

(** For every input that is neither zero nor NaN the utterance stores the
    clamps of the options. *)
Lemma speak_clamps_truthy (n : nat) (text : jsstring) (o : SpeechOptions) :
  let u := make_utterance n text o in
  (truthy (rate o) = true -> num_eq (urate u) (clamp (1 # 10) 10 (rate o)))
  /\ (truthy (pitch o) = true -> num_eq (upitch u) (clamp 0 2 (pitch o)))
  /\ (truthy (volume o) = true -> num_eq (uvolume u) (clamp 0 1 (volume o))).
Proof.
  simpl. unfold or_else.
  split; [|split]; intros ->; apply max_min_clamp; discriminate.
Qed.

(** The three examples of the specification. *)
Lemma speak_clamp_examples :
  let u := make_utterance 0 (units "Hello")
             {| rate := num 15; pitch := num (-1); volume := Fin (3 # 2);
                voice := None |} in
  urate u = num 10 /\ upitch u = num 0 /\ uvolume u = num 1.
Proof. repeat split. Qed.

(** C4, at the input [{rate: 1, pitch: 1, volume: 0}] (the volume slider
    at its minimum): the utterance handed to the platform has volume 1,
    whereas the clamp of 0 into [[0, 1]] is 0. *)
Theorem speak_volume_zero_stored_as_one :
  let o := {| rate := num 1; pitch := num 1; volume := num 0; voice := None |} in
  exists u,
    spoken (units "Hello") o ready = Some u
    /\ uvolume u = num 1
    /\ clamp 0 1 (volume o) = num 0
    /\ ~ num_eq (uvolume u) (clamp 0 1 (volume o)).
Proof.
  eexists. split; [reflexivity|]. repeat split.
  simpl. unfold Qeq. simpl. lia.
Qed.

(** Pitch 0 and rate 0 go the same way: [0 || 1] is 1. *)
Lemma speak_zero_inputs_default_to_one (n : nat) (text : jsstring) :
  let u := make_utterance n text
             {| rate := num 0; pitch := num 0; volume := num 0; voice := None |} in
  urate u = num 1 /\ upitch u = num 1 /\ uvolume u = num 1.
Proof. repeat split. Qed.

(** *** Pause and resume *)

Lemma pause_keeps_cursor (h : Hook) :
  currentWordIndex (pause h) = currentWordIndex h
  /\ currentText (pause h) = currentText h.
Proof.
  unfold pause.
  destruct (isSupported h), (isPlaying h), (isPaused h); split; reflexivity.
Qed.

Lemma resume_keeps_cursor (h : Hook) :
  currentWordIndex (resume h) = currentWordIndex h
  /\ currentText (resume h) = currentText h.
Proof.
  unfold resume.
  destruct (isSupported h), (isPaused h); split; reflexivity.
Qed.

Lemma playing_inv (h : Hook) :
  playback h = Playing -> isPlaying h = true /\ isPaused h = false.
Proof.
  unfold playback. destruct (isPlaying h), (isPaused h); intros H;
    try discriminate; split; reflexivity.
Qed.

Lemma pause_resume_playing (h : Hook) :
  playback h = Playing ->
  playback (resume (pause h)) = Playing
  /\ (isSupported h = true -> playback (pause h) = Paused).
Proof.
  intros Hp. destruct (playing_inv h Hp) as [Hpl Hpa]. split.
  - unfold resume, pause, playback.
    destruct (isSupported h) eqn:Hs; simpl; rewrite ?Hpl, ?Hpa; simpl;
      rewrite ?Hs; simpl; rewrite ?Hpl, ?Hpa; reflexivity.
  - intros Hs. unfold pause, playback. rewrite Hs, Hpl, Hpa. simpl.
    rewrite Hpl. reflexivity.
Qed.

Lemma pause_keeps_playing (h : Hook) : isPlaying (pause h) = isPlaying h.
Proof.
  unfold pause. destruct (isSupported h); simpl; [|reflexivity].
  destruct (isPlaying h && negb (isPaused h)); reflexivity.
Qed.

Lemma resume_keeps_playing (h : Hook) : isPlaying (resume h) = isPlaying h.
Proof.
  unfold resume. destruct (isSupported h); simpl; [|reflexivity].
  destruct (isPaused h); reflexivity.
Qed.

(** *** Events of a superseded request *)

Lemma spoken_accepts (t : jsstring) (o : SpeechOptions) (h : Hook) (u : Utterance) :
  spoken t o h = Some u ->
  u = make_utterance (allocated h) t o
  /\ speak t o h =
     {| isSupported := isSupported h; isPlaying := false; isPaused := false;
        currentUtterance := Some u; currentWordIndex := 0; currentText := t;
        isInitialized := isInitialized h; utteranceRef := Some u;
        isPlayingRef := isPlayingRef h; allocated := S (allocated h);
        synthCalls := synthCalls h ++ [SynthCancel; SynthSpeak u] |}.
Proof.
  unfold spoken, speak.
  destruct (negb (isSupported h) || negb (nonempty t) || negb (isInitialized h));
    [discriminate|].
  intros [= <-]. split; reflexivity.
Qed.

Lemma spoken_some (t : jsstring) (o : SpeechOptions) (h : Hook) :
  spoken t o h <> None -> exists u, spoken t o h = Some u.
Proof. destruct (spoken t o h) as [u|]; [eauto | congruence]. Qed.

(** The claim C1 as stated fails: after [speak("Hello world")] and
    [speak("Goodbye")], a word boundary of the first utterance at offset 6
    moves the word index from 0 to 1. *)
Lemma stale_boundary_moves_cursor : ~ generation_isolated.
Proof.
  intros H.
  specialize (H ready (units "Hello world") default_options
                (units "Goodbye") default_options
                (make_utterance 0 (units "Hello world") default_options)
                (OnBoundary "word" 6) eq_refl).
  assert (Hne : spoken (units "Goodbye") default_options
                  (speak (units "Hello world") default_options ready) <> None)
    by discriminate.
  specialize (H Hne).
  apply (f_equal currentWordIndex) in H. vm_compute in H. discriminate.
Qed.

Lemma fire_keeps_text (u : Utterance) (ev : SpeechEvent) (h : Hook) :
  currentText (fire u ev h) = currentText h.
Proof.
  destruct ev; simpl; try reflexivity.
  - now destruct (String.eqb name "word").
  - now destruct (String.eqb error "interrupted").
Qed.

Lemma events_keep_text (u : Utterance) (l : list SpeechEvent) (h : Hook) :
  currentText (fold_left (fun s ev => fire u ev s) l h) = currentText h.
Proof.
  revert h. induction l as [|ev l IH]; intros h; simpl; [reflexivity|].
  now rewrite IH, fire_keeps_text.
Qed.

(** C1, amended: the handlers carry no generation or identity check.
    After a second [speak] has been accepted, and whatever events of the
    second request have arrived since, an event of the first request is
    handled like one of the current request.  An ['interrupted'] error and
    a boundary that is not a word boundary write nothing, and they are the
    only events that write nothing in every state.  A late word boundary
    sets the word index to the one found in the first request's text; a
    late [onstart] sets playing and clears paused; a late [onpause] or
    [onresume] sets or clears paused; a late [onend] or other error clears
    playing and paused, drops the second request's utterance and sets the
    word index to 0.  Nothing else is written, and the text stays that of
    the second request. *)
Theorem late_events_of_first_request
  (h : Hook) (t1 t2 : jsstring) (o1 o2 : SpeechOptions) (u1 u2 : Utterance)
  (since : list SpeechEvent) :
  spoken t1 o1 h = Some u1 ->
  spoken t2 o2 (speak t1 o1 h) = Some u2 ->
  let h3 := fold_left (fun s ev => fire u2 ev s) since
              (speak t2 o2 (speak t1 o1 h)) in
  currentText h3 = t2
  /\ fire u1 (OnError "interrupted") h3 = h3
  /\ (forall name o, name <> "word" -> fire u1 (OnBoundary name o) h3 = h3)
  /\ (forall ev,
        (forall s, fire u1 ev s = s)
        <-> ev = OnError "interrupted"
            \/ exists name o, name <> "word" /\ ev = OnBoundary name o)
  /\ (forall o,
        fire u1 (OnBoundary "word" o) h3
        = {| isSupported := isSupported h3; isPlaying := isPlaying h3;
             isPaused := isPaused h3;
             currentUtterance := currentUtterance h3;
             currentWordIndex := boundary_word t1 o;
             currentText := t2; isInitialized := isInitialized h3;
             utteranceRef := utteranceRef h3;
             isPlayingRef := isPlayingRef h3; allocated := allocated h3;
             synthCalls := synthCalls h3 |})
  /\ fire u1 OnStart h3
     = {| isSupported := isSupported h3; isPlaying := true; isPaused := false;
          currentUtterance := currentUtterance h3;
          currentWordIndex := currentWordIndex h3;
          currentText := t2; isInitialized := isInitialized h3;
          utteranceRef := utteranceRef h3; isPlayingRef := true;
          allocated := allocated h3; synthCalls := synthCalls h3 |}
  /\ (forall ev b,
        ev = OnPause /\ b = true \/ ev = OnResume /\ b = false ->
        fire u1 ev h3
        = {| isSupported := isSupported h3; isPlaying := isPlaying h3;
             isPaused := b;
             currentUtterance := currentUtterance h3;
             currentWordIndex := currentWordIndex h3;
             currentText := t2; isInitialized := isInitialized h3;
             utteranceRef := utteranceRef h3;
             isPlayingRef := isPlayingRef h3; allocated := allocated h3;
             synthCalls := synthCalls h3 |})
  /\ (forall ev,
        ev = OnEnd \/ (exists err, err <> "interrupted" /\ ev = OnError err) ->
        fire u1 ev h3
        = {| isSupported := isSupported h3; isPlaying := false;
             isPaused := false; currentUtterance := None;
             currentWordIndex := 0;
             currentText := t2; isInitialized := isInitialized h3;
             utteranceRef := None; isPlayingRef := false;
             allocated := allocated h3; synthCalls := synthCalls h3 |}).
Proof.
  intros H1 H2 h3.
  destruct (spoken_accepts _ _ _ _ H1) as [Hu1 _].
  destruct (spoken_accepts _ _ _ _ H2) as [_ Hs2].
  assert (Ht1 : utext u1 = t1) by (subst u1; reflexivity).
  assert (Ht2 : currentText h3 = t2).
  { unfold h3. rewrite events_keep_text, Hs2. reflexivity. }
  split; [exact Ht2|]. split; [reflexivity|]. split.
  { intros name o Hn. simpl.
    destruct (String.eqb_spec name "word"); [contradiction | reflexivity]. }
  split.
  { intros ev. split.
    - intros Hq. destruct ev as [|name o| | | |err].
      + specialize (Hq initial). discriminate Hq.
      + destruct (String.eqb_spec name "word") as [->|Hn]; [|right; eauto].
        specialize (Hq (set_word_index (S (boundary_word (utext u1) o)) initial)).
        apply (f_equal currentWordIndex) in Hq. simpl in Hq. lia.
      + specialize (Hq (onstart initial)). discriminate Hq.
      + specialize (Hq initial). discriminate Hq.
      + specialize (Hq (set_paused true initial)). discriminate Hq.
      + destruct (String.eqb_spec err "interrupted") as [->|Hn]; [now left|].
        specialize (Hq (onstart initial)). simpl in Hq.
        destruct (String.eqb_spec err "interrupted"); [contradiction|].
        discriminate Hq.
    - intros [-> | (name & o & Hn & ->)] s; simpl; [reflexivity|].
      destruct (String.eqb_spec name "word"); [contradiction | reflexivity]. }
  split.
  { intros o. simpl. rewrite Ht1, <- Ht2. reflexivity. }
  split.
  { simpl. rewrite <- Ht2. reflexivity. }
  split.
  { intros ev b [[-> ->] | [-> ->]]; simpl; rewrite <- Ht2; reflexivity. }
  intros ev [-> | (err & Hne & ->)]; simpl;
    [| destruct (String.eqb_spec err "interrupted"); [contradiction|]];
    rewrite <- Ht2; reflexivity.
Qed.

Lemma late_events_of_first_request_witness :
  let h1 := speak (units "Hello world") default_options ready in
  let u1 := make_utterance 0 (units "Hello world") default_options in
  let u2 := make_utterance 1 (units "Goodbye for now") default_options in
  let h3 := fold_left (fun s ev => fire u2 ev s)
              [OnStart; OnBoundary "word" 8]
              (speak (units "Goodbye for now") default_options h1) in
  (playback h3 = Playing /\ currentWordIndex h3 = 1)
  /\ playback (fire u1 OnEnd h3) = Idle
  /\ currentWordIndex (fire u1 OnEnd h3) = 0
  /\ currentUtterance (fire u1 OnEnd h3) = None
  /\ currentWordIndex (fire u1 (OnBoundary "word" 20) h3) = 0.
Proof.
  intros h1 u1 u2 h3.
  pose proof (late_events_of_first_request ready (units "Hello world")
                (units "Goodbye for now") default_options default_options
                u1 u2 [OnStart; OnBoundary "word" 8] eq_refl eq_refl)
    as (_ & _ & _ & _ & Hb & _ & _ & He).
  fold h1 h3 in Hb, He.
  split; [split; reflexivity|].
  rewrite (He OnEnd (or_introl eq_refl)), (Hb 20).
  repeat split.
Defined.

End SpeechFacts.

(** ** Properties of the word tracker and of the viewer *)

Module ViewerFacts.
Import JS Speech Viewer Claims Scenarios SpeechFacts.

(** *** The boundary scan *)

(** The loop returns the first qualifying index, and the initial value of
    [wordIndex] when no word qualifies. *)
Lemma boundary_loop_first_qualifying (ws : list jsstring) (i cc w0 o : nat) :
  boundary_loop ws i cc w0 o = default w0 (first_qualifying ws i cc o).
Proof.
  revert i cc. induction ws as [|w ws IH]; intros i cc; simpl; [reflexivity|].
  destruct (o <=? cc + length w); [reflexivity | apply IH].
Qed.

Lemma boundary_word_qualifying (text : jsstring) (o i : nat) :
  first_qualifying (split_ws text) 0 0 o = Some i ->
  boundary_word text o = i /\ forall previous, tracked text o previous = i.
Proof.
  intros H. unfold boundary_word, tracked.
  rewrite boundary_loop_first_qualifying, H. split; reflexivity.
Qed.

Lemma boundary_word_none (text : jsstring) (o : nat) :
  first_qualifying (split_ws text) 0 0 o = None ->
  boundary_word text o = 0 /\ forall previous, tracked text o previous = previous.
Proof.
  intros H. unfold boundary_word, tracked.
  rewrite boundary_loop_first_qualifying, H. split; reflexivity.
Qed.

(** What a qualifying index is: it lies within the words, its cumulative
    end offset reaches [o], and no earlier word's does. *)
Lemma first_qualifying_spec (ws : list jsstring) (i cc o k : nat) :
  first_qualifying ws i cc o = Some k ->
  exists n,
    k = i + n /\ n < length ws
    /\ o <= cc + list_sum (map (fun w => length w + 1) (take n ws))
            + length (nth n ws [])
    /\ forall m, m < n ->
         cc + list_sum (map (fun w => length w + 1) (take m ws))
            + length (nth m ws []) < o.
Proof.
  revert i cc. induction ws as [|w ws IH]; intros i cc; simpl; [discriminate|].
  destruct (Nat.leb_spec o (cc + length w)) as [Hle|Hgt].
  - intros [= <-]. exists 0. simpl. repeat split; lia.
  - intros H. destruct (IH _ _ H) as (n & -> & Hn & Ho & Hm).
    exists (S n). simpl. repeat split; try lia.
    intros [|m] Hlt; simpl; [lia|].
    specialize (Hm m ltac:(lia)). lia.
Qed.

(** C2, at the text ["a b      c"] (six spaces before the last word): the
    boundary at offset 2 puts the cursor on word 1; the boundary at offset
    9, where the word "c" starts, finds no qualifying word, so the tracker
    of the specification keeps the cursor at 1, but the handler writes 0,
    and the viewer moves the highlight back to the first word. *)
Theorem boundary_past_last_word_resets_cursor :
  let text := units "a b      c" in
  let u := make_utterance 0 text default_options in
  let h1 := fire u (OnBoundary "word" 2)
              (fire u OnStart (speak text default_options ready)) in
  let v1 := run (open text)
              [Mount true true; SpeechPlay; Platform u OnStart;
               Platform u (OnBoundary "word" 2)] in
  spoken text default_options ready = Some u
  /\ text !! 9 = Some 99%N
  /\ currentWordIndex h1 = 1
  /\ first_qualifying (split_ws text) 0 0 9 = None
  /\ tracked text 9 (currentWordIndex h1) = 1
  /\ currentWordIndex (fire u (OnBoundary "word" 9) h1) = 0
  /\ readingHighlight v1 = Some (2, 3)
  /\ readingHighlight (step v1 (Platform u (OnBoundary "word" 9))) = Some (0, 1).
Proof. repeat split. Qed.

(** *** [split(' ')] and [join(' ')] *)

Lemma split_sp_cons (s : jsstring) : exists w ws, split_sp s = w :: ws.
Proof.
  destruct s as [|c r]; simpl; [eauto|].
  destruct (c =? 32)%N; [eauto|].
  destruct (split_sp r); eauto.
Qed.

Lemma join_sp_cons (w : jsstring) (l : list jsstring) :
  length (join_sp (w :: l))
  = length w + match l with [] => 0 | _ :: _ => 1 + length (join_sp l) end.
Proof.
  destruct l; simpl; [lia|]. rewrite length_app. simpl. lia.
Qed.

Lemma join_split_sp (s : jsstring) : join_sp (split_sp s) = s.
Proof.
  induction s as [|c r IH]; simpl; [reflexivity|].
  destruct (split_sp_cons r) as (w & ws & Hr). rewrite Hr in *.
  destruct (N.eqb_spec c 32) as [->|_].
  - change (join_sp ([] :: w :: ws)) with (32%N :: join_sp (w :: ws)).
    now rewrite IH.
  - destruct ws; simpl in *; now rewrite <- IH.
Qed.

(** The span computed for word [i] ends within the joined words. *)
Lemma span_within_join (ws : list jsstring) (i : nat) :
  i < length ws ->
  length (join_sp (take i ws)) + (if 0 <? i then 1 else 0)
  + length (nth i ws []) <= length (join_sp ws).
Proof.
  revert i. induction ws as [|w ws IH]; intros i Hi; simpl in Hi; [lia|].
  destruct i as [|j].
  - rewrite join_sp_cons. simpl. lia.
  - assert (Hj : j < length ws) by lia. specialize (IH j Hj).
    change (take (S j) (w :: ws)) with (w :: take j ws).
    change (nth (S j) (w :: ws) []) with (nth j ws []).
    rewrite !join_sp_cons.
    destruct ws as [|w' ws']; [simpl in Hj; lia|].
    destruct j as [|j']; simpl in *; lia.
Qed.

(** *** The reading highlight stays within the text being spoken *)

Lemma reading_effect_hook (v : Viewer) : hook (reading_effect v) = hook v.
Proof.
  unfold reading_effect.
  destruct (isPlaying (hook v) && nonempty (currentText (hook v)));
    [|reflexivity].
  destruct (currentWordIndex (hook v) <? length (split_sp (currentText (hook v))));
    reflexivity.
Qed.

(** A fresh highlight is bounded; a kept one is as it was. *)
Lemma reading_effect_bounded (v : Viewer) :
  bounded v \/ isPlaying (hook v) = false -> bounded (reading_effect v).
Proof.
  intros Hv s e. unfold bounded. rewrite reading_effect_hook.
  unfold reading_effect.
  destruct (isPlaying (hook v)) eqn:Hp; simpl; [|discriminate].
  destruct (nonempty (currentText (hook v))); [|discriminate].
  destruct (Nat.ltb_spec (currentWordIndex (hook v))
              (length (split_sp (currentText (hook v))))) as [Hlt|Hge].
  - simpl. intros [= <- <-].
    pose proof (span_within_join _ _ Hlt) as Hs.
    rewrite join_split_sp in Hs. lia.
  - destruct Hv as [Hv|Hv]; [apply Hv | discriminate].
Qed.

Lemma speak_cases (t : jsstring) (o : SpeechOptions) (h : Hook) :
  speak t o h = h \/ isPlaying (speak t o h) = false.
Proof.
  unfold speak.
  destruct (negb (isSupported h) || negb (nonempty t) || negb (isInitialized h));
    [left | right]; reflexivity.
Qed.

Lemma fire_text (u : Utterance) (ev : SpeechEvent) (h : Hook) :
  currentText (fire u ev h) = currentText h.
Proof.
  destruct ev; simpl; try reflexivity.
  - destruct (String.eqb name "word"); reflexivity.
  - destruct (String.eqb error "interrupted"); reflexivity.
Qed.

Lemma stop_text (h : Hook) : currentText (stop h) = currentText h.
Proof. unfold stop. destruct (isSupported h); reflexivity. Qed.

Lemma mount_text (a b : bool) (h : Hook) :
  currentText (mount a b h) = currentText h.
Proof. unfold mount. destruct a; reflexivity. Qed.

(** An action keeps the text and the highlight (or clears the highlight),
    unless it is an accepted [speak], which leaves [isPlaying] false. *)
Lemma apply_cases (a : Action) (v : Viewer) :
  (currentText (hook (apply a v)) = currentText (hook v)
   /\ (readingHighlight (apply a v) = readingHighlight v
       \/ readingHighlight (apply a v) = None))
  \/ isPlaying (hook (apply a v)) = false.
Proof.
  destruct a; simpl.
  - left. rewrite mount_text. auto.
  - unfold handleSpeechPlay. destruct (isPaused (hook v)); simpl.
    + left. rewrite (proj2 (resume_keeps_cursor _)). auto.
    + match goal with |- context [speak ?t ?o ?h] =>
        destruct (speak_cases t o h) as [-> | ->] end; auto.
  - left. rewrite stop_text. auto.
  - left. auto.
  - left. auto.
  - destruct (speak_cases text o (hook v)) as [-> | ->]; auto.
  - left. rewrite (proj2 (pause_keeps_cursor _)). auto.
  - left. rewrite (proj2 (resume_keeps_cursor _)). auto.
  - left. rewrite stop_text. auto.
  - left. rewrite fire_text. auto.
Qed.

Lemma apply_bounded (a : Action) (v : Viewer) :
  bounded v -> bounded (apply a v) \/ isPlaying (hook (apply a v)) = false.
Proof.
  intros Hv. destruct (apply_cases a v) as [[Ht Hh]|Hp]; [left | now right].
  intros s e He. rewrite Ht.
  destruct Hh as [Hh|Hh]; rewrite Hh in He; [now apply Hv | discriminate].
Qed.

Lemma step_bounded (v : Viewer) (a : Action) : bounded v -> bounded (step v a).
Proof. intros Hv. apply reading_effect_bounded, apply_bounded, Hv. Qed.

Lemma run_bounded (l : list Action) (v : Viewer) : bounded v -> bounded (run v l).
Proof.
  revert v. induction l as [|a l IH]; intros v Hv; simpl; [exact Hv|].
  apply IH, step_bounded, Hv.
Qed.

(** [currentText] is the text of the last accepted [speak]. *)
Lemma speak_sets_text (t : jsstring) (o : SpeechOptions) (h : Hook) :
  spoken t o h <> None -> currentText (speak t o h) = t.
Proof.
  unfold spoken, speak.
  destruct (negb (isSupported h) || negb (nonempty t) || negb (isInitialized h));
    [congruence | reflexivity].
Qed.

(** The text being read changes only when a [speak] is accepted, and then
    to the text submitted. *)
Lemma text_changes_only_by_speak (v : Viewer) (a : Action) :
  currentText (hook (step v a)) = currentText (hook v)
  \/ exists t o,
       spoken t o (hook v) <> None /\ currentText (hook (step v a)) = t.
Proof.
  unfold step. rewrite reading_effect_hook.
  assert (Hs : forall t o,
             currentText (speak t o (hook v)) = currentText (hook v)
             \/ exists t' o', spoken t' o' (hook v) <> None
                              /\ currentText (speak t o (hook v)) = t').
  { intros t o. destruct (spoken t o (hook v)) as [u|] eqn:E.
    - right. exists t, o. split; [congruence|].
      apply speak_sets_text. congruence.
    - left. revert E. unfold spoken, speak.
      destruct (negb (isSupported (hook v)) || negb (nonempty t)
                || negb (isInitialized (hook v))); [reflexivity | discriminate]. }
  destruct a; simpl.
  - left. apply mount_text.
  - unfold handleSpeechPlay. destruct (isPaused (hook v)); simpl.
    + left. apply resume_keeps_cursor.
    + apply Hs.
  - left. apply stop_text.
  - now left.
  - now left.
  - apply Hs.
  - left. apply pause_keeps_cursor.
  - left. apply resume_keeps_cursor.
  - left. apply stop_text.
  - left. apply fire_text.
Qed.

(** C8: whatever the user and the platform do after the viewer opens, in
    every state the viewer settles in the reading highlight ends within the
    text of the last accepted [speak] ([currentText]); and in the render
    between an action and the effect that follows it the same holds
    whenever speech is playing. *)
Theorem highlight_end_within_text (v0 : Viewer) (l : list Action) :
  readingHighlight v0 = None ->
  let v := run v0 l in
  (forall s e, readingHighlight v = Some (s, e) ->
     s <= e <= length (currentText (hook v)))
  /\ (forall a s e,
        isPlaying (hook (apply a v)) = true ->
        readingHighlight (apply a v) = Some (s, e) ->
        s <= e <= length (currentText (hook (apply a v)))).
Proof.
  intros H0 v.
  assert (Hv : bounded v).
  { apply run_bounded. intros s e He. rewrite H0 in He. discriminate. }
  split; [exact Hv|].
  intros a s e Hp He.
  destruct (apply_bounded a v Hv) as [Hb|Hf]; [now apply Hb | congruence].
Qed.

Lemma highlight_end_within_text_witness :
  let text := units "Hello brave world" in
  let u := make_utterance 0 text default_options in
  let v := run (open text)
             [Mount true true; SpeechPlay; Platform u OnStart;
              Platform u (OnBoundary "word" 6)] in
  readingHighlight v = Some (6, 11)
  /\ 6 <= 11 <= length (currentText (hook v)).
Proof.
  intros text u v.
  split; [reflexivity|].
  exact (proj1 (highlight_end_within_text (open text)
                  [Mount true true; SpeechPlay; Platform u OnStart;
                   Platform u (OnBoundary "word" 6)] eq_refl) 6 11 eq_refl).
Defined.

(** *** Pause and resume *)

(** The effect leaves the highlight of a settled viewer alone when the
    hook changes in nothing the effect reads. *)
Lemma reading_effect_same (v : Viewer) (h' : Hook) :
  isPlaying h' = isPlaying (hook v) ->
  currentText h' = currentText (hook v) ->
  currentWordIndex h' = currentWordIndex (hook v) ->
  reading_effect v = v ->
  readingHighlight (reading_effect (with_hook h' v)) = readingHighlight v
  /\ currentReadingText (reading_effect (with_hook h' v)) = currentReadingText v.
Proof.
  intros Hp Ht Hi Hv.
  pose proof (f_equal readingHighlight Hv) as Hh.
  pose proof (f_equal currentReadingText Hv) as Hr.
  revert Hh Hr. unfold reading_effect. simpl. rewrite Hp, Ht, Hi.
  destruct (isPlaying (hook v) && nonempty (currentText (hook v)));
    [destruct (currentWordIndex (hook v)
               <? length (split_sp (currentText (hook v))))|];
    simpl; intros Hh Hr; split; congruence.
Qed.

Lemma reading_effect_idem (v : Viewer) :
  reading_effect (reading_effect v) = reading_effect v.
Proof.
  unfold reading_effect at 2.
  destruct (isPlaying (hook v) && nonempty (currentText (hook v))) eqn:E1;
    [destruct (currentWordIndex (hook v)
               <? length (split_sp (currentText (hook v)))) eqn:E2|];
    unfold reading_effect; simpl; rewrite E1, ?E2; destruct v; reflexivity.
Qed.

(** C9: from [Playing], [pause()] then [resume()] leads back to [Playing]
    with the word index it had before, and [pause()] on a supported
    platform leads to [Paused]; neither call changes the word index in any
    state; and in the viewer the highlighted range and word after the two
    calls are the ones shown before them. *)
Theorem pause_resume_keeps_cursor :
  (forall h : Hook,
     playback h = Playing ->
     playback (resume (pause h)) = Playing
     /\ currentWordIndex (resume (pause h)) = currentWordIndex h
     /\ (isSupported h = true -> playback (pause h) = Paused))
  /\ (forall h : Hook,
        currentWordIndex (pause h) = currentWordIndex h
        /\ currentWordIndex (resume h) = currentWordIndex h)
  /\ (forall v : Viewer,
        playback (hook v) = Playing -> reading_effect v = v ->
        let v' := run v [Pause; Resume] in
        playback (hook v') = Playing
        /\ currentWordIndex (hook v') = currentWordIndex (hook v)
        /\ readingHighlight v' = readingHighlight v
        /\ currentReadingText v' = currentReadingText v).
Proof.
  split; [|split].
  - intros h Hp. destruct (pause_resume_playing h Hp) as [H1 H2].
    split; [exact H1 | split; [|exact H2]].
    rewrite (proj1 (resume_keeps_cursor _)). apply pause_keeps_cursor.
  - intros h. split; [apply pause_keeps_cursor | apply resume_keeps_cursor].
  - intros v Hp Hv v'.
    set (v1 := step v Pause).
    assert (Hh1 : hook v1 = pause (hook v)) by apply reading_effect_hook.
    destruct (reading_effect_same v (pause (hook v))
                (pause_keeps_playing _) (proj2 (pause_keeps_cursor _))
                (proj1 (pause_keeps_cursor _)) Hv) as [Ha Hb].
    assert (Hs1 : reading_effect v1 = v1) by apply reading_effect_idem.
    destruct (reading_effect_same v1 (resume (hook v1))
                (resume_keeps_playing _) (proj2 (resume_keeps_cursor _))
                (proj1 (resume_keeps_cursor _)) Hs1) as [Hc Hd].
    assert (Hh' : hook v' = resume (pause (hook v))).
    { unfold v', run. simpl. fold v1. unfold step.
      rewrite reading_effect_hook. simpl. now rewrite Hh1. }
    rewrite Hh'.
    split; [apply (pause_resume_playing _ Hp)|].
    split.
    { rewrite (proj1 (resume_keeps_cursor _)). apply pause_keeps_cursor. }
    split.
    + transitivity (readingHighlight v1); [exact Hc | exact Ha].
    + transitivity (currentReadingText v1); [exact Hd | exact Hb].
Qed.

Lemma pause_resume_keeps_cursor_witness :
  let text := units "Hello brave world" in
  let u := make_utterance 0 text default_options in
  let v := run (open text)
             [Mount true true; SpeechPlay; Platform u OnStart;
              Platform u (OnBoundary "word" 6)] in
  let v' := run v [Pause; Resume] in
  (playback (hook v) = Playing /\ readingHighlight v = Some (6, 11))
  /\ playback (hook v') = Playing
  /\ currentWordIndex (hook v') = 1
  /\ readingHighlight v' = Some (6, 11).
Proof.
  intros text u v v'.
  destruct pause_resume_keeps_cursor as (_ & _ & H).
  destruct (H v eq_refl eq_refl) as (H1 & H2 & H3 & _).
  split; [split; reflexivity|].
  split; [exact H1 | split; [exact H2 | exact H3]].
Defined.

(** *** The highlight query *)

Lemma reading_page_one_state :
  currentText (hook reading_page_one) = units "First page words"
  /\ page_slice reading_page_one = units "Second page here"
  /\ renderTextContent reading_page_one
     = Marked (units "Second") (units " pag") (units "e here").
Proof. vm_compute. repeat split. Qed.

(** The claim C3 as stated fails: while the first page is read aloud, the
    second page is shown with the span of the word being read marked in its
    own text. *)
Lemma highlight_on_other_page : ~ slice_checked.
Proof.
  intros H. specialize (H reading_page_one).
  destruct reading_page_one_state as (Ht & Hs & Hr).
  rewrite Hr, Hs, Ht in H.
  assert (Hne : units "Second page here" <> units "First page words")
    by (vm_compute; discriminate).
  specialize (H Hne). discriminate.
Qed.

(** C3, amended: the query never looks at what the slice contains.  It
    returns "no highlight" exactly when speech is not playing, the text
    being read is empty or no range is stored; otherwise it marks the
    stored offsets in whatever slice it is given. *)
Theorem highlight_query_ignores_slice
  (h : Hook) (hl : option (nat * nat)) (t : jsstring) :
  (highlight_query h hl t = Plain t
   <-> isPlaying h = false \/ currentText h = [] \/ hl = None)
  /\ (forall s e,
        isPlaying h = true -> currentText h <> [] -> hl = Some (s, e) ->
        highlight_query h hl t
        = Marked (slice t 0 s) (slice t s e) (slice_from t e)).
Proof.
  unfold highlight_query. split.
  - destruct (isPlaying h), (currentText h) as [|c r], hl as [[s e]|]; simpl;
      split; intros H; auto; try discriminate;
      destruct H as [H|[H|H]]; discriminate.
  - intros s e -> Ht ->. destruct (currentText h); [congruence | reflexivity].
Qed.

Lemma highlight_query_ignores_slice_witness :
  highlight_query (hook reading_page_one) (Some (6, 10))
    (units "Second page here")
  = Marked (units "Second") (units " pag") (units "e here").
Proof.
  exact (proj2 (highlight_query_ignores_slice (hook reading_page_one)
                  (Some (6, 10)) (units "Second page here"))
           6 10 eq_refl ltac:(vm_compute; discriminate) eq_refl).
Defined.

End ViewerFacts.

(** ** Properties of the converter *)

Module ConverterFacts.
Import Converter Claims.

Lemma ascending_bounds (lo hi : Q) (t : list Q) :
  ascending lo hi t -> (lo <= hi)%Q.
Proof.
  revert lo. induction t as [|p t IH]; simpl; intros lo; [easy|].
  intros [H1 H2]. apply Qle_trans with p; [exact H1 | now apply IH].
Qed.

Lemma ascending_weaken (lo lo' hi hi' : Q) (t : list Q) :
  (lo' <= lo)%Q -> (hi <= hi')%Q -> ascending lo hi t -> ascending lo' hi' t.
Proof.
  revert lo lo'. induction t as [|p t IH]; simpl; intros lo lo' Hl Hh.
  - intros H. lra.
  - intros [H1 H2]. split; [lra|]. apply (IH p p); [lra | exact Hh | exact H2].
Qed.

Lemma ascending_app (lo mid hi : Q) (t1 t2 : list Q) :
  ascending lo mid t1 -> ascending mid hi t2 -> ascending lo hi (t1 ++ t2).
Proof.
  revert lo. induction t1 as [|p t1 IH]; simpl; intros lo.
  - intros H1 H2. apply ascending_weaken with mid hi; [exact H1 | lra | exact H2].
  - intros [H1 H2] H3. split; [exact H1 | now apply IH].
Qed.

Lemma ascending_nondecreasing (lo hi : Q) (t : list Q) :
  ascending lo hi t -> nondecreasing t.
Proof.
  revert lo. induction t as [|p t IH]; intros lo; [easy|].
  destruct t as [|q t]; [easy|].
  intros [_ H]. split; [apply H | apply (IH p), H].
Qed.

(** *** Traces of the monad *)

Lemma asc_ret {A} (lo hi : Q) (a : A) : (lo <= hi)%Q -> asc lo hi (ret a).
Proof. easy. Qed.

Lemma asc_throw {A} (lo hi : Q) (t : Thrown) :
  (lo <= hi)%Q -> asc lo hi (@throw A t).
Proof. easy. Qed.

Lemma asc_onProgress (lo hi p : Q) :
  (lo <= p)%Q -> (p <= hi)%Q -> asc lo hi (onProgress p).
Proof. unfold asc. simpl. easy. Qed.

Lemma asc_may_fail (lo hi : Q) (r : EpubRun) (s : Stage) :
  (lo <= hi)%Q -> asc lo hi (may_fail r s).
Proof.
  intros H. unfold may_fail. destruct (fault r s); exact H.
Qed.

Lemma asc_bind {A B} (lo mid hi : Q) (m : Conv A) (f : A -> Conv B) :
  asc lo mid m -> (mid <= hi)%Q -> (forall a, asc mid hi (f a)) ->
  asc lo hi (bind m f).
Proof.
  unfold asc. destruct m as [t [e|a]]; simpl; intros Hm Hh Hf.
  - apply ascending_weaken with lo mid; [lra | exact Hh | exact Hm].
  - specialize (Hf a). destruct (f a) as [t' r]. simpl in *.
    now apply ascending_app with mid.
Qed.

Lemma asc_try_catch {A} (lo mid hi : Q) (m : Conv A) (h : Thrown -> Conv A) :
  asc lo mid m -> (mid <= hi)%Q -> (forall e, asc mid hi (h e)) ->
  asc lo hi (try_catch m h).
Proof.
  unfold asc. destruct m as [t [e|a]]; simpl; intros Hm Hh Hf.
  - specialize (Hf e). destruct (h e) as [t' r]. simpl in *.
    now apply ascending_app with mid.
  - apply ascending_weaken with lo mid; [lra | exact Hh | exact Hm].
Qed.

(** *** The share of the spine processed so far *)

Lemma ratio_nonneg_inv (n : nat) : (0 <= / inject_Z (Z.of_nat n))%Q.
Proof.
  apply Qinv_le_0_compat. change 0%Q with (inject_Z 0).
  rewrite <- Zle_Qle. lia.
Qed.

Lemma ratio_nonneg (a n : nat) : (0 <= ratio a n)%Q.
Proof.
  unfold ratio, Qdiv. apply Qmult_le_0_compat; [|apply ratio_nonneg_inv].
  change 0%Q with (inject_Z 0). rewrite <- Zle_Qle. lia.
Qed.

Lemma ratio_mono (a b n : nat) : a <= b -> (ratio a n <= ratio b n)%Q.
Proof.
  intros H. unfold ratio, Qdiv.
  apply Qmult_le_compat_r; [|apply ratio_nonneg_inv].
  rewrite <- Zle_Qle. lia.
Qed.

Lemma ratio_le_1 (a n : nat) : a <= n -> (ratio a n <= 1)%Q.
Proof.
  intros H. unfold ratio. destruct n as [|n].
  - assert (a = 0) as -> by lia. vm_compute. discriminate.
  - apply Qle_shift_div_r.
    + change 0%Q with (inject_Z 0). rewrite <- Zlt_Qlt. lia.
    + rewrite Qmult_1_l. rewrite <- Zle_Qle. lia.
Qed.

(** The values reported inside a loop over the spine items. *)
Lemma ascending_items (base c : Q) (n a k : nat) :
  (0 <= c)%Q -> a + k <= n ->
  ascending (base + ratio a n * c) (base + c)
    (map (fun i => base + ratio i n * c)%Q (seq a k)).
Proof.
  intros Hc. revert a. induction k as [|k IH]; intros a Hk; simpl.
  - pose proof (ratio_le_1 a n ltac:(lia)). nra.
  - split; [lra|].
    apply ascending_weaken with (base + ratio (S a) n * c)%Q (base + c)%Q.
    + pose proof (ratio_mono a (S a) n ltac:(lia)). nra.
    + lra.
    + apply IH. lia.
Qed.

Lemma advanced_loop (r : EpubRun) (a k : nat) :
  for_each (seq a k) (fun processedItems =>
    try_catch
      (onProgress (30 + ratio processedItems (items r) * 60) ;;
       may_fail r (LoadItem processedItems))
      (fun itemError => ret tt))
  = (map (fun i => 30 + ratio i (items r) * 60)%Q (seq a k), inr tt).
Proof.
  revert a. induction k as [|k IH]; intros a; simpl; [reflexivity|].
  rewrite IH. unfold may_fail.
  destruct (fault r (LoadItem a)); reflexivity.
Qed.

Lemma simple_loop (r : EpubRun) (a k : nat) :
  exists k' res, k' <= k /\
    for_each (seq a k) (fun i =>
      may_fail r (LoadItem i) ;; onProgress (40 + ratio i (items r) * 50))
    = (map (fun i => 40 + ratio i (items r) * 50)%Q (seq a k'), res).
Proof.
  revert a. induction k as [|k IH]; intros a; simpl.
  - exists 0, (inr tt). split; [lia | reflexivity].
  - destruct (IH (S a)) as (k' & res & Hk & ->).
    unfold may_fail.
    destruct (fault r (LoadItem a)) as [t|].
    + exists 0, (inl t). split; [lia | reflexivity].
    + exists (S k'), res. split; [lia | reflexivity].
Qed.

Ltac asc_const := unfold Qle; simpl; lia.

Ltac asc_seq :=
  repeat first
    [ apply asc_ret; asc_const
    | apply asc_throw; asc_const
    | apply asc_may_fail; asc_const
    | apply asc_onProgress; asc_const
    | match goal with
      | |- asc ?lo _ (bind (onProgress ?p) _) =>
          apply asc_bind with (mid := p);
          [apply asc_onProgress; asc_const | asc_const | intros _]
      | |- asc ?lo _ (bind (may_fail _ _) _) =>
          apply asc_bind with (mid := lo);
          [apply asc_may_fail; asc_const | asc_const | intros _]
      end ].

(** Each attempt reports non-decreasing values. *)
Lemma advanced_ascending (r : EpubRun) :
  asc 5 100 (convertEpubToPdfAdvanced r).
Proof.
  unfold convertEpubToPdfAdvanced.
  destruct (read_fails r); [apply asc_throw; asc_const|].
  asc_seq.
  apply asc_bind with (mid := 90%Q); [| asc_const | intros _; asc_seq].
  rewrite advanced_loop. unfold asc. simpl.
  pose proof (ascending_items 30 60 (items r) 0 (items r) ltac:(asc_const)
                ltac:(lia)) as H.
  eapply ascending_weaken; [| | exact H].
  - pose proof (ratio_nonneg 0 (items r)). lra.
  - asc_const.
Qed.

Lemma simple_ascending (r : EpubRun) :
  asc 10 100 (convertEpubToPdfSimple r).
Proof.
  unfold convertEpubToPdfSimple.
  destruct (read_fails r); [apply asc_throw; asc_const|].
  asc_seq.
  apply asc_bind with (mid := 90%Q); [| asc_const | intros _; asc_seq].
  destruct (simple_loop r 0 (items r)) as (k' & res & Hk & ->).
  unfold asc. simpl.
  pose proof (ascending_items 40 50 (items r) 0 k' ltac:(asc_const)
                ltac:(lia)) as H.
  eapply ascending_weaken; [| | exact H].
  - pose proof (ratio_nonneg 0 (items r)). lra.
  - asc_const.
Qed.

Lemma azw3_ascending : asc 5 100 convertAzw3ToPdf.
Proof. unfold asc. simpl. repeat split; asc_const. Qed.

End ConverterFacts.

(** ** Properties of the job runner and of removal *)

Module JobFacts.
Import Converter Jobs Claims Scenarios ConverterFacts.

(** *** Looking a job up after an update *)

Lemma find_job_update (jobId : string) (f : ConversionJob -> ConversionJob)
  (l : list ConversionJob) :
  (forall j, id (f j) = id j) ->
  find_job jobId (update jobId f l) = f <$> find_job jobId l.
Proof.
  intros Hf. unfold find_job, update.
  induction l as [|a l IH]; simpl; [reflexivity|].
  destruct (String.eqb (id a) jobId) eqn:E.
  - rewrite Hf, E. reflexivity.
  - rewrite E. exact IH.
Qed.

Lemma find_job_report (jobId : string) (c : FileConverter) (p : Q)
  (j : ConversionJob) :
  find_job jobId (jobs c) = Some j ->
  find_job jobId (jobs (report jobId c p)) = Some (with_progress p j).
Proof.
  intros H. simpl. rewrite find_job_update by reflexivity. now rewrite H.
Qed.

(** The runner forwards each reported value into the job as it is. *)
Lemma history_verbatim (jobId : string) (trace : list Q) (c : FileConverter)
  (j : ConversionJob) :
  find_job jobId (jobs c) = Some j ->
  omap (stored_progress jobId) (reports jobId trace c) = progress j :: trace.
Proof.
  revert c j. induction trace as [|p trace IH]; intros c j H; simpl.
  - unfold stored_progress. rewrite H. reflexivity.
  - unfold stored_progress at 1. rewrite H. simpl. f_equal.
    apply (IH _ _ (find_job_report _ _ p _ H)).
Qed.

Lemma find_job_reports (jobId : string) (trace : list Q) (c : FileConverter)
  (j : ConversionJob) :
  find_job jobId (jobs c) = Some j ->
  exists p, find_job jobId (jobs (fold_left (report jobId) trace c))
            = Some (with_progress p j).
Proof.
  revert c j. induction trace as [|p trace IH]; intros c j H; simpl.
  - exists (progress j). rewrite H. now destruct j.
  - destruct (IH _ _ (find_job_report _ _ p _ H)) as (q & Hq).
    exists q. rewrite Hq. reflexivity.
Qed.

Lemma find_job_settle_failed (jobId : string) (r : Conv string)
  (c : FileConverter) (j : ConversionJob) (t : Thrown) :
  find_job jobId (jobs c) = Some j -> snd r = inl t ->
  find_job jobId (jobs (settle jobId r c)) = Some (to_error t j).
Proof.
  intros Hj Hr. unfold settle. rewrite Hr. simpl.
  destruct (find_job_reports jobId (fst r) c j Hj) as (p & Hp).
  rewrite find_job_update by reflexivity. rewrite Hp. reflexivity.
Qed.

Lemma find_job_app_fresh (jobId : string) (l : list ConversionJob)
  (job : ConversionJob) :
  ~ In jobId (map id l) -> id job = jobId ->
  find_job jobId (l ++ [job]) = Some job.
Proof.
  intros Hl Hj. unfold find_job. induction l as [|a l IH]; simpl.
  - rewrite Hj, String.eqb_refl. reflexivity.
  - destruct (String.eqb_spec (id a) jobId) as [E|E].
    + exfalso. apply Hl. simpl. now left.
    + apply IH. intros Hin. apply Hl. simpl. now right.
Qed.

(** *** What the converter throws *)

Lemma try_catch_rethrow {A} (m : Conv A) (g : Thrown -> Thrown) (t : Thrown) :
  snd (try_catch m (fun e => throw (g e))) = inl t -> exists e, t = g e.
Proof.
  destruct m as [tr [e|a]]; simpl; [|discriminate].
  intros [= <-]. eauto.
Qed.

(** A failed conversion always rejects with an [Error] whose message
    starts with "Conversion failed: ". *)
Lemma convertFileEnhanced_failure (fmt : string) (env : Env) (t : Thrown) :
  snd (convertFileEnhanced fmt env) = inl t ->
  exists inner, t = ErrorObj ("Conversion failed: " ++ inner).
Proof.
  unfold convertFileEnhanced.
  match goal with |- context [try_catch ?m ?h] => set (body := m) end.
  intros H.
  assert (H' : snd (try_catch body (fun error =>
                 throw (ErrorObj ("Conversion failed: "
                                  ++ message_or "Unknown error" error)))) = inl t).
  { revert H. unfold bind, onProgress.
    match goal with |- context [try_catch body ?h] =>
      destruct (try_catch body h) as [tr res] end.
    simpl. easy. }
  apply (try_catch_rethrow body
           (fun error => ErrorObj ("Conversion failed: "
                                   ++ message_or "Unknown error" error))) in H'.
  destruct H' as (e & ->). eauto.
Qed.

(** *** Progress while processing *)

Lemma nondecreasing_lookup (l : list Q) (i : nat) (p q : Q) :
  nondecreasing l -> l !! i = Some p -> l !! S i = Some q -> (p <= q)%Q.
Proof.
  revert i. induction l as [|a l IH]; intros i Hn Hp Hq; [discriminate|].
  destruct l as [|b l]; [discriminate|].
  destruct Hn as [Hab Hn].
  destruct i as [|i]; simpl in *.
  - now inversion Hp; inversion Hq; subst.
  - eapply IH; eauto.
Qed.

(** The claim C5 as stated fails: when the advanced attempt fails after
    reporting 20, the job's progress goes 0, 2, 5, 10, 20 and then back to
    10 for the fallback. *)
Lemma progress_drops_at_fallback : ~ progress_monotone.
Proof.
  intros H.
  specialize (H "job-1" "epub" corrupt_then_simple one_processing _
                eq_refl eq_refl).
  pose proof (nondecreasing_lookup _ 4 20 10 H eq_refl eq_refl) as Hle.
  revert Hle. unfold Qle. simpl. lia.
Qed.

Lemma trace_epub (env : Env) :
  fst (convertFileEnhanced "epub" env)
  = 2%Q :: 5%Q :: fst (convertEpubToPdfAdvanced (advanced env))
    ++ match snd (convertEpubToPdfAdvanced (advanced env)) with
       | inl _ => 10%Q :: fst (convertEpubToPdfSimple (simple env))
       | inr _ => []
       end.
Proof.
  unfold convertFileEnhanced. simpl.
  destruct (convertEpubToPdfAdvanced (advanced env)) as [ta [ea|ua]];
    [destruct (convertEpubToPdfSimple (simple env)) as [ts [es|us]]|];
    cbn; rewrite ?app_nil_r; reflexivity.
Qed.

Lemma trace_other (fmt : string) (env : Env) :
  fmt <> "epub" -> ascending 2 100 (fst (convertFileEnhanced fmt env)).
Proof.
  intros Hne. unfold convertFileEnhanced.
  destruct (String.eqb_spec fmt "epub") as [E|_]; [contradiction|].
  destruct (String.eqb (toLowerCase fmt) "epub" || String.eqb (toLowerCase fmt) "azw3");
    [| simpl; repeat split; asc_const].
  destruct (String.eqb fmt "azw3"); simpl; repeat split; asc_const.
Qed.

(** C5, amended: the runner stores each reported value as it is; progress
    is non-decreasing as long as the runner does not fall back from the
    advanced to the simple EPUB conversion; when it does, progress is reset
    to 10 once, at the start of the fallback, and is non-decreasing before
    and after that reset. *)
Theorem progress_monotone_per_attempt
  (jobId fmt : string) (env : Env) (c : FileConverter) (j : ConversionJob) :
  find_job jobId (jobs c) = Some j ->
  let trace := fst (convertFileEnhanced fmt env) in
  progress_history jobId fmt env c = progress j :: trace
  /\ (fell_back fmt env = false -> ascending 2 100 trace)
  /\ (fell_back fmt env = false -> (progress j <= 2)%Q ->
      nondecreasing (progress_history jobId fmt env c))
  /\ (fell_back fmt env = true ->
      exists t1 t2, trace = t1 ++ 10%Q :: t2
                    /\ ascending 2 100 t1 /\ ascending 10 100 (10%Q :: t2)).
Proof.
  intros Hj trace.
  assert (Hh : progress_history jobId fmt env c = progress j :: trace)
    by (apply history_verbatim, Hj).
  assert (Hasc : fell_back fmt env = false -> ascending 2 100 trace).
  { unfold fell_back, trace.
    destruct (String.eqb_spec fmt "epub") as [->|Hne]; simpl.
    - rewrite trace_epub. pose proof (advanced_ascending (advanced env)) as Ha.
      unfold asc in Ha.
      destruct (snd (convertEpubToPdfAdvanced (advanced env))); [discriminate|].
      intros _. rewrite app_nil_r. simpl. repeat split; try asc_const.
      exact Ha.
    - intros _. now apply trace_other. }
  repeat split; [exact Hh | exact Hasc | |].
  - intros Hf Hp. rewrite Hh.
    apply (ascending_nondecreasing (progress j) 100). simpl.
    split; [lra|]. apply ascending_weaken with 2%Q 100%Q; [exact Hp | lra | auto].
  - unfold fell_back, trace.
    destruct (String.eqb_spec fmt "epub") as [->|Hne]; simpl; [|discriminate].
    rewrite trace_epub.
    pose proof (advanced_ascending (advanced env)) as Ha.
    pose proof (simple_ascending (simple env)) as Hs. unfold asc in Ha, Hs.
    destruct (snd (convertEpubToPdfAdvanced (advanced env))); [|discriminate].
    intros _.
    exists (2%Q :: 5%Q :: fst (convertEpubToPdfAdvanced (advanced env))),
           (fst (convertEpubToPdfSimple (simple env))).
    repeat split; try asc_const; assumption.
Qed.

Lemma progress_monotone_per_attempt_witness :
  progress_history "job-1" "epub" corrupt_then_simple one_processing
  = 0%Q :: fst (convertFileEnhanced "epub" corrupt_then_simple)
  /\ exists t1 t2,
       fst (convertFileEnhanced "epub" corrupt_then_simple) = t1 ++ 10%Q :: t2
       /\ ascending 2 100 t1 /\ ascending 10 100 (10%Q :: t2).
Proof.
  destruct (progress_monotone_per_attempt "job-1" "epub" corrupt_then_simple
              one_processing _ eq_refl) as (H1 & _ & _ & H4).
  split; [exact H1 | exact (H4 eq_refl)].
Defined.

(** *** Failure of the converter *)

(** C6: when the conversion started for a dropped EPUB or AZW3 file
    fails, the job ends with status [Error], progress 0 and, as its error,
    the message of the converter's rejection as it is; that message starts
    with "Conversion failed: ". *)
Theorem conversion_failure_recorded
  (file : File) (newId : string) (env : Env) (c : FileConverter)
  (thrown : Thrown) :
  let ext := extension_of (fname file) in
  ext = "epub" \/ ext = "azw3" ->
  ~ In newId (map id (jobs c)) ->
  snd (convertFileEnhanced ext env) = inl thrown ->
  exists inner,
    thrown = ErrorObj ("Conversion failed: " ++ inner)
    /\ find_job newId (jobs (handleFileDrop file newId env c))
       = Some {| id := newId; inputFile := file; inputFormat := ext;
                 outputFormat := "pdf"; status := Error; progress := 0;
                 outputUrl := None;
                 error := Some ("Conversion failed: " ++ inner)%string |}.
Proof.
  intros ext Hext Hfresh Hthrown.
  destruct (convertFileEnhanced_failure _ _ _ Hthrown) as (inner & ->).
  exists inner. split; [reflexivity|].
  unfold handleFileDrop. fold ext.
  assert (Hok : String.eqb ext "epub" || String.eqb ext "azw3" = true)
    by (destruct Hext as [-> | ->]; reflexivity).
  rewrite Hok.
  match goal with |- context [settle newId ?r ?c2] =>
    rewrite (find_job_settle_failed newId r c2
               (to_processing
                  {| id := newId; inputFile := file; inputFormat := ext;
                     outputFormat := "pdf"; status := Pending; progress := 0;
                     outputUrl := None; error := None |})
               (ErrorObj ("Conversion failed: " ++ inner)))
  end; [reflexivity | | exact Hthrown].
  simpl. rewrite find_job_update by reflexivity.
  rewrite find_job_app_fresh; [reflexivity | exact Hfresh | reflexivity].
Qed.

Lemma conversion_failure_recorded_witness :
  let file := {| fname := "Novel.EPUB"; fsize := 4096 |} in
  exists inner,
    ErrorObj "Conversion failed: corrupt archive"
    = ErrorObj ("Conversion failed: " ++ inner)
    /\ find_job "job-7"
         (jobs (handleFileDrop file "job-7" corrupt_archive
                  {| jobs := []; revoked := [] |}))
       = Some {| id := "job-7"; inputFile := file; inputFormat := "epub";
                 outputFormat := "pdf"; status := Error; progress := 0;
                 outputUrl := None;
                 error := Some ("Conversion failed: " ++ inner)%string |}.
Proof.
  exact (conversion_failure_recorded
           {| fname := "Novel.EPUB"; fsize := 4096 |} "job-7" corrupt_archive
           {| jobs := []; revoked := [] |}
           (ErrorObj "Conversion failed: corrupt archive")
           (or_introl eq_refl) (fun H : False => H) eq_refl).
Defined.

(** The job of that scenario, as the list shows it in the end. *)
Lemma corrupt_archive_job :
  find_job "job-7"
    (jobs (handleFileDrop {| fname := "Novel.EPUB"; fsize := 4096 |} "job-7"
             corrupt_archive {| jobs := []; revoked := [] |}))
  = Some {| id := "job-7";
            inputFile := {| fname := "Novel.EPUB"; fsize := 4096 |};
            inputFormat := "epub"; outputFormat := "pdf"; status := Error;
            progress := 0; outputUrl := None;
            error := Some "Conversion failed: corrupt archive" |}.
Proof. reflexivity. Qed.

(** [retryJob] records a failure in the same way. *)
Lemma retry_failure_recorded (job j : ConversionJob) (env : Env)
  (c : FileConverter) (thrown : Thrown) :
  find_job (id job) (jobs c) = Some j ->
  snd (convertFileEnhanced (inputFormat job) env) = inl thrown ->
  exists j',
    find_job (id job) (jobs (retryJob job env c)) = Some j'
    /\ status j' = Error /\ progress j' = 0%Q
    /\ error j' = Some (message_or "Conversion failed" thrown).
Proof.
  intros Hj Hr. unfold retryJob.
  erewrite find_job_settle_failed; [| | exact Hr].
  - eexists. split; [reflexivity|]. repeat split.
  - simpl. rewrite find_job_update by reflexivity. rewrite Hj. reflexivity.
Qed.

End JobFacts.

(** ** Releasing object URLs on removal *)

Module RemovalFacts.
Import Jobs Music Scenarios.

Lemma find_unique {A} (key : A -> string) (l : list A) (x : A) :
  List.NoDup (map key l) -> In x l ->
  List.find (fun y => String.eqb (key y) (key x)) l = Some x.
Proof.
  induction l as [|a l IH]; intros Hnd Hin; [destruct Hin|].
  simpl in Hnd. apply List.NoDup_cons_iff in Hnd as [Hna Hnd].
  simpl. destruct Hin as [->|Hin].
  - now rewrite String.eqb_refl.
  - destruct (String.eqb_spec (key a) (key x)) as [E|_]; [|now apply IH].
    exfalso. apply Hna. rewrite E. now apply in_map.
Qed.

Lemma find_removed {A} (key : A -> string) (l : list A) (k : string) :
  List.find (fun y => String.eqb (key y) k)
    (List.filter (fun y => negb (String.eqb (key y) k)) l) = None.
Proof.
  induction l as [|a l IH]; simpl; [reflexivity|].
  destruct (String.eqb (key a) k) eqn:E; simpl; [exact IH|].
  now rewrite E.
Qed.

Lemma filter_again {A} (key : A -> string) (l : list A) (k : string) :
  List.filter (fun y => negb (String.eqb (key y) k))
    (List.filter (fun y => negb (String.eqb (key y) k)) l)
  = List.filter (fun y => negb (String.eqb (key y) k)) l.
Proof.
  induction l as [|a l IH]; simpl; [reflexivity|].
  destruct (String.eqb (key a) k) eqn:E; simpl; [exact IH|].
  rewrite E. simpl. now rewrite IH.
Qed.

Lemma head_removed {A} (key : A -> string) (l : list A) (k : string) :
  match head (List.filter (fun y => negb (String.eqb (key y) k)) l) with
  | Some x => String.eqb (key x) k
  | None => false
  end = false.
Proof.
  induction l as [|a l IH]; simpl; [reflexivity|].
  destruct (String.eqb (key a) k) eqn:E; simpl; [exact IH | exact E].
Qed.

(** A [removeJob] made by the render that follows a removal finds no job
    and changes nothing. *)
Lemma removeJob_twice (seen : list ConversionJob) (jobId : string)
  (c : FileConverter) :
  let c1 := removeJob seen jobId c in
  removeJob (jobs c1) jobId c1 = c1.
Proof.
  intros c1. unfold removeJob at 1. simpl. unfold find_job.
  rewrite (find_removed id), (filter_again id). simpl.
  rewrite app_nil_r. reflexivity.
Qed.

Lemma removeTrack_twice (seen : list Track) (trackId : string) (m : Player) :
  let m1 := removeTrack seen trackId m in
  removeTrack (tracks m1) trackId m1 = m1.
Proof.
  intros m1. unfold removeTrack at 1. simpl. unfold find_track.
  rewrite (find_removed tid), (filter_again tid), app_nil_r.
  assert (Hc : same_id trackId
                 (if same_id trackId (currentTrack m)
                  then head (List.filter
                               (fun t => negb (String.eqb (tid t) trackId))
                               (tracks m))
                  else currentTrack m) = false).
  { destruct (same_id trackId (currentTrack m)) eqn:E; [|exact E].
    apply (head_removed tid). }
  rewrite Hc. reflexivity.
Qed.

(** The claim C7 as stated fails: the handler that removed the finished
    job, invoked a second time in succession, revokes its URL again. *)
Lemma double_removal_revokes_twice : ~ Claims.released_once.
Proof.
  intros H.
  destruct (H {| jobs := [finished_job]; Jobs.revoked := [] |}
              finished_job "blob:pdf-1") as [_ H2].
  - apply List.NoDup_cons; [intros [] | apply List.NoDup_nil].
  - now left.
  - reflexivity.
  - discriminate.
  - apply (f_equal Jobs.revoked) in H2. vm_compute in H2. discriminate.
Qed.

(** C7, amended: every call of [removeJob] or [removeTrack] revokes the
    URL of the job or track it finds in the list of the render that made
    the handler, and filters the id out of the current list.  With distinct
    ids, the first removal of a job that holds an output URL, or of a
    track, revokes that URL once and removes the job or track.  The same
    handler invoked again leaves the list as it is and revokes the same URL
    a second time; a removal invoked from the next render finds nothing,
    revokes nothing and changes nothing. *)
Theorem removal_releases_per_call :
  (forall (c : FileConverter) (j : ConversionJob) (u : string),
     List.NoDup (map id (jobs c)) -> In j (jobs c) ->
     outputUrl j = Some u -> u <> "" ->
     let c1 := removeJob (jobs c) (id j) c in
     Jobs.revoked c1 = Jobs.revoked c ++ [u]
     /\ find_job (id j) (jobs c1) = None
     /\ removeJob (jobs c) (id j) c1
        = {| jobs := jobs c1; Jobs.revoked := Jobs.revoked c ++ [u; u] |}
     /\ removeJob (jobs c1) (id j) c1 = c1)
  /\ (forall (m : Player) (t : Track),
        List.NoDup (map tid (tracks m)) -> In t (tracks m) ->
        let m1 := removeTrack (tracks m) (tid t) m in
        Music.revoked m1 = Music.revoked m ++ [turl t]
        /\ find_track (tid t) (tracks m1) = None
        /\ removeTrack (tracks m) (tid t) m1
           = {| tracks := tracks m1; currentTrack := currentTrack m1;
                currentTime := currentTime m1; playing := playing m1;
                Music.revoked := Music.revoked m ++ [turl t; turl t] |}
        /\ removeTrack (tracks m1) (tid t) m1 = m1).
Proof.
  split.
  - intros c j u Hnd Hin Hu Hne c1.
    assert (Hr : release (find_job (id j) (jobs c)) = [u]).
    { unfold find_job. rewrite (find_unique id _ _ Hnd Hin). simpl.
      rewrite Hu. destruct (String.eqb_spec u ""); [contradiction | reflexivity]. }
    split; [|split; [|split]].
    + unfold c1, removeJob. simpl. now rewrite Hr.
    + apply (find_removed id).
    + unfold c1, removeJob. simpl.
      rewrite Hr, (filter_again id), <- app_assoc. reflexivity.
    + apply removeJob_twice.
  - intros m t Hnd Hin m1.
    assert (Hf : find_track (tid t) (tracks m) = Some t)
      by (unfold find_track; now rewrite (find_unique tid _ _ Hnd Hin)).
    split; [|split; [|split]].
    + unfold m1, removeTrack. simpl. now rewrite Hf.
    + apply (find_removed tid).
    + unfold m1, removeTrack. simpl.
      rewrite Hf, (filter_again tid), <- app_assoc.
      assert (Hc : same_id (tid t)
                     (if same_id (tid t) (currentTrack m)
                      then head (List.filter
                                   (fun t0 => negb (String.eqb (tid t0) (tid t)))
                                   (tracks m))
                      else currentTrack m) = false).
      { destruct (same_id (tid t) (currentTrack m)) eqn:E; [|exact E].
        apply (head_removed tid). }
      rewrite Hc. reflexivity.
    + apply removeTrack_twice.
Qed.

Lemma removal_releases_per_call_witness :
  let c := {| jobs := [finished_job]; Jobs.revoked := [] |} in
  let m := {| tracks := [one_song]; currentTrack := Some one_song;
              currentTime := 0; playing := false; Music.revoked := [] |} in
  let c1 := removeJob (jobs c) "job-1" c in
  let m1 := removeTrack (tracks m) "track-1" m in
  (Jobs.revoked c1 = ["blob:pdf-1"]
   /\ Jobs.revoked (removeJob (jobs c) "job-1" c1) = ["blob:pdf-1"; "blob:pdf-1"]
   /\ removeJob (jobs c1) "job-1" c1 = c1)
  /\ (Music.revoked m1 = ["blob:audio-1"]
      /\ Music.revoked (removeTrack (tracks m) "track-1" m1)
         = ["blob:audio-1"; "blob:audio-1"]
      /\ removeTrack (tracks m1) "track-1" m1 = m1).
Proof.
  intros c m c1 m1.
  assert (Hj : List.NoDup (map id (jobs c)))
    by (apply List.NoDup_cons; [intros [] | apply List.NoDup_nil]).
  assert (Ht : List.NoDup (map tid (tracks m)))
    by (apply List.NoDup_cons; [intros [] | apply List.NoDup_nil]).
  destruct removal_releases_per_call as [HJ HT].
  destruct (HJ c finished_job "blob:pdf-1" Hj (or_introl eq_refl) eq_refl
              ltac:(discriminate)) as (H1 & _ & H2 & H3).
  destruct (HT m one_song Ht (or_introl eq_refl)) as (H4 & _ & H5 & H6).
  split; (split; [assumption | split; [|assumption]]).
  - exact (f_equal Jobs.revoked H2).
  - exact (f_equal Music.revoked H5).
Defined.

End RemovalFacts.

(** ** Properties of the page cache *)

Module PDFFacts.
Import PDF Claims Scenarios.

(** A render never touches the entry of a page that is already cached, nor
    the loaded document. *)
Lemma renderPage_keeps (p q : nat) (s : Q) (r : PDFRenderer) (d : PDFPageData) :
  pages r !! p = Some d ->
  pages (renderPage q s r).2 !! p = Some d /\ pdf (renderPage q s r).2 = pdf r.
Proof.
  intros Hp. destruct (renderPage q s r) as [res r'] eqn:E.
  unfold renderPage in E.
  destruct (pdf r) as [doc|] eqn:Hd;
    [destruct (pages r !! q) as [cached|] eqn:Hq;
       [|destruct ((1 <=? q) && (q <=? numPages doc))]|];
    injection E as <- <-; cbn [snd pages pdf]; rewrite ?Hd; auto.
  split; [|reflexivity].
  rewrite lookup_insert_ne; [exact Hp | congruence].
Qed.

Lemma render_all_keeps (calls : list (nat * Q)) (p : nat) (r : PDFRenderer)
  (d : PDFPageData) :
  pages r !! p = Some d ->
  pages (render_all calls r) !! p = Some d /\ pdf (render_all calls r) = pdf r.
Proof.
  revert r. induction calls as [|[q s] calls IH]; intros r Hp; [easy|].
  simpl. destruct (renderPage_keeps p q s r d Hp) as [H1 H2].
  destruct (IH _ H1) as [H3 H4]. split; [exact H3 | congruence].
Qed.

Lemma renderPage_same_pdf (p : nat) (s : Q) (r : PDFRenderer) :
  pdf (renderPage p s r).2 = pdf r.
Proof.
  destruct (renderPage p s r) as [res r'] eqn:E.
  unfold renderPage in E.
  destruct (pdf r) as [doc|] eqn:Hd;
    [destruct (pages r !! p) as [cached|];
       [|destruct ((1 <=? p) && (p <=? numPages doc))]|];
    injection E as <- <-; cbn [snd pdf]; rewrite ?Hd; reflexivity.
Qed.

Lemma renderPage_cached (p : nat) (s : Q) (r : PDFRenderer) (d : PDFPageData) :
  pdf r <> None -> pages r !! p = Some d -> renderPage p s r = (inr d, r).
Proof.
  intros Hd Hp. unfold renderPage.
  destruct (pdf r); [|congruence]. now rewrite Hp.
Qed.

Lemma renderPage_caches (p : nat) (s : Q) (r r1 : PDFRenderer) (d : PDFPageData) :
  renderPage p s r = (inr d, r1) -> pdf r1 <> None /\ pages r1 !! p = Some d.
Proof.
  unfold renderPage.
  destruct (pdf r) as [doc|] eqn:Hd; [|discriminate].
  destruct (pages r !! p) as [cached|] eqn:Hp.
  - intros [= <- <-]. rewrite Hd. split; [discriminate | exact Hp].
  - destruct ((1 <=? p) && (p <=? numPages doc)); [|discriminate].
    intros [= <- <-]. simpl. rewrite ?Hd, lookup_insert_eq.
    split; [discriminate | reflexivity].
Qed.

(** C10: once [renderPage(p, s1)] has returned page data, a later
    [renderPage(p, s2)] returns that same data (canvas, width, height and
    text) and leaves the renderer as it is, whatever [s2] is and whatever
    other pages are rendered in between; the data is the page rendered at
    scale [s1] when [p] was not cached before; and after [clearCache()] the
    page is rendered anew, at scale [s2]. *)
Theorem renderPage_cache_ignores_scale
  (r r1 : PDFRenderer) (p : nat) (s1 s2 : Q) (d1 : PDFPageData) :
  renderPage p s1 r = (inr d1, r1) ->
  renderPage p s2 r1 = (inr d1, r1)
  /\ (forall calls, (renderPage p s2 (render_all calls r1)).1 = inr d1)
  /\ (forall doc, pdf r = Some doc -> pages r !! p = None ->
        d1 = {| pageNumber := p; canvas := canvases r;
                textContent := page_text doc p;
                width := page_width doc p * s1;
                height := page_height doc p * s1 |})
  /\ (forall doc, pdf r = Some doc -> 1 <= p <= numPages doc ->
        (renderPage p s2 (clearCache r1)).1
        = inr {| pageNumber := p; canvas := canvases r1;
                 textContent := page_text doc p;
                 width := page_width doc p * s2;
                 height := page_height doc p * s2 |}).
Proof.
  intros H. destruct (renderPage_caches _ _ _ _ _ H) as [Hd Hp].
  repeat split.
  - now apply renderPage_cached.
  - intros calls. destruct (render_all_keeps calls p r1 d1 Hp) as [H1 H2].
    rewrite (renderPage_cached p s2 _ d1); [reflexivity | congruence | exact H1].
  - intros doc Hdoc Hnone. revert H. unfold renderPage. rewrite Hdoc, Hnone.
    destruct ((1 <=? p) && (p <=? numPages doc)); [|discriminate].
    now intros [= <- _].
  - intros doc Hdoc [Hlo Hhi].
    assert (Hdoc1 : pdf r1 = Some doc).
    { pose proof (renderPage_same_pdf p s1 r) as Hs. rewrite H in Hs.
      simpl in Hs. congruence. }
    assert (Hr : (1 <=? p) && (p <=? numPages doc) = true)
      by (apply andb_true_iff; split; apply Nat.leb_le; lia).
    unfold renderPage, clearCache. cbn [pdf pages canvases].
    rewrite Hdoc1, lookup_empty, Hr. reflexivity.
Qed.

Lemma renderPage_cache_ignores_scale_witness :
  let r := loadPDF three_pages fresh in
  exists d1 r1,
    renderPage 2 (3 # 2) r = (inr d1, r1)
    /\ renderPage 2 3 r1 = (inr d1, r1)
    /\ width d1 = (600 * (3 # 2))%Q.
Proof.
  intros r.
  exists {| pageNumber := 2; canvas := 0; textContent := JS.units "page text";
            width := 600 * (3 # 2); height := 800 * (3 # 2) |},
         (renderPage 2 (3 # 2) r).2.
  split; [reflexivity|]. split; [|reflexivity].
  exact (proj1 (renderPage_cache_ignores_scale r (renderPage 2 (3 # 2) r).2
                  2 (3 # 2) 3 _ eq_refl)).
Defined.

End PDFFacts.

(** ** Further properties of the hook and of the word tracker *)

Module TrackerFacts.
Import JS Speech Viewer Claims Notions Scenarios SpeechFacts ViewerFacts.

(** *** What [speak] hands to the platform *)

Lemma or_else_one (x : number) :
  or_else x (num 1) <> NaN.
Proof. unfold or_else. destruct x as [| |q|]; simpl; try discriminate.
  destruct (Qeq_bool q 0); discriminate. Qed.

Lemma max_min_in_range (lo hi : Q) (y : number) :
  (lo <= hi)%Q -> y <> NaN ->
  exists q, math_max (Fin lo) (math_min (Fin hi) y) = Fin q
            /\ (lo <= q <= hi)%Q.
Proof.
  intros Hlh Hy. pose proof (proj2 (Qle_bool_iff lo hi) Hlh) as Hb.
  destruct y as [| |q|]; [congruence | | |]; simpl.
  - exists lo. split; [reflexivity | lra].
  - destruct (Qle_bool hi q) eqn:E1; simpl.
    + rewrite Hb. exists hi. split; [reflexivity | lra].
    + apply Qle_bool_false in E1.
      destruct (Qle_bool lo q) eqn:E2.
      * apply Qle_bool_iff in E2. exists q. split; [reflexivity | lra].
      * exists lo. split; [reflexivity | lra].
  - rewrite Hb. exists hi. split; [reflexivity | lra].
Qed.

(** Whatever the options are (zero, negative, huge, infinite or NaN), the
    utterance gets a finite rate in [[0.1, 10]], a finite pitch in [[0, 2]]
    and a finite volume in [[0, 1]]. *)
Theorem utterance_parameters_in_range
  (n : nat) (text : jsstring) (o : SpeechOptions) :
  let u := make_utterance n text o in
  exists r p v,
    urate u = Fin r /\ upitch u = Fin p /\ uvolume u = Fin v
    /\ (1 # 10 <= r <= 10)%Q /\ (0 <= p <= 2)%Q /\ (0 <= v <= 1)%Q.
Proof.
  simpl.
  destruct (max_min_in_range (1 # 10) 10 (or_else (rate o) (num 1))
              ltac:(lra) (or_else_one _)) as (r & Hr & Hrb).
  destruct (max_min_in_range 0 2 (or_else (pitch o) (num 1))
              ltac:(lra) (or_else_one _)) as (p & Hp & Hpb).
  destruct (max_min_in_range 0 1 (or_else (volume o) (num 1))
              ltac:(lra) (or_else_one _)) as (v & Hv & Hvb).
  exists r, p, v. repeat split; try assumption; lra.
Qed.

(** *** The log of platform calls *)

Lemma cancels_app_quiet (log : list SynthCall) (c : SynthCall) :
  (forall u, c <> SynthSpeak u) ->
  cancels_before_speaking log -> cancels_before_speaking (log ++ [c]).
Proof.
  intros Hc Hl i u Hi. apply lookup_app_Some in Hi as [Hi|[Hge Hi]].
  - destruct (Hl i u Hi) as (j & -> & Hj). exists j. split; [reflexivity|].
    apply lookup_app_l_Some, Hj.
  - destruct (i - length log) as [|k] eqn:E; simpl in Hi; [|discriminate].
    injection Hi as Hi. exfalso. apply (Hc u Hi).
Qed.

Lemma cancels_app_speak (log : list SynthCall) (u : Utterance) :
  cancels_before_speaking log ->
  cancels_before_speaking (log ++ [SynthCancel; SynthSpeak u]).
Proof.
  intros Hl i u' Hi. apply lookup_app_Some in Hi as [Hi|[Hge Hi]].
  - destruct (Hl i u' Hi) as (j & -> & Hj). exists j. split; [reflexivity|].
    apply lookup_app_l_Some, Hj.
  - destruct (i - length log) as [|[|k]] eqn:E; simpl in Hi; try discriminate.
    exists (length log). split; [lia|].
    rewrite lookup_app_r by lia. now rewrite Nat.sub_diag.
Qed.

Lemma speak_log (t : jsstring) (o : SpeechOptions) (h : Hook) :
  cancels_before_speaking (synthCalls h) ->
  cancels_before_speaking (synthCalls (speak t o h)).
Proof.
  intros H. unfold speak.
  destruct (negb (isSupported h) || negb (nonempty t) || negb (isInitialized h));
    [exact H | now apply cancels_app_speak].
Qed.

Lemma pause_log (h : Hook) :
  cancels_before_speaking (synthCalls h) ->
  cancels_before_speaking (synthCalls (pause h)).
Proof.
  intros H. unfold pause. destruct (isSupported h); simpl; [|exact H].
  destruct (isPlaying h && negb (isPaused h)); simpl; [|exact H].
  apply cancels_app_quiet; [discriminate | exact H].
Qed.

Lemma resume_log (h : Hook) :
  cancels_before_speaking (synthCalls h) ->
  cancels_before_speaking (synthCalls (resume h)).
Proof.
  intros H. unfold resume. destruct (isSupported h); simpl; [|exact H].
  destruct (isPaused h); simpl; [|exact H].
  apply cancels_app_quiet; [discriminate | exact H].
Qed.

Lemma stop_log (h : Hook) :
  cancels_before_speaking (synthCalls h) ->
  cancels_before_speaking (synthCalls (stop h)).
Proof.
  intros H. unfold stop. destruct (isSupported h); simpl; [|exact H].
  apply cancels_app_quiet; [discriminate | exact H].
Qed.

Lemma fire_log (u : Utterance) (ev : SpeechEvent) (h : Hook) :
  synthCalls (fire u ev h) = synthCalls h.
Proof.
  destruct ev; simpl; try reflexivity.
  - destruct (String.eqb name "word"); reflexivity.
  - destruct (String.eqb error "interrupted"); reflexivity.
Qed.

Lemma mount_log (a b : bool) (h : Hook) : synthCalls (mount a b h) = synthCalls h.
Proof. unfold mount. destruct a; reflexivity. Qed.

Lemma step_log (v : Viewer) (a : Action) :
  cancels_before_speaking (synthCalls (hook v)) ->
  cancels_before_speaking (synthCalls (hook (step v a))).
Proof.
  intros H. unfold step. rewrite reading_effect_hook.
  destruct a; simpl.
  - now rewrite mount_log.
  - unfold handleSpeechPlay. destruct (isPaused (hook v)); simpl.
    + now apply resume_log.
    + now apply speak_log.
  - now apply stop_log.
  - exact H.
  - exact H.
  - now apply speak_log.
  - now apply pause_log.
  - now apply resume_log.
  - now apply stop_log.
  - now rewrite fire_log.
Qed.

(** Whatever the user and the platform do, the hook never asks the
    platform to speak without having cancelled what it was speaking in the
    call just before. *)
Theorem speak_follows_cancel (doc : jsstring) (l : list Action) :
  cancels_before_speaking (synthCalls (hook (run (open doc) l))).
Proof.
  assert (H : forall v, cancels_before_speaking (synthCalls (hook v)) ->
                        cancels_before_speaking (synthCalls (hook (run v l)))).
  { induction l as [|a l IH]; intros v Hv; simpl; [exact Hv|].
    apply IH, step_log, Hv. }
  apply H. intros i u Hi. discriminate.
Qed.

(** On a platform with speech, [stop()] and the viewer's stop button lead
    to [Idle] with word index 0, no utterance, no highlighted range and no
    word shown as being read, whatever the state was. *)
Theorem stop_clears_reading (v : Viewer) (a : Action) :
  isSupported (hook v) = true ->
  a = Stop \/ a = SpeechStop ->
  let v' := step v a in
  playback (hook v') = Idle
  /\ currentWordIndex (hook v') = 0
  /\ currentUtterance (hook v') = None
  /\ readingHighlight v' = None
  /\ currentReadingText v' = [].
Proof.
  intros Hs Ha v'.
  assert (Hh : hook v' = stop (hook v)).
  { unfold v', step. rewrite reading_effect_hook.
    destruct Ha as [-> | ->]; reflexivity. }
  assert (Hstop : stop (hook v) = reset (call SynthCancel (hook v)))
    by (unfold stop; now rewrite Hs).
  rewrite Hh, Hstop. repeat split.
  - unfold v', step, reading_effect.
    destruct Ha as [-> | ->]; simpl; rewrite Hstop; reflexivity.
  - unfold v', step, reading_effect.
    destruct Ha as [-> | ->]; simpl; rewrite Hstop; reflexivity.
Qed.

Lemma stop_clears_reading_witness :
  let text := units "Hello brave world" in
  let u := make_utterance 0 text default_options in
  let v := run (open text)
             [Mount true true; SpeechPlay; Platform u OnStart;
              Platform u (OnBoundary "word" 6)] in
  readingHighlight v = Some (6, 11)
  /\ playback (hook (step v SpeechStop)) = Idle
  /\ readingHighlight (step v SpeechStop) = None.
Proof.
  intros text u v.
  destruct (stop_clears_reading v SpeechStop eq_refl (or_intror eq_refl))
    as (H1 & _ & _ & H2 & _).
  split; [reflexivity | split; [exact H1 | exact H2]].
Defined.

(** *** The scan of the boundary handler *)

Lemma split_ws_from_cons (b : bool) (s : jsstring) :
  exists w ws, split_ws_from b s = w :: ws.
Proof.
  revert b. induction s as [|c r IH]; intros b; simpl; [eauto|].
  destruct (is_space c).
  - destruct b; [apply IH | eauto].
  - destruct (split_ws_from false r); eauto.
Qed.

Lemma first_qualifying_lower (ws : list jsstring) (i cc o k : nat) :
  first_qualifying ws i cc o = Some k -> i <= k < i + length ws.
Proof.
  intros H. destruct (first_qualifying_spec _ _ _ _ _ H) as (n & -> & Hn & _).
  lia.
Qed.

(** The index written by the handler always designates one of the words of
    the spoken text. *)
Theorem boundary_word_in_range (text : jsstring) (o : nat) :
  boundary_word text o < length (split_ws text).
Proof.
  unfold boundary_word. rewrite boundary_loop_first_qualifying.
  destruct (first_qualifying (split_ws text) 0 0 o) as [k|] eqn:E; simpl.
  - apply first_qualifying_lower in E. lia.
  - unfold split_ws. destruct (split_ws_from_cons false text) as (w & ws & ->).
    simpl. lia.
Qed.

Lemma first_qualifying_mono (ws : list jsstring) (i cc o1 o2 k2 : nat) :
  o1 <= o2 -> first_qualifying ws i cc o2 = Some k2 ->
  exists k1, first_qualifying ws i cc o1 = Some k1 /\ k1 <= k2.
Proof.
  intros Ho. revert i cc. induction ws as [|w ws IH]; intros i cc; simpl;
    [discriminate|].
  destruct (Nat.leb_spec o1 (cc + length w)) as [H1|H1].
  - intros H2. exists i. split; [reflexivity|].
    assert (H : first_qualifying (w :: ws) i cc o2 = Some k2) by exact H2.
    apply first_qualifying_lower in H. lia.
  - destruct (Nat.leb_spec o2 (cc + length w)) as [H2|H2]; [lia|]. apply IH.
Qed.

(** The scan is monotone: as long as the later offset still finds a word,
    an earlier offset never yields a later word. *)
Theorem boundary_word_monotone (text : jsstring) (o1 o2 : nat) :
  o1 <= o2 ->
  first_qualifying (split_ws text) 0 0 o2 <> None ->
  boundary_word text o1 <= boundary_word text o2.
Proof.
  intros Ho Hq. unfold boundary_word. rewrite !boundary_loop_first_qualifying.
  destruct (first_qualifying (split_ws text) 0 0 o2) as [k2|] eqn:E2;
    [|congruence].
  destruct (first_qualifying_mono _ _ _ _ _ _ Ho E2) as (k1 & -> & Hk).
  exact Hk.
Qed.

Lemma boundary_word_monotone_witness :
  boundary_word (units "Hello brave world") 3
  <= boundary_word (units "Hello brave world") 12.
Proof.
  apply (boundary_word_monotone (units "Hello brave world") 3 12);
    [lia | discriminate].
Defined.

Lemma first_qualifying_none (ws : list jsstring) (i cc o : nat) :
  first_qualifying ws i cc o = None
  <-> ws = [] \/ cc + length (join_sp ws) < o.
Proof.
  revert i cc. induction ws as [|w ws IH]; intros i cc; [simpl; tauto|].
  rewrite join_sp_cons.
  change (first_qualifying (w :: ws) i cc o)
    with (if o <=? cc + length w then Some i
          else first_qualifying ws (S i) (cc + length w + 1) o).
  destruct (Nat.leb_spec o (cc + length w)) as [H|H].
  - split; [discriminate|]. intros [Hn|Hlt]; [discriminate|].
    destruct ws; lia.
  - rewrite IH. destruct ws as [|w' ws'].
    + split; intros _; [right; lia | now left].
    + split.
      * intros [Hn|Hlt]; [discriminate | right; lia].
      * intros [Hn|Hlt]; [discriminate | right; lia].
Qed.

Lemma join_split_ws_length (b : bool) (s : jsstring) :
  length (join_sp (split_ws_from b s)) <= length s.
Proof.
  revert b. induction s as [|c r IH]; intros b; simpl; [lia|].
  destruct (is_space c).
  - destruct b.
    + specialize (IH true). lia.
    + specialize (IH true).
      destruct (split_ws_from_cons true r) as (w & ws & E). rewrite E in *.
      change (join_sp ([] :: w :: ws)) with (32%N :: join_sp (w :: ws)).
      cbn [length]. lia.
  - specialize (IH false).
    destruct (split_ws_from_cons false r) as (w & ws & E). rewrite E in *.
    rewrite join_sp_cons in *. cbn [length]. lia.
Qed.

(** When the scan finds no word: exactly when the offset lies beyond the
    words laid out with one separator each, a length that never exceeds the
    length of the text.  So every offset past the end of the text sends the
    word index back to 0. *)
Theorem boundary_without_word (text : jsstring) (o : nat) :
  (first_qualifying (split_ws text) 0 0 o = None
   <-> length (join_sp (split_ws text)) < o)
  /\ length (join_sp (split_ws text)) <= length text
  /\ (length text < o -> boundary_word text o = 0).
Proof.
  assert (H1 : first_qualifying (split_ws text) 0 0 o = None
               <-> length (join_sp (split_ws text)) < o).
  { rewrite first_qualifying_none. unfold split_ws.
    destruct (split_ws_from_cons false text) as (w & ws & ->).
    split; [intros [Hn|Hlt]; [discriminate | exact Hlt] | now right]. }
  pose proof (join_split_ws_length false text) as H2. fold (split_ws text) in H2.
  split; [exact H1 | split; [exact H2|]].
  intros Ho. apply boundary_word_none, H1. lia.
Qed.

Lemma boundary_without_word_witness :
  boundary_word (units "Hello world") 50 = 0.
Proof.
  apply (proj2 (proj2 (boundary_without_word (units "Hello world") 50))).
  simpl. lia.
Defined.

(** *** Texts with single spaces: the highlight is the word *)

Lemma single_spaced_split (b : bool) (s : jsstring) :
  single_spaced_from b s = true -> split_ws_from b s = split_sp s.
Proof.
  revert b. induction s as [|c r IH]; intros b; simpl; [reflexivity|].
  destruct (is_space c) eqn:Hc.
  - intros H. apply andb_true_iff in H as [H Hr].
    apply andb_true_iff in H as [H32 Hb].
    rewrite H32. destruct b; [discriminate|]. now rewrite (IH true Hr).
  - intros Hr. rewrite (IH false Hr).
    destruct (N.eqb_spec c 32) as [->|_]; [discriminate | reflexivity].
Qed.

Lemma first_qualifying_at_start (ws : list jsstring) (i cc k : nat) :
  k < length ws ->
  first_qualifying ws i cc (cc + word_start ws k) = Some (i + k).
Proof.
  revert i cc k. induction ws as [|w ws IH]; intros i cc k Hk; simpl in Hk;
    [lia|].
  destruct k as [|k]; unfold word_start; simpl.
  - destruct (Nat.leb_spec (cc + 0) (cc + length w)); [f_equal; lia | lia].
  - fold (word_start ws k).
    destruct (Nat.leb_spec (cc + (length w + 1 + word_start ws k))
                (cc + length w)); [lia|].
    replace (cc + (length w + 1 + word_start ws k))
      with ((cc + length w + 1) + word_start ws k) by lia.
    rewrite IH by lia. f_equal. lia.
Qed.

Lemma word_start_join (ws : list jsstring) (k : nat) :
  k <= length ws ->
  word_start ws k
  = length (join_sp (take k ws)) + (if 0 <? k then 1 else 0).
Proof.
  revert k. induction ws as [|w ws IH]; intros k Hk; simpl in Hk.
  - destruct k; [reflexivity | lia].
  - destruct k as [|k]; [reflexivity|].
    unfold word_start. simpl take. simpl map. simpl list_sum.
    fold (word_start ws k). rewrite join_sp_cons.
    rewrite (IH k) by lia.
    destruct k as [|k]; simpl; [lia|].
    destruct ws; simpl in *; lia.
Qed.

Lemma word_start_S (w : jsstring) (ws : list jsstring) (k : nat) :
  word_start (w :: ws) (S k) = length w + 1 + word_start ws k.
Proof. reflexivity. Qed.

Lemma slice_word (ws : list jsstring) (k : nat) :
  k < length ws ->
  slice (join_sp ws) (word_start ws k)
    (word_start ws k + length (nth k ws [])) = nth k ws [].
Proof.
  unfold slice. revert k. induction ws as [|w ws IH]; intros k Hk;
    simpl in Hk; [lia|].
  destruct k as [|k].
  - unfold word_start. simpl. destruct ws as [|w' ws'].
    + now rewrite firstn_all.
    + now rewrite take_app_length.
  - destruct ws as [|w' ws']; [simpl in Hk; lia|].
    rewrite word_start_S.
    change (join_sp (w :: w' :: ws')) with (w ++ 32%N :: join_sp (w' :: ws')).
    change (nth (S k) (w :: w' :: ws') []) with (nth k (w' :: ws') []).
    assert (Hk' : k < length (w' :: ws')) by (simpl in *; lia).
    specialize (IH k Hk').
    set (J := join_sp (w' :: ws')) in *.
    set (a := word_start (w' :: ws') k) in *.
    set (n := length (nth k (w' :: ws') [])) in *.
    replace (length w + 1 + a + n) with (length w + (1 + (a + n))) by lia.
    rewrite (take_app_add w).
    replace (length w + 1 + a) with (length w + (1 + a)) by lia.
    rewrite (drop_app_add w).
    exact IH.
Qed.

Lemma nonempty_true (s : jsstring) : s <> [] -> nonempty s = true.
Proof. destruct s; [congruence | reflexivity]. Qed.

(** For a text whose only white space is single spaces, a word boundary at
    the offset where word [k] starts selects word [k], and the viewer then
    highlights exactly that word: the range it stores starts at that
    offset and the text in the range is the word. *)
Theorem single_spaced_highlight_is_word
  (v : Viewer) (u : Utterance) (k : nat) :
  let text := currentText (hook v) in
  let ws := split_sp text in
  let o := word_start ws k in
  let v' := step v (Platform u (OnBoundary "word" o)) in
  single_spaced text = true -> text <> [] -> utext u = text ->
  isPlaying (hook v) = true -> k < length ws ->
  currentWordIndex (hook v') = k
  /\ readingHighlight v' = Some (o, o + length (nth k ws []))
  /\ currentReadingText v' = nth k ws []
  /\ slice text o (o + length (nth k ws [])) = nth k ws [].
Proof.
  intros text ws o v' Hss Hne Hu Hp Hk.
  assert (Hsplit : split_ws text = ws) by (apply single_spaced_split, Hss).
  assert (Hidx : boundary_word text o = k).
  { unfold boundary_word. rewrite boundary_loop_first_qualifying, Hsplit.
    pose proof (first_qualifying_at_start ws 0 0 k Hk) as H.
    simpl in H. fold o in H. now rewrite H. }
  assert (Hh : hook v' = set_word_index k (hook v)).
  { unfold v', step. rewrite reading_effect_hook. simpl.
    now rewrite Hu, Hidx. }
  split; [now rewrite Hh|].
  assert (Hs : slice text o (o + length (nth k ws [])) = nth k ws []).
  { pose proof (slice_word ws k Hk) as H. unfold ws at 1 in H.
    now rewrite join_split_sp in H. }
  assert (He : reading_effect (with_hook (set_word_index k (hook v)) v)
               = with_reading (nth k ws []) (Some (o, o + length (nth k ws [])))
                   (with_hook (set_word_index k (hook v)) v)).
  { assert (Hnn : nonempty (currentText (hook v)) = true)
      by (apply nonempty_true, Hne).
    unfold reading_effect.
    cbn [hook with_hook isPlaying currentText currentWordIndex set_word_index].
    rewrite Hp, Hnn. cbn [andb]. fold text. fold ws.
    destruct (Nat.ltb_spec k (length ws)) as [_|Hge]; [|lia].
    unfold o. rewrite (word_start_join ws k) by lia. reflexivity. }
  assert (Hv' : v' = with_reading (nth k ws [])
                       (Some (o, o + length (nth k ws [])))
                       (with_hook (set_word_index k (hook v)) v)).
  { unfold v', step. simpl. rewrite Hu. fold text. rewrite Hidx. exact He. }
  rewrite Hv'. repeat split. exact Hs.
Qed.

Lemma single_spaced_highlight_is_word_witness :
  let text := units "Hello brave world" in
  let u := make_utterance 0 text default_options in
  let v := run (open text) [Mount true true; SpeechPlay; Platform u OnStart] in
  let v' := step v (Platform u (OnBoundary "word" 12)) in
  readingHighlight v' = Some (12, 17)
  /\ slice text 12 17 = units "world".
Proof.
  intros text u v v'.
  destruct (single_spaced_highlight_is_word v u 2 eq_refl
              ltac:(discriminate) eq_refl eq_refl ltac:(simpl; lia))
    as (_ & H1 & _ & H2).
  split; [exact H1 | exact H2].
Defined.

End TrackerFacts.

(** ** Paging, zoom and search in the viewer *)

Module NavigationFacts.
Import JS Speech Viewer Navigation Notions Scenarios.

(** *** Keyboard paging *)

Lemma handlePageChange_page (p : nat) (v : Viewer) :
  currentPage (handlePageChange p v) = Nat.max 1 (Nat.min p (totalPages v)).
Proof. reflexivity. Qed.

Lemma handleKeyDown_keeps (k : Key) (v : Viewer) :
  content (handleKeyDown false k v) = content v
  /\ isPdf (handleKeyDown false k v) = isPdf v
  /\ pdfPageCount (handleKeyDown false k v) = pdfPageCount v
  /\ doublePage (handleKeyDown false k v) = doublePage v.
Proof.
  destruct k as [| | | | | |[]|]; destruct (doublePage v) eqn:E; simpl;
    rewrite ?E; repeat split; assumption.
Qed.

Lemma handleKeyDown_total (k : Key) (v : Viewer) :
  totalPages (handleKeyDown false k v) = totalPages v.
Proof.
  destruct (handleKeyDown_keeps k v) as (Hc & Hp & Hn & _).
  unfold totalPages. now rewrite Hc, Hp, Hn.
Qed.

Lemma handleKeyDown_range (k : Key) (v : Viewer) :
  1 <= currentPage v <= totalPages v ->
  1 <= currentPage (handleKeyDown false k v) <= totalPages v.
Proof.
  intros Ht.
  destruct k as [| | | | | |[]|]; simpl; try destruct (doublePage v); simpl;
    lia.
Qed.

(** On indices that are not negative [slice] is the plain one. *)
Lemma slice_int_nat (s : jsstring) (a b : nat) :
  slice_int s (Z.of_nat a) (Z.of_nat b) = slice s a b.
Proof.
  unfold slice_int, slice.
  destruct (Z.ltb_spec (Z.of_nat a) 0); [lia|].
  destruct (Z.ltb_spec (Z.of_nat b) 0); [lia|].
  replace (Z.to_nat (Z.min (Z.of_nat a) (Z.of_nat (length s))))
    with (Nat.min a (length s)) by lia.
  replace (Z.to_nat (Z.min (Z.of_nat b) (Z.of_nat (length s))))
    with (Nat.min b (length s)) by lia.
  assert (Ht : take (Nat.min b (length s)) s = take b s).
  { destruct (Nat.le_gt_cases b (length s)).
    - now rewrite Nat.min_l.
    - rewrite Nat.min_r, !take_ge by lia. reflexivity. }
  rewrite Ht.
  destruct (Nat.le_gt_cases a (length s)).
  - now rewrite Nat.min_l.
  - rewrite Nat.min_r by lia.
    rewrite !drop_ge; [reflexivity | |]; rewrite length_take; lia.
Qed.

Lemma page_slice_from_one (v : Viewer) :
  1 <= currentPage v ->
  page_slice v
  = slice (content v) ((currentPage v - 1) * 2000)
      ((currentPage v - 1) * 2000 + (if doublePage v then 4000 else 2000)).
Proof.
  intros H. unfold page_slice. cbv zeta.
  rewrite <- slice_int_nat. f_equal; destruct (doublePage v); lia.
Qed.

Lemma single_page_from_one (doc : jsstring) (p : nat) :
  1 <= p ->
  single_page doc p = slice doc ((p - 1) * 2000) ((p - 1) * 2000 + 2000).
Proof.
  intros H. unfold single_page. rewrite <- slice_int_nat. f_equal; lia.
Qed.

(** Before page 1 there is nothing: page 0 shows the empty string. *)
Lemma single_page_zero (doc : jsstring) : single_page doc 0 = [].
Proof.
  unfold single_page, slice_int, slice. cbv zeta.
  change ((Z.of_nat 0 - 1) * 2000 + 2000)%Z with 0%Z.
  change (0 <? 0)%Z with false. cbv iota.
  replace (Z.to_nat (Z.min 0 (Z.of_nat (length doc)))) with 0 by lia.
  apply drop_nil.
Qed.

(** A page within the document shows a non-empty slice. *)
Lemma page_slice_nonempty (v : Viewer) :
  isPdf v = false -> 1 <= currentPage v <= totalPages v -> page_slice v <> [].
Proof.
  intros Hpdf [H1 Ht] He. apply (f_equal length) in He. revert He.
  rewrite page_slice_from_one by exact H1.
  unfold slice. rewrite length_drop, length_take. simpl.
  unfold totalPages in Ht. rewrite Hpdf in Ht.
  pose proof (Nat.div_mod_eq (length (content v) + 1999) 2000) as Hd.
  pose proof (Nat.mod_upper_bound (length (content v) + 1999) 2000
                ltac:(lia)) as Hm.
  set (q := (length (content v) + 1999) / 2000) in *.
  destruct (doublePage v); lia.
Qed.

(** In a text document that is not empty, whatever keys are pressed the
    current page stays between 1 and the number of pages, and the page
    shown is never blank. *)
Theorem keyboard_paging_in_range (v : Viewer) (keys : list Key) :
  isPdf v = false ->
  1 <= currentPage v <= totalPages v ->
  let v' := press_all v keys in
  1 <= currentPage v' <= totalPages v'
  /\ totalPages v' = totalPages v
  /\ page_slice v' <> [].
Proof.
  intros Hpdf Hr v'.
  assert (H : 1 <= currentPage v' <= totalPages v'
              /\ totalPages v' = totalPages v /\ isPdf v' = false).
  { unfold v', press_all. clear v'. revert v Hpdf Hr.
    induction keys as [|k keys IH]; intros v Hpdf Hr; cbn [fold_left];
      [auto|].
    pose proof (handleKeyDown_range k v Hr) as Hk.
    pose proof (handleKeyDown_total k v) as Ht.
    destruct (handleKeyDown_keeps k v) as (_ & Hp & _).
    destruct (IH (handleKeyDown false k v)) as (Ha & Hb & Hc).
    - congruence.
    - now rewrite Ht.
    - split; [exact Ha | split; [congruence | exact Hc]]. }
  destruct H as (Ha & Hb & Hc).
  split; [exact Ha | split; [exact Hb |]].
  now apply page_slice_nonempty.
Qed.

Lemma keyboard_paging_in_range_witness :
  let v := press_all (open two_pages) [End_; ArrowDown; Space false; ArrowUp; ArrowUp; ArrowUp] in
  1 <= currentPage v <= 2 /\ page_slice v <> [].
Proof.
  intros v.
  destruct (keyboard_paging_in_range (open two_pages)
              [End_; ArrowDown; Space false; ArrowUp; ArrowUp; ArrowUp] eq_refl
              ltac:(vm_compute; split; [lia | discriminate || lia]))
    as (H1 & H2 & H3).
  split; [|exact H3].
  fold v in H1, H2. rewrite H2 in H1. exact H1.
Defined.

(** *** The pages cover the document *)

Lemma chunks_take (n : nat) (s : jsstring) (k : nat) :
  concat (map (fun p => slice s ((p - 1) * n) ((p - 1) * n + n)) (seq 1 k))
  = take (k * n) s.
Proof.
  induction k as [|k IH]; [reflexivity|].
  rewrite seq_S, map_app, concat_app, IH. simpl concat.
  rewrite app_nil_r. unfold slice.
  rewrite Nat.sub_0_r.
  rewrite <- take_drop_commute, take_take_drop.
  f_equal. lia.
Qed.

(** The slices shown as pages 1 to [totalPages] in single-page mode, put
    end to end, are the document: nothing is lost and nothing is shown
    twice.  In single-page mode the slice shown is that of the current
    page, whatever the page; page 0, which a search can set, shows the
    empty string. *)
Theorem pages_cover_document (v : Viewer) :
  isPdf v = false ->
  concat (map (single_page (content v)) (seq 1 (totalPages v))) = content v
  /\ (doublePage v = false ->
      page_slice v = single_page (content v) (currentPage v))
  /\ single_page (content v) 0 = [].
Proof.
  intros Hpdf. split; [|split; [|apply single_page_zero]].
  - rewrite (map_ext_in _ (fun p => slice (content v) ((p - 1) * 2000)
                                      ((p - 1) * 2000 + 2000))).
    2: { intros p Hp. apply List.in_seq in Hp.
         apply single_page_from_one. lia. }
    rewrite (chunks_take 2000).
    apply take_ge. unfold totalPages. rewrite Hpdf.
    pose proof (Nat.div_mod_eq (length (content v) + 1999) 2000) as Hd.
    pose proof (Nat.mod_upper_bound (length (content v) + 1999) 2000
                  ltac:(lia)) as Hm.
    lia.
  - intros Hd. unfold page_slice, single_page. now rewrite Hd.
Qed.

Lemma pages_cover_document_witness :
  concat (map (single_page two_pages) [1; 2]) = two_pages.
Proof.
  exact (proj1 (pages_cover_document (open two_pages) eq_refl)).
Defined.

(** *** Zoom *)

(** From the initial 100%, the zoom level stays a multiple of 25 between
    25 and 300 whatever buttons are pressed. *)
Theorem zoom_level_in_range (l : list ZoomAction) :
  let z := fold_left zoom_step l zoom_initial in
  (25 <= zoomLevel z <= 300)%Z /\ (zoomLevel z mod 25 = 0)%Z.
Proof.
  assert (H : forall z, (25 <= zoomLevel z <= 300)%Z /\ (zoomLevel z mod 25 = 0)%Z ->
              (25 <= zoomLevel (fold_left zoom_step l z) <= 300)%Z
              /\ (zoomLevel (fold_left zoom_step l z) mod 25 = 0)%Z).
  { induction l as [|a l IH]; intros z Hz; simpl; [exact Hz|].
    apply IH. destruct Hz as [Hr Hm].
    destruct a; simpl; try (split; [lia | reflexivity]).
    - split; [lia|].
      destruct (Z.min_spec (zoomLevel z + 25) 300) as [[_ ->]|[_ ->]];
        [|reflexivity].
      rewrite <- Z.add_mod_idemp_l, Hm by lia. reflexivity.
    - split; [lia|].
      destruct (Z.max_spec (zoomLevel z - 25) 25) as [[_ ->]|[_ ->]];
        [reflexivity|].
      rewrite <- Zminus_mod_idemp_l, Hm. reflexivity. }
  apply H. simpl. split; [lia | reflexivity].
Qed.

(** *** Search results *)

Lemma navigate_index (d : Direction) (f : Finder) :
  searchResults f <> [] ->
  currentSearchIndex (navigateSearchResult d f) < length (searchResults f)
  /\ searchResults (navigateSearchResult d f) = searchResults f.
Proof.
  intros Hne. unfold navigateSearchResult.
  destruct (Nat.eqb_spec (length (searchResults f)) 0) as [E|E].
  - destruct (searchResults f); [congruence | discriminate].
  - simpl. split; [|reflexivity].
    destruct d; apply Nat.mod_upper_bound; exact E.
Qed.

Lemma find_step_index_ok (pdfPageOf : nat -> nat) (f : Finder) (a : FindAction) :
  index_ok f -> index_ok (find_step pdfPageOf f a).
Proof.
  intros Hf. destruct a as [q|matches|d]; simpl.
  - exact Hf.
  - unfold searched. destruct (blank (searchQuery f)); [now left|].
    unfold index_ok. simpl. destruct matches; [now left | right; simpl; lia].
  - destruct (searchResults f) as [|r rs] eqn:E.
    + left. unfold navigateSearchResult. rewrite E. simpl. exact E.
    + right. destruct (navigate_index d f) as [H1 H2]; [congruence|].
      now rewrite H2.
Qed.

(** Whatever is typed, searched and navigated, the selected result exists
    whenever there are results; stepping to the next or the previous
    result shows the page of the result it selects. *)
Theorem search_index_in_range
  (pdfPageOf : nat -> nat) (f : Finder) (l : list FindAction) :
  index_ok f ->
  let f' := fold_left (find_step pdfPageOf) l f in
  index_ok f'
  /\ forall d, searchResults f' <> [] ->
       exists r,
         searchResults f' !! currentSearchIndex (navigateSearchResult d f')
         = Some r
         /\ currentPage (view (navigateSearchResult d f')) = page r.
Proof.
  intros Hf f'. split.
  - unfold f'. clear f'. revert f Hf.
    induction l as [|a l IH]; intros f Hf; simpl; [exact Hf|].
    apply IH, find_step_index_ok, Hf.
  - intros d Hne. destruct (navigate_index d f' Hne) as [Hlt _].
    destruct (lookup_lt_is_Some_2 _ _ Hlt) as [r Hr].
    exists r. split; [exact Hr|].
    revert Hr. unfold navigateSearchResult.
    destruct (Nat.eqb_spec (length (searchResults f')) 0) as [E|E].
    + destruct (searchResults f'); [congruence | discriminate].
    + simpl. intros ->. reflexivity.
Qed.

Lemma search_index_in_range_witness :
  let f := {| view := open two_pages; searchQuery := units "page";
              searchResults := []; currentSearchIndex := 0 |} in
  let f' := fold_left (find_step (fun _ => 1))
              [Search [(6, units "page"); (2007, units "page")];
               Navigate Next] f in
  index_ok f' /\ currentSearchIndex f' = 1.
Proof.
  intros f f'.
  split; [|reflexivity].
  exact (proj1 (search_index_in_range (fun _ => 1) f
                  [Search [(6, units "page"); (2007, units "page")];
                   Navigate Next] (or_introl eq_refl))).
Defined.

(** Stepping to the next result and then to the previous one, or the other
    way round, comes back to the result that was selected. *)
Theorem navigate_there_and_back (f : Finder) :
  currentSearchIndex f < length (searchResults f) ->
  currentSearchIndex (navigateSearchResult Prev (navigateSearchResult Next f))
  = currentSearchIndex f
  /\ currentSearchIndex (navigateSearchResult Next (navigateSearchResult Prev f))
     = currentSearchIndex f.
Proof.
  intros Hlt. set (n := length (searchResults f)).
  assert (Hn : n <> 0) by (unfold n; lia).
  assert (Hnav : forall d g, searchResults g = searchResults f ->
            currentSearchIndex (navigateSearchResult d g)
            = match d with
              | Next => (currentSearchIndex g + 1) mod n
              | Prev => (currentSearchIndex g + n - 1) mod n
              end
            /\ searchResults (navigateSearchResult d g) = searchResults f).
  { intros d g Hg. unfold navigateSearchResult. rewrite Hg. fold n.
    destruct (Nat.eqb_spec n 0) as [E|E]; [contradiction|].
    simpl. split; reflexivity. }
  destruct (Hnav Next f eq_refl) as [Hn1 Hr1].
  destruct (Hnav Prev f eq_refl) as [Hp1 Hr2].
  destruct (Hnav Prev _ Hr1) as [Hp2 _].
  destruct (Hnav Next _ Hr2) as [Hn2 _].
  rewrite Hp2, Hn1, Hn2, Hp1. fold n in Hlt.
  set (i := currentSearchIndex f) in *.
  split.
  - destruct (Nat.eq_dec (i + 1) n) as [E|E].
    + rewrite E, Nat.Div0.mod_same. simpl.
      rewrite Nat.mod_small by lia. lia.
    + rewrite (Nat.mod_small (i + 1)) by lia.
      replace (i + 1 + n - 1) with (i + 1 * n) by lia.
      rewrite Nat.Div0.mod_add. apply Nat.mod_small. lia.
  - destruct (Nat.eq_dec i 0) as [E|E].
    + rewrite E. simpl. rewrite (Nat.mod_small (n - 1)) by lia.
      replace (n - 1 + 1) with n by lia. apply Nat.Div0.mod_same.
    + replace (i + n - 1) with ((i - 1) + 1 * n) by lia.
      rewrite Nat.Div0.mod_add, (Nat.mod_small (i - 1)) by lia.
      replace (i - 1 + 1) with i by lia. apply Nat.mod_small. lia.
Qed.

Lemma navigate_there_and_back_witness :
  let f := {| view := open two_pages; searchQuery := units "page";
              searchResults :=
                [ {| page := 1; text := units "page"; position_y := 6 |};
                  {| page := 2; text := units "page"; position_y := 2007 |} ];
              currentSearchIndex := 1 |} in
  currentSearchIndex (navigateSearchResult Prev (navigateSearchResult Next f)) = 1.
Proof.
  intros f. exact (proj1 (navigate_there_and_back f ltac:(simpl; lia))).
Defined.

(** *** Running a search *)

(** A loop that ends has pushed one result per match. *)
Lemma exec_loop_pushed (exec : nat -> option (nat * jsstring))
  (page_of : nat -> nat) (fuel k : nat) (found : list (nat * jsstring))
  (results : list SearchResult) :
  exec_loop fuel exec page_of k (map (pushed page_of) found) = Some results ->
  exists matches, results = map (pushed page_of) matches.
Proof.
  revert k found. induction fuel as [|fuel IH]; intros k found; [discriminate|].
  simpl. destruct (exec k) as [[i m]|].
  - change [ {| page := page_of i; text := m; position_y := i |} ]
      with (map (pushed page_of) [(i, m)]).
    rewrite <- map_app. apply IH.
  - intros [= <-]. eauto.
Qed.

(** Every search that returns is a [Search] step of the search box. *)
Lemma handleSearch_returned (pdfPageOf : nat -> nat) (re : RegExp)
  (fuel : nat) (f f' : Finder) :
  handleSearch pdfPageOf re fuel f = Returned f' ->
  exists matches, f' = searched pdfPageOf matches f.
Proof.
  unfold handleSearch, searched.
  destruct (blank (searchQuery f)); [intros [= <-]; now exists []|].
  destruct re as [|exec]; [discriminate|].
  destruct (exec_loop fuel exec (match_page pdfPageOf (view f)) 0 [])
    as [results|] eqn:E; [|discriminate].
  apply (exec_loop_pushed exec _ fuel 0 []) in E as [matches ->].
  intros [= <-]. exists matches. reflexivity.
Qed.

(** With matches that are not empty the loop ends within one call per
    character left, and one more. *)
Lemma exec_loop_ends (s : jsstring) (exec : nat -> option (nat * jsstring))
  (page_of : nat -> nat) :
  engine_ok s exec ->
  (forall k i m, exec k = Some (i, m) -> m <> []) ->
  forall fuel k results,
    length s - k < fuel ->
    exists more, exec_loop fuel exec page_of k results = Some (results ++ more).
Proof.
  intros Hok Hne. induction fuel as [|fuel IH]; intros k results Hf; [lia|].
  simpl. destruct (exec k) as [[i m]|] eqn:E.
  - destruct (Hok k i m E) as (Hki & Hin & _).
    pose proof (Hne k i m E) as Hm.
    assert (Hlen : 0 < length m) by (destruct m; [congruence | simpl; lia]).
    destruct (IH (i + length m)
                (results ++ [ {| page := page_of i; text := m;
                                 position_y := i |} ])) as [more Hmore]; [lia|].
    rewrite Hmore, <- app_assoc. eauto.
  - exists []. now rewrite app_nil_r.
Qed.

(** After an empty match the loop asks for the same match for ever. *)
Lemma exec_loop_stuck (exec : nat -> option (nat * jsstring))
  (page_of : nat -> nat) (i : nat) :
  exec i = Some (i, []) ->
  forall fuel results, exec_loop fuel exec page_of i results = None.
Proof.
  intros E. induction fuel as [|fuel IH]; intros results; [reflexivity|].
  simpl. rewrite E. simpl. rewrite Nat.add_0_r. apply IH.
Qed.

Lemma exec_loop_no_empty (s : jsstring) (exec : nat -> option (nat * jsstring))
  (page_of : nat -> nat) :
  engine_ok s exec ->
  forall fuel k results final,
    exec_loop fuel exec page_of k results = Some final ->
    Forall (fun r => text r <> []) results ->
    Forall (fun r => text r <> []) final.
Proof.
  intros Hok. induction fuel as [|fuel IH]; intros k results final;
    [discriminate|].
  simpl. destruct (exec k) as [[i m]|] eqn:E.
  - destruct (Hok k i m E) as (Hki & _ & Hsame).
    destruct m as [|c m].
    + simpl. rewrite Nat.add_0_r.
      rewrite (exec_loop_stuck exec page_of i (Hsame i ltac:(lia))).
      discriminate.
    + intros Hl Hr. apply (IH _ _ _ Hl).
      apply Forall_app. split; [exact Hr|]. now constructor.
  - now intros [= <-].
Qed.

(** A search in a text document, with a query that is not blank, for a
    pattern whose first match is [t] at [index].  When no match of the
    pattern is empty the search returns, selects result 0 and shows the
    page [ceil(index / 2000)]: that page contains the place of the match
    unless the index is a multiple of 2000; then the page ends just before
    the match, and for a match at index 0 it is page 0.  When the first
    match is empty the search never returns; a search that returns has
    found no empty match.  With an invalid pattern the search throws. *)
Theorem search_jumps_to_page
  (pdfPageOf : nat -> nat) (f : Finder)
  (exec : nat -> option (nat * jsstring)) (index : nat) (t : jsstring) :
  isPdf (view f) = false -> blank (searchQuery f) = false ->
  engine_ok (content (view f)) exec ->
  exec 0 = Some (index, t) ->
  ((forall k i m, exec k = Some (i, m) -> m <> []) ->
   forall fuel, length (content (view f)) < fuel ->
     exists f',
       handleSearch pdfPageOf (Regex exec) fuel f = Returned f'
       /\ let p := currentPage (view f') in
          p = (index + 1999) / 2000
          /\ currentSearchIndex f' = 0
          /\ searchResults f' !! 0
             = Some {| page := p; text := t; position_y := index |}
          /\ (index mod 2000 <> 0 -> (p - 1) * 2000 <= index < p * 2000)
          /\ (index mod 2000 = 0 -> index = p * 2000))
  /\ (t = [] ->
      forall fuel, handleSearch pdfPageOf (Regex exec) fuel f = Running)
  /\ (forall fuel f',
        handleSearch pdfPageOf (Regex exec) fuel f = Returned f' ->
        Forall (fun r => text r <> []) (searchResults f'))
  /\ (forall fuel, handleSearch pdfPageOf SyntaxError fuel f = Threw).
Proof.
  intros Hpdf Hq Hok H0.
  split; [|split; [|split]].
  - intros Hne fuel Hfuel.
    destruct fuel as [|fuel]; [lia|].
    destruct (Hok 0 index t H0) as (_ & Hin & _).
    pose proof (Hne 0 index t H0) as Ht.
    assert (Hlen : 0 < length t) by (destruct t; [congruence | simpl; lia]).
    destruct (exec_loop_ends _ exec (match_page pdfPageOf (view f)) Hok Hne
                fuel (index + length t)
                [ {| page := match_page pdfPageOf (view f) index; text := t;
                     position_y := index |} ]) as [more Hmore]; [lia|].
    unfold handleSearch. rewrite Hq. cbn [exec_loop]. rewrite H0.
    cbn [app]. rewrite Hmore. cbn [app].
    eexists. split; [reflexivity|].
    cbn [view searchResults currentSearchIndex page setCurrentPage currentPage].
    unfold match_page. rewrite Hpdf.
    split; [reflexivity|]. split; [reflexivity|]. split; [reflexivity|].
    pose proof (Nat.div_mod_eq (index + 1999) 2000) as Hd.
    pose proof (Nat.mod_upper_bound (index + 1999) 2000 ltac:(lia)) as Hm.
    pose proof (Nat.div_mod_eq index 2000) as Hd'.
    pose proof (Nat.mod_upper_bound index 2000 ltac:(lia)) as Hm'.
    set (p := (index + 1999) / 2000) in *.
    set (q := index / 2000) in *. set (r := index mod 2000) in *.
    set (r' := (index + 1999) mod 2000) in *.
    split; intros Hr; lia.
  - intros -> fuel. unfold handleSearch. rewrite Hq.
    destruct fuel as [|fuel]; [reflexivity|].
    cbn [exec_loop]. rewrite H0. cbn [length]. rewrite Nat.add_0_r.
    destruct (Hok 0 index [] H0) as (_ & _ & Hsame).
    now rewrite (exec_loop_stuck exec _ index (Hsame index ltac:(lia))).
  - intros fuel f'. unfold handleSearch. rewrite Hq.
    destruct (exec_loop fuel exec (match_page pdfPageOf (view f)) 0 [])
      as [results|] eqn:E; [|discriminate].
    intros [= <-]. cbn [searchResults].
    apply (exec_loop_no_empty _ exec _ Hok _ _ _ _ E). constructor.
  - intros fuel. unfold handleSearch. now rewrite Hq.
Qed.

Lemma page_matches_ok : engine_ok two_pages Samples.page_matches.
Proof.
  intros k i m. unfold Samples.page_matches.
  assert (Hl : length two_pages = 2016) by (vm_compute; reflexivity).
  destruct (Nat.leb_spec k 6) as [H6|H6].
  - intros [= <- <-]. rewrite Hl. cbn [length units].
    split; [exact H6|]. split; [vm_compute; lia|].
    intros j Hj. destruct (Nat.leb_spec j 6); [reflexivity | lia].
  - destruct (Nat.leb_spec k 2007) as [H7|H7]; [|discriminate].
    intros [= <- <-]. rewrite Hl.
    split; [exact H7|]. split; [vm_compute; lia|].
    intros j Hj. destruct (Nat.leb_spec j 6); [lia|].
    destruct (Nat.leb_spec j 2007); [reflexivity | lia].
Qed.

Lemma search_jumps_to_page_witness :
  exists f',
    handleSearch (fun _ => 1) (Regex Samples.page_matches) 2017
      Samples.finding_page = Returned f'
    /\ currentPage (view f') = 1
    /\ length (searchResults f') = 2.
Proof.
  destruct (search_jumps_to_page (fun _ => 1) Samples.finding_page
              Samples.page_matches 6 (units "page")
              eq_refl eq_refl page_matches_ok eq_refl) as (Ha & _).
  destruct (Ha ltac:(unfold Samples.page_matches; intros k i m;
                     destruct (k <=? 6);
                     [|destruct (k <=? 2007); [|discriminate]];
                     intros [= <- <-]; discriminate)
               2017 ltac:(vm_compute; lia)) as (f' & Hf & Hp & _).
  exists f'. split; [exact Hf|]. split; [exact Hp|].
  vm_compute in Hf. injection Hf as <-. reflexivity.
Defined.

End NavigationFacts.

(** ** Further properties of the converter *)

Module ConverterMore.
Import Converter Legacy Claims Scenarios ConverterFacts JobFacts.

Lemma ascending_Forall (lo hi : Q) (t : list Q) :
  ascending lo hi t -> Forall (fun p => (lo <= p <= hi)%Q) t.
Proof.
  revert lo. induction t as [|p t IH]; intros lo H; constructor.
  - destruct H as [H1 H2]. split; [exact H1|]. now apply ascending_bounds in H2.
  - destruct H as [H1 H2]. apply (IH lo).
    apply ascending_weaken with p hi; [exact H1 | lra | exact H2].
Qed.

(** Every value the converter reports lies between 2 and 100, whatever
    the format and whatever the libraries do. *)
Theorem progress_values_in_range (fmt : string) (env : Env) :
  Forall (fun p => (2 <= p <= 100)%Q) (fst (convertFileEnhanced fmt env)).
Proof.
  destruct (String.eqb_spec fmt "epub") as [->|Hne].
  - rewrite trace_epub.
    pose proof (ascending_Forall _ _ _ (advanced_ascending (advanced env))) as Ha.
    pose proof (ascending_Forall _ _ _ (simple_ascending (simple env))) as Hs.
    repeat constructor; try lra.
    apply Forall_app. split.
    + eapply Forall_impl; [exact Ha|]. simpl. intros p Hp. lra.
    + destruct (snd (convertEpubToPdfAdvanced (advanced env)));
        [|constructor].
      constructor; [lra|].
      eapply Forall_impl; [exact Hs|]. simpl. intros p Hp. lra.
  - apply ascending_Forall, trace_other, Hne.
Qed.

(** *** Success *)

Lemma last_cons_ends {A} (x : A) (l : list A) (y z : A) :
  last (x :: l ++ [y; z]) = Some z.
Proof.
  change (x :: l ++ [y; z]) with ((x :: l) ++ [y; z]).
  now rewrite last_app.
Qed.

Lemma advanced_success (r : EpubRun) (u : string) :
  snd (convertEpubToPdfAdvanced r) = inr u ->
  u = url r /\ last (fst (convertEpubToPdfAdvanced r)) = Some 100%Q.
Proof.
  unfold convertEpubToPdfAdvanced. rewrite advanced_loop. unfold may_fail.
  destruct (read_fails r); [discriminate|].
  destruct (fault r OpenBook), (fault r LoadBook), (fault r BuildPdf),
    (fault r OutputBlob); cbn; try discriminate.
  intros [= <-]. split; [reflexivity | apply last_cons_ends].
Qed.

Lemma simple_item (r : EpubRun) (i : nat) (p : Q) :
  (may_fail r (LoadItem i) ;; onProgress p)
  = match fault r (LoadItem i) with
    | Some t => ([], inl t)
    | None => ([p], inr tt)
    end.
Proof. unfold may_fail. destruct (fault r (LoadItem i)); reflexivity. Qed.

Lemma simple_loop_cases (r : EpubRun) (a k : nat) :
  for_each (seq a k) (fun i =>
    may_fail r (LoadItem i) ;; onProgress (40 + ratio i (items r) * 50))
  = (map (fun i => 40 + ratio i (items r) * 50)%Q (seq a k), inr tt)
  \/ exists t, snd (for_each (seq a k) (fun i =>
       may_fail r (LoadItem i) ;; onProgress (40 + ratio i (items r) * 50)))
     = inl t.
Proof.
  revert a. induction k as [|k IH]; intros a; cbn [seq for_each].
  - now left.
  - rewrite simple_item. destruct (fault r (LoadItem a)) as [t|].
    + right. exists t. reflexivity.
    + destruct (IH (S a)) as [E|(t & E)].
      * left. rewrite E. reflexivity.
      * right. exists t. revert E.
        destruct (for_each (seq (S a) k) _) as [tr res]. simpl.
        intros ->. reflexivity.
Qed.

Lemma simple_success (r : EpubRun) (u : string) :
  snd (convertEpubToPdfSimple r) = inr u ->
  u = url r /\ last (fst (convertEpubToPdfSimple r)) = Some 100%Q.
Proof.
  unfold convertEpubToPdfSimple.
  destruct (simple_loop_cases r 0 (items r)) as [E|(t & E)].
  - rewrite E. unfold may_fail.
    destruct (read_fails r); [discriminate|].
    destruct (fault r OpenBook), (fault r LoadBook), (fault r BuildPdf),
      (fault r OutputBlob); cbn; try discriminate.
    intros [= <-]. split; [reflexivity | apply last_cons_ends].
  - revert E.
    destruct (for_each (seq 0 (items r)) _) as [tr res]. simpl. intros ->.
    unfold may_fail.
    destruct (read_fails r); [discriminate|].
    destruct (fault r OpenBook), (fault r LoadBook), (fault r BuildPdf);
      cbn; discriminate.
Qed.

Lemma last_app_some {A} (l1 l2 : list A) (x : A) :
  last l2 = Some x -> last (l1 ++ l2) = Some x.
Proof. intros H. now rewrite last_app, H. Qed.

Lemma result_epub (env : Env) :
  snd (convertFileEnhanced "epub" env)
  = match snd (convertEpubToPdfAdvanced (advanced env)) with
    | inr u => inr u
    | inl _ =>
        match snd (convertEpubToPdfSimple (simple env)) with
        | inr u => inr u
        | inl e =>
            inl (ErrorObj ("Conversion failed: " ++ message_or "Unknown error" e))
        end
    end.
Proof.
  unfold convertFileEnhanced. simpl.
  destruct (convertEpubToPdfAdvanced (advanced env)) as [ta [ea|ua]];
    [destruct (convertEpubToPdfSimple (simple env)) as [ts [es|us]]|];
    reflexivity.
Qed.

(** A conversion that succeeds is the conversion of an EPUB; the last
    value it reports is 100; and its result is the object URL made by the
    advanced attempt, or by the simple one when the advanced one failed. *)
Theorem conversion_success (fmt : string) (env : Env) (u : string) :
  snd (convertFileEnhanced fmt env) = inr u ->
  fmt = "epub"
  /\ last (fst (convertFileEnhanced fmt env)) = Some 100%Q
  /\ (snd (convertEpubToPdfAdvanced (advanced env)) = inr u
      /\ u = url (advanced env)
      \/ (exists e, snd (convertEpubToPdfAdvanced (advanced env)) = inl e)
         /\ snd (convertEpubToPdfSimple (simple env)) = inr u
         /\ u = url (simple env)).
Proof.
  intros H.
  assert (Hf : fmt = "epub").
  { destruct (String.eqb_spec fmt "epub") as [E|Hne]; [exact E|].
    exfalso. revert H. unfold convertFileEnhanced.
    destruct (String.eqb_spec fmt "epub") as [E|_]; [contradiction|].
    destruct (String.eqb (toLowerCase fmt) "epub"
              || String.eqb (toLowerCase fmt) "azw3"); [|discriminate].
    destruct (String.eqb fmt "azw3"); discriminate. }
  subst fmt. split; [reflexivity|].
  rewrite result_epub in H. rewrite trace_epub.
  destruct (snd (convertEpubToPdfAdvanced (advanced env))) as [ea|ua] eqn:Ea.
  - destruct (snd (convertEpubToPdfSimple (simple env))) as [es|us] eqn:Es;
      [discriminate|].
    injection H as <-. destruct (simple_success _ _ Es) as [Hu Hl].
    split.
    + apply (last_app_some (2%Q :: 5%Q :: fst (convertEpubToPdfAdvanced (advanced env)))).
      now rewrite last_cons, Hl.
    + right. split; [eauto | split; [reflexivity | exact Hu]].
  - injection H as <-. destruct (advanced_success _ _ Ea) as [Hu Hl].
    split.
    + rewrite app_nil_r.
      apply (last_app_some [2%Q; 5%Q]). exact Hl.
    + left. split; [reflexivity | exact Hu].
Qed.

Lemma conversion_success_witness :
  last (fst (convertFileEnhanced "epub" corrupt_then_simple)) = Some 100%Q.
Proof.
  exact (proj1 (proj2 (conversion_success "epub" corrupt_then_simple
                         "blob:simple" eq_refl))).
Defined.

(** *** Formats that are not converted *)

(** Only the format spelled ["epub"] is ever converted.  Every other
    format is rejected: ["azw3"] after the values 2, 5, 25, 50, 75, with the
    note on DRM; a format that is "epub" or "azw3" only up to the case of
    its letters after 2 and 5; any other after 2 alone, the message naming
    the format. *)
Theorem other_formats_rejected (fmt : string) (env : Env) :
  fmt <> "epub" ->
  convertFileEnhanced fmt env
  = if String.eqb fmt "azw3" then
      ([2; 5; 25; 50; 75]%Q,
       inl (ErrorObj ("Conversion failed: " ++ azw3_message)))
    else if String.eqb (toLowerCase fmt) "epub"
            || String.eqb (toLowerCase fmt) "azw3" then
      ([2; 5]%Q, inl (ErrorObj "Conversion failed: Unsupported format"))
    else
      ([2%Q],
       inl (ErrorObj ("Conversion failed: Unsupported input format: " ++ fmt))).
Proof.
  intros Hne. unfold convertFileEnhanced.
  destruct (String.eqb_spec fmt "epub") as [E|_]; [contradiction|].
  destruct (String.eqb_spec fmt "azw3") as [->|_]; [reflexivity|].
  destruct (String.eqb (toLowerCase fmt) "epub"
            || String.eqb (toLowerCase fmt) "azw3"); reflexivity.
Qed.

Lemma other_formats_rejected_witness :
  convertFileEnhanced "EPUB" corrupt_then_simple
  = ([2; 5]%Q, inl (ErrorObj "Conversion failed: Unsupported format")).
Proof.
  exact (other_formats_rejected "EPUB" corrupt_then_simple ltac:(discriminate)).
Defined.

(** *** The older entry point *)

(** [convertFile] never lowers the progress it reports: its values are
    non-decreasing between 5 and 100 in every run, and when it fails its
    message starts with "Conversion failed: ". *)
Theorem convertFile_progress_ascending (fmt : string) (env : Env) :
  ascending 5 100 (fst (convertFile fmt env))
  /\ nondecreasing (fst (convertFile fmt env))
  /\ (forall t, snd (convertFile fmt env) = inl t ->
        exists inner, t = ErrorObj ("Conversion failed: " ++ inner)).
Proof.
  assert (Ha : ascending 5 100 (fst (convertFile fmt env))).
  { unfold convertFile.
    destruct (String.eqb fmt "epub").
    - pose proof (advanced_ascending (advanced env)) as H. unfold asc in H.
      destruct (convertEpubToPdfAdvanced (advanced env)) as [ta [ea|ua]];
        cbn in *; rewrite ?app_nil_r; (split; [lra | exact H]).
    - destruct (String.eqb fmt "azw3"); cbn; repeat split; asc_const. }
  split; [exact Ha | split; [exact (ascending_nondecreasing _ _ _ Ha)|]].
  intros t. unfold convertFile.
  match goal with |- context [try_catch ?m ?h] => set (body := m) end.
  intros H.
  assert (H' : snd (try_catch body (fun error =>
                 throw (ErrorObj ("Conversion failed: "
                                  ++ message_or "Unknown error" error)))) = inl t).
  { revert H. unfold bind, onProgress.
    match goal with |- context [try_catch body ?h] =>
      destruct (try_catch body h) as [tr res] end.
    simpl. easy. }
  apply (try_catch_rethrow body
           (fun error => ErrorObj ("Conversion failed: "
                                   ++ message_or "Unknown error" error))) in H'.
  destruct H' as (e & ->). eauto.
Qed.

Lemma convertFile_progress_ascending_witness :
  exists inner,
    snd (convertFile "azw3" corrupt_then_simple)
    = inl (ErrorObj ("Conversion failed: " ++ inner)).
Proof.
  destruct (convertFile_progress_ascending "azw3" corrupt_then_simple)
    as (_ & _ & H).
  destruct (H _ eq_refl) as (inner & E).
  exists inner. cbn. f_equal. exact E.
Defined.

End ConverterMore.

(** ** Further properties of the job list *)

Module JobMore.
Import Converter Jobs Drops Claims Notions Scenarios ConverterFacts JobFacts
  RemovalFacts.

(** *** Jobs do not disturb each other *)

Lemma others_update (jobId : string) (f : ConversionJob -> ConversionJob)
  (l : list ConversionJob) :
  (forall j, id (f j) = id j) ->
  others jobId (update jobId f l) = others jobId l.
Proof.
  intros Hf. unfold others, update.
  induction l as [|a l IH]; simpl; [reflexivity|].
  destruct (String.eqb (id a) jobId) eqn:E; simpl.
  - rewrite Hf, E. simpl. exact IH.
  - rewrite E. simpl. now rewrite IH.
Qed.

Lemma others_reports (jobId : string) (trace : list Q) (c : FileConverter) :
  others jobId (jobs (fold_left (report jobId) trace c)) = others jobId (jobs c)
  /\ Jobs.revoked (fold_left (report jobId) trace c) = Jobs.revoked c.
Proof.
  revert c. induction trace as [|p trace IH]; intros c; simpl; [easy|].
  destruct (IH (report jobId c p)) as [H1 H2]. rewrite H1, H2. simpl.
  split; [|reflexivity]. now apply others_update.
Qed.

Lemma others_settle (jobId : string) (r : Conv string) (c : FileConverter) :
  others jobId (jobs (settle jobId r c)) = others jobId (jobs c)
  /\ Jobs.revoked (settle jobId r c) = Jobs.revoked c.
Proof.
  unfold settle. destruct (others_reports jobId (fst r) c) as [H1 H2].
  destruct (snd r); simpl; rewrite others_update by reflexivity; easy.
Qed.

Lemma others_app_own (jobId : string) (l : list ConversionJob)
  (job : ConversionJob) :
  id job = jobId -> others jobId (l ++ [job]) = others jobId l.
Proof.
  intros Hj. unfold others. rewrite List.filter_app. simpl.
  rewrite Hj, String.eqb_refl. simpl. apply app_nil_r.
Qed.

(** Dropping a file, converting it and retrying a job leave every job with
    another id exactly as it was, in the same order, and revoke no URL. *)
Theorem other_jobs_untouched
  (file : File) (newId : string) (job : ConversionJob) (env : Env)
  (c : FileConverter) :
  (others newId (jobs (handleFileDrop file newId env c)) = others newId (jobs c)
   /\ Jobs.revoked (handleFileDrop file newId env c) = Jobs.revoked c)
  /\ (others (id job) (jobs (retryJob job env c)) = others (id job) (jobs c)
      /\ Jobs.revoked (retryJob job env c) = Jobs.revoked c).
Proof.
  split.
  - unfold handleFileDrop.
    destruct (String.eqb (extension_of (fname file)) "epub"
              || String.eqb (extension_of (fname file)) "azw3").
    + match goal with |- context [settle newId ?r ?c2] =>
        destruct (others_settle newId r c2) as [H1 H2] end.
      rewrite H1, H2. simpl. split; [|reflexivity].
      rewrite others_update by reflexivity. now apply others_app_own.
    + simpl. split; [|reflexivity]. now apply others_app_own.
  - unfold retryJob.
    match goal with |- context [settle (id job) ?r ?c2] =>
      destruct (others_settle (id job) r c2) as [H1 H2] end.
    rewrite H1, H2. simpl. split; [|reflexivity].
    now apply others_update.
Qed.

(** *** A failed job that is retried *)

Lemma find_job_settle_ok (jobId : string) (r : Conv string)
  (c : FileConverter) (j : ConversionJob) (u : string) :
  find_job jobId (jobs c) = Some j -> snd r = inr u ->
  find_job jobId (jobs (settle jobId r c)) = Some (to_completed u j).
Proof.
  intros Hj Hr. unfold settle. rewrite Hr. simpl.
  destruct (find_job_reports jobId (fst r) c j Hj) as (p & Hp).
  rewrite find_job_update by reflexivity. rewrite Hp. reflexivity.
Qed.

(** When the conversion of a dropped file fails and the job is retried
    with success, the job ends [Completed] with progress 100, the new
    object URL, and no error message left. *)
Theorem retry_after_failure
  (file : File) (newId : string) (env1 env2 : Env) (c : FileConverter)
  (thrown : Thrown) (u : string) (job1 : ConversionJob) :
  let ext := extension_of (fname file) in
  let c1 := handleFileDrop file newId env1 c in
  ext = "epub" \/ ext = "azw3" ->
  ~ In newId (map id (jobs c)) ->
  snd (convertFileEnhanced ext env1) = inl thrown ->
  find_job newId (jobs c1) = Some job1 ->
  snd (convertFileEnhanced ext env2) = inr u ->
  status job1 = Error
  /\ find_job newId (jobs (retryJob job1 env2 c1))
     = Some {| id := newId; inputFile := file; inputFormat := ext;
               outputFormat := "pdf"; status := Completed; progress := 100;
               outputUrl := Some u; error := None |}.
Proof.
  intros ext c1 Hext Hfresh Hfail Hjob Hok.
  assert (Hj1 : job1 = to_error thrown
                  (to_processing
                     {| id := newId; inputFile := file; inputFormat := ext;
                        outputFormat := "pdf"; status := Pending; progress := 0;
                        outputUrl := None; error := None |})).
  { revert Hjob. unfold c1, handleFileDrop. fold ext.
    assert (Hv : String.eqb ext "epub" || String.eqb ext "azw3" = true)
      by (destruct Hext as [-> | ->]; reflexivity).
    rewrite Hv.
    match goal with |- context [settle newId ?r ?c2] =>
      rewrite (find_job_settle_failed newId r c2
                 (to_processing
                    {| id := newId; inputFile := file; inputFormat := ext;
                       outputFormat := "pdf"; status := Pending; progress := 0;
                       outputUrl := None; error := None |}) thrown)
    end; [congruence | | exact Hfail].
    simpl. rewrite find_job_update by reflexivity.
    rewrite find_job_app_fresh; [reflexivity | exact Hfresh | reflexivity]. }
  split; [now rewrite Hj1|].
  unfold retryJob.
  assert (Hid : id job1 = newId) by now rewrite Hj1.
  assert (Hfmt : inputFormat job1 = ext) by now rewrite Hj1.
  rewrite Hid, Hfmt.
  rewrite (find_job_settle_ok newId _ _ (to_retry job1) u); [| | exact Hok].
  - rewrite Hj1. reflexivity.
  - simpl. rewrite find_job_update by reflexivity. now rewrite Hjob.
Qed.

Lemma retry_after_failure_witness :
  let file := {| fname := "Novel.EPUB"; fsize := 4096 |} in
  let c := {| jobs := []; Jobs.revoked := [] |} in
  let c1 := handleFileDrop file "job-7" corrupt_archive c in
  exists job1,
    find_job "job-7" (jobs c1) = Some job1
    /\ status job1 = Error
    /\ find_job "job-7" (jobs (retryJob job1 corrupt_then_simple c1))
       = Some {| id := "job-7"; inputFile := file; inputFormat := "epub";
                 outputFormat := "pdf"; status := Completed; progress := 100;
                 outputUrl := Some "blob:simple"; error := None |}.
Proof.
  intros file c c1. eexists. split; [reflexivity|].
  exact (retry_after_failure file "job-7" corrupt_archive corrupt_then_simple c
           (ErrorObj "Conversion failed: corrupt archive") "blob:simple" _
           (or_introl eq_refl) (fun H : False => H) eq_refl eq_refl eq_refl).
Defined.

(** *** A job removed while it is converted *)

Lemma update_absent (jobId : string) (f : ConversionJob -> ConversionJob)
  (l : list ConversionJob) :
  find_job jobId l = None -> update jobId f l = l.
Proof.
  unfold find_job, update. induction l as [|a l IH]; simpl; [reflexivity|].
  destruct (String.eqb (id a) jobId); [discriminate|].
  intros H. now rewrite IH.
Qed.

Lemma settle_absent (jobId : string) (r : Conv string) (c : FileConverter) :
  find_job jobId (jobs c) = None -> settle jobId r c = c.
Proof.
  intros H.
  assert (Hrep : forall trace c', find_job jobId (jobs c') = None ->
                   fold_left (report jobId) trace c' = c').
  { induction trace as [|p trace IH]; intros c' Hc'; simpl; [reflexivity|].
    assert (E : report jobId c' p = c').
    { unfold report, setJobs. rewrite update_absent by exact Hc'.
      now destruct c'. }
    rewrite E. now apply IH. }
  unfold settle. rewrite Hrep by exact H.
  destruct (snd r); unfold setJobs; rewrite update_absent by exact H;
    now destruct c.
Qed.

(** Once a job has been removed, the progress callbacks and the outcome of
    its conversion change nothing: the job does not come back, the other
    jobs stay as they are, and the URL a late success delivers is neither
    stored nor revoked. *)
Theorem removed_job_ignores_conversion
  (seen : list ConversionJob) (jobId : string) (r : Conv string)
  (c : FileConverter) :
  settle jobId r (removeJob seen jobId c) = removeJob seen jobId c.
Proof. apply settle_absent. apply (find_removed id). Qed.

(** *** Clearing the list *)

Lemma release_length (j : option ConversionJob) : length (release j) <= 1.
Proof.
  destruct j as [j|]; simpl; [|lia].
  destruct (outputUrl j) as [u|]; [|simpl; lia].
  destruct (String.eqb u ""); simpl; lia.
Qed.

(** [clearJobs] empties the list and revokes the output URL of every job
    that has one, at most one revocation per job; clearing again revokes
    nothing more. *)
Theorem clearJobs_releases_all (c : FileConverter) :
  jobs (clearJobs c) = []
  /\ (forall j u, In j (jobs c) -> outputUrl j = Some u -> u <> "" ->
        In u (Jobs.revoked (clearJobs c)))
  /\ length (Jobs.revoked (clearJobs c))
     <= length (Jobs.revoked c) + length (jobs c)
  /\ clearJobs (clearJobs c) = clearJobs c
  /\ handleCloseModal c = clearJobs c.
Proof.
  split; [reflexivity|]. split; [|split; [|split]].
  - intros j u Hin Hu Hne. unfold clearJobs. simpl.
    apply in_or_app. right. apply in_concat.
    exists (release (Some j)).
    split; [exact (in_map (fun j0 => release (Some j0)) _ _ Hin)|].
    simpl. rewrite Hu.
    destruct (String.eqb_spec u ""); [contradiction | now left].
  - unfold clearJobs. simpl. rewrite length_app.
    apply Nat.add_le_mono_l.
    induction (jobs c) as [|a l IH]; cbn [map concat length]; [lia|].
    rewrite length_app. pose proof (release_length (Some a)) as H.
    unfold release in H. lia.
  - unfold clearJobs. simpl. now rewrite app_nil_r.
  - reflexivity.
Qed.

Lemma clearJobs_releases_all_witness :
  Jobs.revoked (clearJobs {| jobs := [finished_job]; Jobs.revoked := [] |})
  = ["blob:pdf-1"]
  /\ In "blob:pdf-1"
       (Jobs.revoked (clearJobs {| jobs := [finished_job]; Jobs.revoked := [] |})).
Proof.
  split; [reflexivity|].
  exact (proj1 (proj2 (clearJobs_releases_all
                         {| jobs := [finished_job]; Jobs.revoked := [] |}))
           finished_job "blob:pdf-1" (or_introl eq_refl) eq_refl
           ltac:(discriminate)).
Defined.

(** *** One job per file *)

Lemma settle_length (jobId : string) (r : Conv string) (c : FileConverter) :
  length (jobs (settle jobId r c)) = length (jobs c).
Proof.
  assert (Hrep : forall trace c',
            length (jobs (fold_left (report jobId) trace c')) = length (jobs c')).
  { induction trace as [|p trace IH]; intros c'; simpl; [reflexivity|].
    rewrite IH. unfold report, update. simpl. apply length_map. }
  unfold settle. destruct (snd r); simpl; unfold update;
    rewrite length_map; apply Hrep.
Qed.

Lemma handleFileDrop_length (file : File) (newId : string) (env : Env)
  (c : FileConverter) :
  length (jobs (handleFileDrop file newId env c)) = S (length (jobs c)).
Proof.
  unfold handleFileDrop.
  destruct (String.eqb (extension_of (fname file)) "epub"
            || String.eqb (extension_of (fname file)) "azw3").
  - rewrite settle_length. simpl. unfold update.
    rewrite length_map, length_app. simpl. lia.
  - simpl. rewrite length_app. simpl. lia.
Qed.

(** Every dropped file, supported or not, adds exactly one job, and the
    four counters of the dialog add up to the number of jobs. *)
Theorem one_job_per_file (files : list (File * string * Env)) (c : FileConverter) :
  length (jobs (handleFilesDrop files c)) = length (jobs c) + length files
  /\ forall c', count_status Pending c' + count_status Processing c'
                + count_status Completed c' + count_status Error c'
                = length (jobs c').
Proof.
  split.
  - unfold handleFilesDrop. revert c.
    induction files as [|f files IH]; intros c; simpl; [lia|].
    rewrite IH, handleFileDrop_length. lia.
  - intros c'. unfold count_status.
    induction (jobs c') as [|a l IH]; simpl; [reflexivity|].
    destruct (status a); simpl; lia.
Qed.

(** A file whose extension is neither epub nor azw3 gets a job that is in
    error from the start, with progress 0 and a message naming the
    extension; nothing is converted and the other jobs keep their place. *)
Theorem unsupported_file_rejected
  (file : File) (newId : string) (env : Env) (c : FileConverter) :
  let ext := extension_of (fname file) in
  ext <> "epub" -> ext <> "azw3" ->
  exists errorJob,
    jobs (handleFileDrop file newId env c) = jobs c ++ [errorJob]
    /\ id errorJob = newId /\ status errorJob = Error
    /\ progress errorJob = 0%Q /\ outputUrl errorJob = None
    /\ error errorJob
       = Some ("Unsupported file format: " ++ ext
               ++ ". Only EPUB and AZW3 files are supported.")%string.
Proof.
  intros ext H1 H2. unfold handleFileDrop. fold ext.
  destruct (String.eqb_spec ext "epub") as [E|_]; [contradiction|].
  destruct (String.eqb_spec ext "azw3") as [E|_]; [contradiction|].
  simpl. eexists. split; [reflexivity|]. repeat split.
Qed.

Lemma unsupported_file_rejected_witness :
  exists errorJob,
    jobs (handleFileDrop {| fname := "notes.txt"; fsize := 10 |} "job-9"
            corrupt_archive {| jobs := []; Jobs.revoked := [] |}) = [errorJob]
    /\ error errorJob
       = Some "Unsupported file format: txt. Only EPUB and AZW3 files are supported.".
Proof.
  destruct (unsupported_file_rejected {| fname := "notes.txt"; fsize := 10 |}
              "job-9" corrupt_archive {| jobs := []; Jobs.revoked := [] |}
              ltac:(discriminate) ltac:(discriminate))
    as (j & Hj & _ & _ & _ & _ & He).
  exists j. split; [exact Hj | exact He].
Defined.

End JobMore.

(** ** File names, reading a document, the text of a PDF *)

Module ReaderFacts.
Import JS Converter Jobs Readers PDF PDFText Notions Scenarios.

(** *** The extension of a file name *)

Lemma lower_dot (c : Ascii.ascii) :
  Ascii.eqb (lower_ascii c) "."%char = Ascii.eqb c "."%char.
Proof. destruct c as [[] [] [] [] [] [] [] []]; reflexivity. Qed.

Lemma toLowerCase_app (a b : string) :
  toLowerCase (a ++ b) = (toLowerCase a ++ toLowerCase b)%string.
Proof. induction a as [|c a IH]; simpl; [reflexivity | now rewrite IH]. Qed.

Lemma has_dot_lower (s : string) : has_dot (toLowerCase s) = has_dot s.
Proof.
  induction s as [|c s IH]; simpl; [reflexivity|]. now rewrite lower_dot, IH.
Qed.

Lemma append_assoc_char (cur : string) (c : Ascii.ascii) (r : string) :
  ((cur ++ String c EmptyString) ++ r)%string = (cur ++ String c r)%string.
Proof.
  induction cur as [|x cur IH]; [reflexivity|].
  change (String x ((cur ++ String c EmptyString) ++ r)%string
          = String x (cur ++ String c r)%string).
  now rewrite IH.
Qed.

Lemma append_empty (cur : string) : (cur ++ EmptyString)%string = cur.
Proof.
  induction cur as [|x cur IH]; [reflexivity|].
  change (String x (cur ++ EmptyString)%string = String x cur).
  now rewrite IH.
Qed.

Lemma last_piece_no_dot (cur s : string) :
  has_dot s = false -> last_piece cur s = (cur ++ s)%string.
Proof.
  revert cur. induction s as [|c s IH]; intros cur; simpl.
  - intros _. now rewrite append_empty.
  - destruct (Ascii.eqb c "."%char); [discriminate|]. simpl. intros H.
    rewrite IH by exact H. apply append_assoc_char.
Qed.

Lemma last_piece_after_dot (cur a b : string) :
  last_piece cur (a ++ String "."%char b) = last_piece EmptyString b.
Proof.
  revert cur. induction a as [|c a IH]; intros cur; simpl; [reflexivity|].
  destruct (Ascii.eqb c "."%char); apply IH.
Qed.

Lemma has_dot_snoc (cur : string) (c : Ascii.ascii) :
  has_dot (cur ++ String c EmptyString)
  = has_dot cur || Ascii.eqb c "."%char.
Proof.
  induction cur as [|x cur IH]; simpl; [now rewrite orb_false_r|].
  rewrite IH. now rewrite orb_assoc.
Qed.

Lemma last_piece_has_no_dot (cur s : string) :
  has_dot cur = false -> has_dot (last_piece cur s) = false.
Proof.
  revert cur. induction s as [|c s IH]; intros cur Hc; simpl; [exact Hc|].
  destruct (Ascii.eqb c "."%char) eqn:E; apply IH; [reflexivity|].
  now rewrite has_dot_snoc, Hc, E.
Qed.

(** The extension used to classify a file is what follows the last full
    stop of its name, in lower case; a name without a full stop is its own
    extension; and an extension never contains a full stop. *)
Theorem extension_after_last_dot :
  (forall base ext, has_dot ext = false ->
     extension_of (base ++ String "."%char ext) = toLowerCase ext)
  /\ (forall name, has_dot name = false -> extension_of name = toLowerCase name)
  /\ (forall name, has_dot (extension_of name) = false).
Proof.
  split; [|split].
  - intros base ext H. unfold extension_of.
    rewrite toLowerCase_app. simpl toLowerCase.
    change (lower_ascii "."%char) with "."%char.
    rewrite last_piece_after_dot.
    apply last_piece_no_dot. now rewrite has_dot_lower.
  - intros name H. unfold extension_of.
    apply last_piece_no_dot. now rewrite has_dot_lower.
  - intros name. now apply last_piece_has_no_dot.
Qed.

Lemma extension_after_last_dot_witness :
  extension_of "My.Book.EPUB" = "epub" /\ extension_of "README" = "readme".
Proof.
  destruct extension_after_last_dot as (H1 & H2 & _).
  split.
  - exact (H1 "My.Book" "EPUB" eq_refl).
  - exact (H2 "README" eq_refl).
Defined.

(** *** Reading a document *)

(** [readDocumentFile] fails with an [Error] whose message starts with
    "Failed to read file: "; when it succeeds the document carries the
    name, size and file it was read from and is a text, PDF or EPUB
    document; AZW3 files and files of no supported type always fail. *)
Theorem readDocumentFile_outcomes (d : Disk) (file : File) :
  (forall t, readDocumentFile d file = inl t ->
     exists m, t = ErrorObj ("Failed to read file: " ++ m))
  /\ (forall doc, readDocumentFile d file = inr doc ->
        dname doc = fname file /\ dsize doc = fsize file /\ dfile doc = file
        /\ dtype doc = getSupportedFileType file
        /\ (dtype doc = TTxt \/ dtype doc = TPdf \/ dtype doc = TEpub))
  /\ (getSupportedFileType file = TAzw3
      \/ getSupportedFileType file = TUnsupported ->
      exists m, readDocumentFile d file
                = inl (ErrorObj ("Failed to read file: " ++ m))).
Proof.
  unfold readDocumentFile, readTextFile, readPDFFile, readEPUBFile.
  split; [|split].
  - intros t.
    destruct (getSupportedFileType file);
      [destruct (pdf_of d file) | destruct (epub_of d file)
       | destruct (text_of d file) | |];
      intros [= <-]; eauto.
  - intros doc.
    destruct (getSupportedFileType file);
      [destruct (pdf_of d file) | destruct (epub_of d file)
       | destruct (text_of d file) | |];
      intros [= <-]; simpl; auto 10.
  - intros [-> | ->]; eauto.
Qed.

(** Dropping files on the application: with no file nothing changes;
    otherwise only the first file is read, the processing flag ends false,
    and either the document is replaced and the error cleared, or the
    document shown before stays and the error is the message of the
    failure, which starts with "Failed to read file: ". *)
Theorem app_drop_outcome (d : Disk) (file : File) (rest : list File) (a : App) :
  appHandleFilesDrop d [] a = a
  /\ appHandleFilesDrop d (file :: rest) a = appHandleFilesDrop d [file] a
  /\ let a' := appHandleFilesDrop d (file :: rest) a in
     isProcessing a' = false
     /\ ((exists doc, readDocumentFile d file = inr doc
                      /\ currentDocument a' = Some doc /\ app_error a' = None)
         \/ (currentDocument a' = currentDocument a
             /\ exists m, app_error a' = Some ("Failed to read file: " ++ m)%string)).
Proof.
  split; [reflexivity | split; [reflexivity|]].
  simpl. pose proof (proj1 (readDocumentFile_outcomes d file)) as Hf.
  destruct (readDocumentFile d file) as [t|doc]; simpl.
  - split; [reflexivity|]. right. split; [reflexivity|].
    destruct (Hf t eq_refl) as (m & ->). eauto.
  - split; [reflexivity|]. left. eauto.
Qed.

(** *** Where a page's text sits in the full text *)

Lemma block_offset_S (sep : nat) (p : jsstring) (ps : list jsstring) (k : nat) :
  block_offset sep (p :: ps) (S k) = length p + sep + block_offset sep ps k.
Proof. reflexivity. Qed.

Lemma slice_block (sep : jsstring) (ps : list jsstring) (k : nat) :
  k < length ps ->
  slice (concat (map (fun p => p ++ sep) ps))
    (block_offset (length sep) ps k)
    (block_offset (length sep) ps k + length (nth k ps []))
  = nth k ps [].
Proof.
  unfold slice. revert k. induction ps as [|p ps IH]; intros k Hk;
    simpl in Hk; [lia|].
  destruct k as [|k].
  - cbn [map concat nth]. unfold block_offset. simpl.
    rewrite <- app_assoc. now rewrite take_app_length.
  - rewrite block_offset_S. cbn [map concat nth].
    specialize (IH k ltac:(lia)).
    set (J := concat (map (fun p0 => p0 ++ sep) ps)) in *.
    set (a := block_offset (length sep) ps k) in *.
    set (n := length (nth k ps [])) in *.
    replace (length p + length sep + a + n)
      with (length (p ++ sep) + (a + n)) by (rewrite length_app; lia).
    rewrite (take_app_add (p ++ sep)).
    replace (length p + length sep + a)
      with (length (p ++ sep) + a) by (rewrite length_app; lia).
    rewrite (drop_app_add (p ++ sep)).
    exact IH.
Qed.

Lemma blocks_length (sep : jsstring) (ps : list jsstring) :
  length (concat (map (fun p => p ++ sep) ps))
  = block_offset (length sep) ps (length ps).
Proof.
  unfold block_offset. rewrite firstn_all.
  induction ps as [|p ps IH]; simpl; [reflexivity|].
  rewrite !length_app, IH. lia.
Qed.

(** The text returned by [getAllTextContent] is empty when no document is
    loaded; otherwise its length is the sum of the lengths of the page
    texts plus two per page, and the text of page [i] can be read back from
    it at the offset made of the pages before. *)
Theorem page_text_in_full_text (r : PDFRenderer) :
  (pdf r = None -> getAllTextContent r = [] /\ getPageCount r = 0)
  /\ forall d, pdf r = Some d ->
       let texts := map (page_text d) (seq 1 (numPages d)) in
       getPageCount r = numPages d
       /\ length (getAllTextContent r) = block_offset 2 texts (numPages d)
       /\ forall i, 1 <= i <= numPages d ->
            slice (getAllTextContent r)
              (block_offset 2 texts (i - 1))
              (block_offset 2 texts (i - 1) + length (page_text d i))
            = page_text d i.
Proof.
  unfold getAllTextContent, getPageCount. split.
  - intros ->. split; reflexivity.
  - intros d Hd. rewrite Hd. cbv zeta.
    set (texts := map (page_text d) (seq 1 (numPages d))).
    split; [reflexivity|].
    assert (E : concat (map (fun i => page_text d i ++ [10%N; 10%N])
                          (seq 1 (numPages d)))
                = concat (map (fun p => p ++ [10%N; 10%N]) texts)).
    { unfold texts. now rewrite map_map. }
    rewrite E.
    assert (Hl : length texts = numPages d)
      by (unfold texts; now rewrite length_map, length_seq).
    split.
    + rewrite blocks_length, Hl. reflexivity.
    + intros i Hi.
      assert (Hn : nth (i - 1) texts [] = page_text d i).
      { unfold texts.
        rewrite (nth_indep _ [] (page_text d 0))
          by (rewrite length_map, length_seq; lia).
        rewrite map_nth, seq_nth by lia. f_equal. lia. }
      rewrite <- Hn.
      apply (slice_block [10%N; 10%N] texts (i - 1)). lia.
Qed.

Lemma page_text_in_full_text_witness :
  let r := loadPDF three_pages fresh in
  slice (getAllTextContent r) 11 20 = units "page text".
Proof.
  intros r.
  exact (proj2 (proj2 (proj2 (page_text_in_full_text r) three_pages eq_refl))
           2 ltac:(simpl; lia)).
Defined.

(** The text [readPDFFile] returns has the same layout: the items of page
    [k] joined by spaces can be read back from it. *)
Theorem pdf_file_text_layout (d : Disk) (file : File) (txt : jsstring) :
  readPDFFile d file = inr txt ->
  exists pages,
    pdf_of d file = PdfPages pages
    /\ let texts := map join_sp pages in
       length txt = block_offset 2 texts (length pages)
       /\ forall k, k < length pages ->
            slice txt (block_offset 2 texts k)
              (block_offset 2 texts k + length (join_sp (nth k pages [])))
            = join_sp (nth k pages []).
Proof.
  unfold readPDFFile. destruct (pdf_of d file) as [| |pages]; try discriminate.
  intros [= <-]. exists pages. split; [reflexivity|]. cbv zeta.
  set (texts := map join_sp pages).
  assert (E : pages_text pages = concat (map (fun p => p ++ newlines) texts)).
  { unfold pages_text, texts. now rewrite map_map. }
  assert (Hl : length texts = length pages) by (unfold texts; apply length_map).
  rewrite E. split.
  - rewrite blocks_length, Hl. reflexivity.
  - intros k Hk.
    assert (Hn : nth k texts [] = join_sp (nth k pages [])).
    { unfold texts. change [] with (join_sp []) at 1. apply map_nth. }
    rewrite <- Hn.
    apply (slice_block newlines texts k). lia.
Qed.

Lemma pdf_file_text_layout_witness :
  let d := {| text_of := fun _ => None;
              pdf_of := fun _ => PdfPages [[units "Hello"; units "world"];
                                           [units "Bye"]];
              epub_of := fun _ => EpubUnreadable |} in
  exists pages,
    pdf_of d {| fname := "a.pdf"; fsize := 1 |} = PdfPages pages
    /\ length pages = 2.
Proof.
  intros d.
  destruct (pdf_file_text_layout d {| fname := "a.pdf"; fsize := 1 |}
              (pages_text [[units "Hello"; units "world"]; [units "Bye"]])
              eq_refl) as (pages & Hp & _).
  exists pages. split; [exact Hp|]. injection Hp as <-. reflexivity.
Defined.

End ReaderFacts.

(** ** Further properties of the page cache *)

Module PDFMore.
Import PDF PDFText Notions Scenarios PDFFacts.

Lemma call_step_ok (r : PDFRenderer) (c : Call) :
  cache_ok r -> cache_ok (call_step r c).
Proof.
  intros [H1 H2]. destruct c as [d|p s|]; simpl.
  - split; [exact H1 | exact H2].
  - destruct (renderPage p s r) as [res r'] eqn:E. unfold renderPage in E.
    destruct (pdf r) as [doc|];
      [destruct (pages r !! p) as [cached|] eqn:Hp;
         [|destruct ((1 <=? p) && (p <=? numPages doc))]|];
      injection E as <- <-; cbn [snd]; try (split; [exact H1 | exact H2]).
    split.
    + intros q d. cbn [pages canvases].
      destruct (decide (p = q)) as [<-|Hne].
      * rewrite lookup_insert_eq. intros [= <-]. simpl. split; [reflexivity | lia].
      * rewrite lookup_insert_ne by exact Hne. intros Hq.
        destruct (H1 q d Hq). split; [assumption | lia].
    + intros q q' d d'. cbn [pages].
      destruct (decide (p = q)) as [<-|Hq]; destruct (decide (p = q')) as [<-|Hq'].
      * reflexivity.
      * rewrite lookup_insert_eq, lookup_insert_ne by exact Hq'.
        intros [= <-] Hd'. simpl. intros Hc.
        destruct (H1 q' d' Hd') as [_ Hlt]. lia.
      * rewrite lookup_insert_ne, lookup_insert_eq by exact Hq.
        intros Hd [= <-]. simpl. intros Hc.
        destruct (H1 q d Hd) as [_ Hlt]. lia.
      * rewrite !lookup_insert_ne by assumption. apply H2.
  - split; intros p; intros; simpl in *;
      match goal with H : _ !! _ = Some _ |- _ =>
        rewrite lookup_empty in H; discriminate end.
Qed.

(** Whatever documents are loaded, pages rendered and caches cleared on a
    new renderer, the cache stays consistent: the entry kept for page [p]
    is the data of page [p], and no two cached pages share a canvas. *)
Theorem pdf_cache_consistent (l : list Call) : cache_ok (calls fresh l).
Proof.
  assert (H : forall r, cache_ok r -> cache_ok (calls r l)).
  { unfold calls. induction l as [|c l IH]; intros r Hr; simpl; [exact Hr|].
    apply IH, call_step_ok, Hr. }
  apply H. split; intros p; intros; simpl in *;
    match goal with H : _ !! _ = Some _ |- _ =>
      rewrite lookup_empty in H; discriminate end.
Qed.

(** [loadPDF] does not clear the cache: a page rendered before another
    document is loaded on the same renderer keeps being returned, with the
    data of the earlier document, until [clearCache()] is called. *)
Theorem loadPDF_keeps_cache
  (r r1 : PDFRenderer) (p : nat) (s1 s2 : Q) (d1 : PDFPageData)
  (other : PDFDocument) :
  renderPage p s1 r = (inr d1, r1) ->
  renderPage p s2 (loadPDF other r1) = (inr d1, loadPDF other r1)
  /\ getPageCount (loadPDF other r1) = numPages other.
Proof.
  intros H. destruct (renderPage_caches _ _ _ _ _ H) as [_ Hp].
  split; [|reflexivity].
  apply renderPage_cached; [discriminate | exact Hp].
Qed.

Lemma loadPDF_keeps_cache_witness :
  let other := {| numPages := 1; page_width := fun _ => 100%Q;
                  page_height := fun _ => 100%Q;
                  page_text := fun _ => JS.units "another document" |} in
  let r1 := (renderPage 2 (3 # 2) (loadPDF three_pages fresh)).2 in
  exists d1,
    renderPage 2 1 (loadPDF other r1) = (inr d1, loadPDF other r1)
    /\ textContent d1 = JS.units "page text".
Proof.
  intros other r1.
  exists {| pageNumber := 2; canvas := 0; textContent := JS.units "page text";
            width := 600 * (3 # 2); height := 800 * (3 # 2) |}.
  split; [|reflexivity].
  exact (proj1 (loadPDF_keeps_cache (loadPDF three_pages fresh) r1 2 (3 # 2) 1
                  _ other eq_refl)).
Defined.

End PDFMore.

(** ** The Pomodoro timer and the playlist *)

Module ProductivityFacts.
Import Music Notions.

(** *** Counting down *)

Lemma second_running (p : Pomodoro.PomodoroState) :
  Pomodoro.isActive p = true -> Pomodoro.isPaused p = false ->
  Pomodoro.seconds p < 60 -> 0 < Pomodoro.remaining p ->
  let p' := Pomodoro.second p in
  Pomodoro.remaining p' = Pomodoro.remaining p - 1
  /\ Pomodoro.isActive p' = true /\ Pomodoro.isPaused p' = false
  /\ Pomodoro.seconds p' < 60.
Proof.
  intros Ha Hp Hs Hr. unfold Pomodoro.second, Pomodoro.tick, Pomodoro.remaining in *.
  rewrite Ha, Hp. simpl.
  destruct (Nat.ltb_spec 0 (Pomodoro.seconds p)); simpl.
  - repeat split; try assumption; lia.
  - destruct (Nat.ltb_spec 0 (Pomodoro.minutes p)); simpl.
    + repeat split; try assumption; lia.
    + lia.
Qed.

Lemma second_stopped (q : Pomodoro.PomodoroState) :
  Pomodoro.isActive q = false -> Pomodoro.second q = q.
Proof. intros H. unfold Pomodoro.second. now rewrite H. Qed.

(** A running timer loses exactly one second per second until it shows
    0:00, its seconds staying below 60; the second after that it stops, and
    it stays at 0:00. *)
Theorem pomodoro_counts_down (p : Pomodoro.PomodoroState) :
  Pomodoro.isActive p = true -> Pomodoro.isPaused p = false ->
  Pomodoro.seconds p < 60 ->
  (forall n, n <= Pomodoro.remaining p ->
     let p' := Nat.iter n Pomodoro.second p in
     Pomodoro.remaining p' = Pomodoro.remaining p - n
     /\ Pomodoro.isActive p' = true /\ Pomodoro.seconds p' < 60)
  /\ (forall n, Pomodoro.remaining p < n ->
        let p' := Nat.iter n Pomodoro.second p in
        Pomodoro.remaining p' = 0 /\ Pomodoro.isActive p' = false).
Proof.
  intros Ha Hp Hs.
  assert (H1 : forall n, n <= Pomodoro.remaining p ->
            Pomodoro.remaining (Nat.iter n Pomodoro.second p)
            = Pomodoro.remaining p - n
            /\ Pomodoro.isActive (Nat.iter n Pomodoro.second p) = true
            /\ Pomodoro.isPaused (Nat.iter n Pomodoro.second p) = false
            /\ Pomodoro.seconds (Nat.iter n Pomodoro.second p) < 60).
  { induction n as [|n IH]; intros Hn; simpl.
    - repeat split; try assumption; lia.
    - destruct (IH ltac:(lia)) as (Hr & Ha' & Hp' & Hs').
      destruct (second_running _ Ha' Hp' Hs' ltac:(lia)) as (R1 & R2 & R3 & R4).
      repeat split; try assumption. lia. }
  split.
  - intros n Hn. destruct (H1 n Hn) as (R1 & R2 & _ & R4). auto.
  - intros n Hn.
    assert (H2 : forall k,
              Pomodoro.remaining
                (Nat.iter (S (Pomodoro.remaining p) + k) Pomodoro.second p) = 0
              /\ Pomodoro.isActive
                   (Nat.iter (S (Pomodoro.remaining p) + k) Pomodoro.second p)
                 = false).
    { induction k as [|k IH].
      - rewrite Nat.add_0_r. simpl.
        destruct (H1 (Pomodoro.remaining p) (le_n _)) as (R1 & R2 & R3 & R4).
        set (q := Nat.iter (Pomodoro.remaining p) Pomodoro.second p) in *.
        unfold Pomodoro.second, Pomodoro.tick, Pomodoro.remaining in *.
        rewrite R2, R3. simpl.
        destruct (Nat.ltb_spec 0 (Pomodoro.seconds q)); [lia|].
        destruct (Nat.ltb_spec 0 (Pomodoro.minutes q)); [lia|].
        simpl. split; [lia | reflexivity].
      - replace (S (Pomodoro.remaining p) + S k)
          with (S (S (Pomodoro.remaining p) + k)) by lia.
        rewrite Nat.iter_succ. destruct IH as [R1 R2].
        rewrite (second_stopped _ R2). auto. }
    replace n with (S (Pomodoro.remaining p) + (n - S (Pomodoro.remaining p)))
      by lia.
    apply H2.
Qed.

Lemma pomodoro_counts_down_witness :
  let p := Pomodoro.startPomodoro Pomodoro.initial in
  Pomodoro.remaining (Nat.iter 90 Pomodoro.second p) = 1410
  /\ Pomodoro.isActive (Nat.iter 1501 Pomodoro.second p) = false.
Proof.
  intros p.
  destruct (pomodoro_counts_down p eq_refl eq_refl ltac:(simpl; lia))
    as [H1 H2].
  split.
  - exact (proj1 (H1 90 ltac:(vm_compute; lia))).
  - exact (proj2 (H2 1501 ltac:(vm_compute; lia))).
Defined.

(** While the timer is paused or stopped, time does not move it; the
    toggle of the mini module pauses a running timer and starts it
    otherwise, so that pressing it twice on a running timer leaves it
    running with the same time. *)
Theorem pomodoro_pause_holds (p : Pomodoro.PomodoroState) (n : nat) :
  (Pomodoro.isActive p = false \/ Pomodoro.isPaused p = true ->
   Nat.iter n Pomodoro.second p = p)
  /\ (Pomodoro.isActive p = true -> Pomodoro.isPaused p = false ->
      Nat.iter n Pomodoro.second (Pomodoro.handlePomodoroToggle p)
      = Pomodoro.handlePomodoroToggle p
      /\ Pomodoro.handlePomodoroToggle (Pomodoro.handlePomodoroToggle p) = p).
Proof.
  assert (H : forall q, Pomodoro.isActive q = false \/ Pomodoro.isPaused q = true ->
              Nat.iter n Pomodoro.second q = q).
  { intros q Hq. induction n as [|k IH]; simpl; [reflexivity|].
    rewrite IH. unfold Pomodoro.second.
    destruct Hq as [-> | ->]; [reflexivity|].
    now rewrite andb_false_r. }
  split; [apply H|].
  intros Ha Hp. split.
  - apply H. right. unfold Pomodoro.handlePomodoroToggle. rewrite Ha, Hp.
    simpl. now rewrite Hp.
  - unfold Pomodoro.handlePomodoroToggle. rewrite Ha, Hp. simpl.
    rewrite Ha, Hp. simpl. destruct p; simpl in *. now subst.
Qed.

Lemma pomodoro_pause_holds_witness :
  let p := Pomodoro.pausePomodoro (Pomodoro.startPomodoro Pomodoro.initial) in
  Nat.iter 30 Pomodoro.second p = p.
Proof.
  intros p.
  exact (proj1 (pomodoro_pause_holds p 30) (or_intror eq_refl)).
Defined.

(** *** The playlist *)

Lemma findIndex_lookup (l : list Track) (i : Z) (k : nat) (t : Track) :
  List.NoDup (map tid l) -> l !! k = Some t ->
  Playlist.findIndex_from i (Some (tid t)) l = (i + Z.of_nat k)%Z.
Proof.
  revert i k. induction l as [|a l IH]; intros i k Hnd Hk; [discriminate|].
  simpl in Hnd. apply List.NoDup_cons_iff in Hnd as [Hna Hnd].
  destruct k as [|k]; simpl in *.
  - injection Hk as ->. rewrite String.eqb_refl. lia.
  - destruct (String.eqb_spec (tid a) (tid t)) as [E|_].
    + exfalso. apply Hna. rewrite E. apply in_map.
      apply list_elem_of_In, list_elem_of_lookup. eauto.
    + rewrite (IH (i + 1)%Z k Hnd Hk). lia.
Qed.

Lemma track_at_nat (l : list Track) (k : nat) :
  Playlist.track_at l (Z.of_nat k) = l !! k.
Proof.
  unfold Playlist.track_at.
  destruct (Z.ltb_spec (Z.of_nat k) 0); [lia|]. now rewrite Nat2Z.id.
Qed.

Lemma rem_nat (a n : nat) :
  n <> 0 -> Z.rem (Z.of_nat a) (Z.of_nat n) = Z.of_nat (a mod n).
Proof.
  intros Hn. rewrite Z.rem_mod_nonneg by lia. now rewrite Nat2Z.inj_mod.
Qed.

Lemma wrap_next_prev (i n : nat) :
  i < n ->
  ((i + 1) mod n + n - 1) mod n = i /\ ((i + n - 1) mod n + 1) mod n = i.
Proof.
  intros Hlt. split.
  - destruct (Nat.eq_dec (i + 1) n) as [E|E].
    + rewrite E, Nat.Div0.mod_same. simpl.
      rewrite Nat.mod_small by lia. lia.
    + rewrite (Nat.mod_small (i + 1)) by lia.
      replace (i + 1 + n - 1) with (i + 1 * n) by lia.
      rewrite Nat.Div0.mod_add. apply Nat.mod_small. lia.
  - destruct (Nat.eq_dec i 0) as [E|E].
    + rewrite E. simpl. rewrite (Nat.mod_small (n - 1)) by lia.
      replace (n - 1 + 1) with n by lia. apply Nat.Div0.mod_same.
    + replace (i + n - 1) with ((i - 1) + 1 * n) by lia.
      rewrite Nat.Div0.mod_add, (Nat.mod_small (i - 1)) by lia.
      replace (i - 1 + 1) with i by lia. apply Nat.mod_small. lia.
Qed.

Lemma skip_in_order (m : Playlist.MusicState) (k : nat) (t : Track) (pick : nat) :
  Playlist.isShuffled m = false ->
  List.NoDup (map tid (Playlist.tracks m)) ->
  Playlist.tracks m !! k = Some t -> Playlist.currentTrack m = Some t ->
  let n := length (Playlist.tracks m) in
  Playlist.skipToNext pick m
  = Playlist.with_current (Playlist.tracks m !! ((k + 1) mod n)) m
  /\ Playlist.skipToPrevious pick m
     = Playlist.with_current (Playlist.tracks m !! ((k + n - 1) mod n)) m.
Proof.
  intros Hs Hnd Hk Hc n.
  assert (Hlt : k < n) by (apply lookup_lt_Some in Hk; exact Hk).
  assert (Hi : Playlist.currentIndex m = Z.of_nat k).
  { unfold Playlist.currentIndex. rewrite Hc. simpl.
    rewrite (findIndex_lookup _ 0 k t Hnd Hk). lia. }
  unfold Playlist.skipToNext, Playlist.skipToPrevious. fold n.
  destruct (Nat.eqb_spec n 0) as [E|E]; [lia|].
  rewrite Hs, Hi. split.
  - replace (Z.of_nat k + 1)%Z with (Z.of_nat (k + 1)) by lia.
    now rewrite rem_nat, track_at_nat.
  - replace (Z.of_nat k - 1 + Z.of_nat n)%Z with (Z.of_nat (k + n - 1)) by lia.
    now rewrite rem_nat, track_at_nat.
Qed.

(** With shuffle off and distinct track ids, skipping forward and then
    back, or back and then forward, returns to the track that was current;
    a skip always lands on a track of the list, at time 0 and not playing. *)
Theorem skip_there_and_back
  (m : Playlist.MusicState) (t : Track) (pick pick' : nat) :
  Playlist.isShuffled m = false ->
  List.NoDup (map tid (Playlist.tracks m)) ->
  Playlist.currentTrack m = Some t -> In t (Playlist.tracks m) ->
  Playlist.currentTrack (Playlist.skipToPrevious pick' (Playlist.skipToNext pick m))
  = Some t
  /\ Playlist.currentTrack (Playlist.skipToNext pick (Playlist.skipToPrevious pick' m))
     = Some t
  /\ exists t', Playlist.currentTrack (Playlist.skipToNext pick m) = Some t'
                /\ In t' (Playlist.tracks m)
                /\ Playlist.currentTime (Playlist.skipToNext pick m) = 0%Q
                /\ Playlist.isPlaying (Playlist.skipToNext pick m) = false.
Proof.
  intros Hs Hnd Hc Hin.
  apply list_elem_of_In, list_elem_of_lookup in Hin as [k Hk].
  set (n := length (Playlist.tracks m)).
  assert (Hlt : k < n) by (apply lookup_lt_Some in Hk; exact Hk).
  destruct (skip_in_order m k t pick Hs Hnd Hk Hc) as [Hn _].
  destruct (skip_in_order m k t pick' Hs Hnd Hk Hc) as [_ Hp].
  fold n in Hn, Hp.
  assert (Hk1 : (k + 1) mod n < n) by (apply Nat.mod_upper_bound; lia).
  assert (Hk2 : (k + n - 1) mod n < n) by (apply Nat.mod_upper_bound; lia).
  destruct (lookup_lt_is_Some_2 (Playlist.tracks m) _ Hk1) as [t1 Ht1].
  destruct (lookup_lt_is_Some_2 (Playlist.tracks m) _ Hk2) as [t2 Ht2].
  destruct (wrap_next_prev k n Hlt) as [W1 W2].
  split; [|split].
  - rewrite Hn, Ht1.
    destruct (skip_in_order (Playlist.with_current (Some t1) m)
                ((k + 1) mod n) t1 pick' Hs Hnd Ht1 eq_refl) as [_ E].
    rewrite E. simpl. fold n. now rewrite W1.
  - rewrite Hp, Ht2.
    destruct (skip_in_order (Playlist.with_current (Some t2) m)
                ((k + n - 1) mod n) t2 pick Hs Hnd Ht2 eq_refl) as [E _].
    rewrite E. simpl. fold n. now rewrite W2.
  - exists t1. rewrite Hn, Ht1. simpl. repeat split.
    apply list_elem_of_In, list_elem_of_lookup. eauto.
Qed.

(** With shuffle on, distinct track ids and a pick among the available
    indices, a skip lands on a track of the list other than the current
    one. *)
Theorem shuffle_skips_elsewhere
  (m : Playlist.MusicState) (t : Track) (pick : nat) :
  Playlist.isShuffled m = true ->
  List.NoDup (map tid (Playlist.tracks m)) ->
  Playlist.currentTrack m = Some t -> In t (Playlist.tracks m) ->
  pick < length (Playlist.availableIndices m) ->
  exists t', Playlist.currentTrack (Playlist.skipToNext pick m) = Some t'
             /\ In t' (Playlist.tracks m) /\ t' <> t
             /\ Playlist.currentTrack (Playlist.skipToPrevious pick m) = Some t'.
Proof.
  intros Hs Hnd Hc Hin Hp.
  apply list_elem_of_In, list_elem_of_lookup in Hin as [k Hk].
  assert (Hi : Playlist.currentIndex m = Z.of_nat k).
  { unfold Playlist.currentIndex. rewrite Hc. simpl.
    rewrite (findIndex_lookup _ 0 k t Hnd Hk). lia. }
  destruct (lookup_lt_is_Some_2 _ _ Hp) as [z Hz].
  assert (Hav : In z (Playlist.availableIndices m))
    by (apply list_elem_of_In, list_elem_of_lookup; eauto).
  unfold Playlist.availableIndices in Hav.
  apply List.filter_In in Hav as [Hrange Hne].
  apply List.in_map_iff in Hrange as [j [<- Hj]].
  apply List.in_seq in Hj.
  rewrite Hi in Hne.
  destruct (Z.eqb_spec (Z.of_nat j) (Z.of_nat k)) as [|Hjk]; [discriminate|].
  destruct (lookup_lt_is_Some_2 (Playlist.tracks m) j ltac:(lia)) as [t' Ht'].
  assert (Hlen : length (Playlist.tracks m) <> 0) by lia.
  exists t'.
  unfold Playlist.skipToNext, Playlist.skipToPrevious.
  destruct (Nat.eqb_spec (length (Playlist.tracks m)) 0) as [|_]; [lia|].
  rewrite Hs. unfold Playlist.shuffled_index. rewrite Hz. simpl.
  rewrite track_at_nat, Ht'. repeat split.
  - apply list_elem_of_In, list_elem_of_lookup. eauto.
  - intros ->. apply Hjk. f_equal.
    apply (NoDup_lookup (Playlist.tracks m) j k t); auto.
    apply NoDup_ListNoDup in Hnd.
    now apply (NoDup_fmap_1 tid).
Qed.

Lemma qmin_le_r (a b : Q) : (Playlist.qmin a b <= b)%Q.
Proof.
  unfold Playlist.qmin. destruct (Qle_bool a b) eqn:E.
  - now apply Qle_bool_iff.
  - apply Qle_refl.
Qed.

Lemma qmin_ge (a b c : Q) : (c <= a)%Q -> (c <= b)%Q -> (c <= Playlist.qmin a b)%Q.
Proof. intros. unfold Playlist.qmin. now destruct (Qle_bool a b). Qed.

Lemma or_zero_eq (d : Q) : (Playlist.or_zero d == d)%Q.
Proof.
  unfold Playlist.or_zero. destruct (Qeq_bool d 0) eqn:E; [|reflexivity].
  apply Qeq_bool_iff in E. now symmetry.
Qed.

Lemma with_current_position (m : Playlist.MusicState) (o : option Track) :
  (forall t, o = Some t -> In t (Playlist.tracks m)) ->
  durations_ok (Playlist.tracks m) ->
  position_ok (Playlist.with_current o m).
Proof.
  intros Ho Hd. unfold position_ok. simpl.
  split; [apply Qle_refl|]. split; [|reflexivity].
  intros t ->. split; [now apply Ho|].
  unfold durations_ok in Hd. rewrite Forall_forall in Hd.
  apply Hd, list_elem_of_In, Ho. reflexivity.
Qed.

Lemma track_at_in (l : list Track) (i : Z) (t : Track) :
  Playlist.track_at l i = Some t -> In t l.
Proof.
  unfold Playlist.track_at. destruct (i <? 0)%Z; [discriminate|].
  intros H. apply list_elem_of_In, list_elem_of_lookup. eauto.
Qed.

Lemma on_tracks (m : Playlist.MusicState) (e : Playlist.Event) :
  Playlist.tracks (Playlist.on m e) = Playlist.tracks m ++ added e.
Proof.
  destruct e; simpl; rewrite ?app_nil_r; try reflexivity.
  - unfold Playlist.skipToNext. now destruct (_ =? 0).
  - unfold Playlist.skipToPrevious. now destruct (_ =? 0).
  - unfold Playlist.selectTrack. now destruct (find_track _ _).
  - unfold Playlist.playPause. destruct mounted; [|reflexivity].
    now destruct (Playlist.currentTrack m).
  - unfold Playlist.music_second. destruct (Playlist.isPlaying m); [|reflexivity].
    now destruct (Playlist.currentTrack m).
Qed.

Lemma on_position (m : Playlist.MusicState) (e : Playlist.Event) :
  durations_ok (Playlist.tracks m) -> durations_ok (added e) ->
  position_ok m -> position_ok (Playlist.on m e).
Proof.
  intros Hd He Hok. destruct e; simpl.
  - unfold Playlist.skipToNext. destruct (_ =? 0); [exact Hok|].
    apply with_current_position; [|exact Hd]. intros t. apply track_at_in.
  - unfold Playlist.skipToPrevious. destruct (_ =? 0); [exact Hok|].
    apply with_current_position; [|exact Hd]. intros t. apply track_at_in.
  - unfold Playlist.selectTrack.
    destruct (find_track trackId (Playlist.tracks m)) as [t|] eqn:E; [|exact Hok].
    apply with_current_position; [|exact Hd]. intros t' [= <-].
    unfold find_track in E. now apply List.find_some in E.
  - unfold Playlist.playPause. destruct mounted; [|exact Hok].
    destruct (Playlist.currentTrack m) eqn:E; [|exact Hok].
    unfold position_ok in *. simpl. now rewrite <- E.
  - exact Hok.
  - unfold Playlist.music_second.
    destruct (Playlist.isPlaying m); [|exact Hok].
    destruct (Playlist.currentTrack m) as [t|] eqn:E; [|exact Hok].
    destruct Hok as (H0 & Ht & _). destruct (Ht t E) as [Hin Hle].
    unfold position_ok. simpl.
    assert (Hdt : (0 <= duration t)%Q).
    { unfold durations_ok in Hd. rewrite Forall_forall in Hd.
      now apply Hd, list_elem_of_In. }
    split; [|split; [|discriminate]].
    + apply qmin_ge; [lra|]. now rewrite or_zero_eq.
    + intros t' [= <-]. split; [exact Hin|].
      rewrite <- (or_zero_eq (duration t)) at 2. apply qmin_le_r.
  - exact Hok.
  - exact Hok.
  - exact Hok.
  - destruct Hok as (H0 & Ht & Hn). unfold position_ok. simpl.
    split; [exact H0|].
    destruct (Playlist.currentTrack m) as [c|] eqn:E.
    + split; [|discriminate]. intros t' [= <-].
      destruct (Ht c eq_refl) as [Hin Hle].
      split; [apply in_or_app; now left | exact Hle].
    + split; [|discriminate]. intros t' [= <-].
      split; [apply in_or_app; right; now left|].
      rewrite (Hn eq_refl). now inversion He.
Qed.

(** As long as no track is removed, whatever the listener does (add
    tracks, skip, select, play or pause, let the timer run, change volume,
    shuffle or repeat mode), the position stays between 0 and the duration
    of the current track, which stays one of the tracks; durations are not
    negative. *)
Theorem position_within_track
  (m : Playlist.MusicState) (events : list Playlist.Event) :
  durations_ok (Playlist.tracks m) ->
  durations_ok (concat (map added events)) ->
  position_ok m ->
  position_ok (fold_left Playlist.on events m)
  /\ Playlist.tracks (fold_left Playlist.on events m)
     = Playlist.tracks m ++ concat (map added events).
Proof.
  revert m. induction events as [|e events IH]; intros m Hd He Hok.
  - simpl. now rewrite app_nil_r.
  - cbn [fold_left map concat] in *.
    unfold durations_ok in He. apply Forall_app in He as [He1 He2].
    destruct (IH (Playlist.on m e)) as [H1 H2].
    + rewrite on_tracks. apply Forall_app. now split.
    + exact He2.
    + now apply on_position.
    + split; [exact H1|]. now rewrite H2, on_tracks, <- app_assoc.
Qed.

Lemma position_within_track_witness :
  position_ok
    (fold_left Playlist.on
       [Playlist.MusicSecond; Playlist.SkipNext 0; Playlist.Resumed;
        Playlist.MusicSecond]
       (Samples.listening false)).
Proof.
  refine (proj1 (position_within_track (Samples.listening false) _ _ _ _)).
  - unfold durations_ok, Samples.listening, Samples.three_songs. simpl.
    repeat constructor; simpl; lra.
  - simpl. constructor.
  - unfold position_ok, Samples.listening, Samples.three_songs. simpl.
    split; [lra|]. split; [|discriminate].
    intros t [= <-]. split; [now left | simpl; lra].
Defined.

(** Removing the current track makes the first remaining track current
    but keeps the position: when that track is shorter than the position
    reached, the position lies beyond the end of the current track. *)
Theorem removeTrack_keeps_position
  (m : Playlist.MusicState) (c next : Track) (rest : list Track) :
  Playlist.currentTrack m = Some c ->
  List.filter (fun t => negb (String.eqb (tid t) (tid c))) (Playlist.tracks m)
  = next :: rest ->
  let m' := Playlist.removeTrack (tid c) m in
  Playlist.currentTrack m' = Some next
  /\ Playlist.currentTime m' = Playlist.currentTime m
  /\ Playlist.isPlaying m' = Playlist.isPlaying m
  /\ ((duration next < Playlist.currentTime m)%Q -> ~ position_ok m').
Proof.
  intros Hc Hf m'. unfold m', Playlist.removeTrack. simpl.
  rewrite Hc, Hf. simpl. rewrite String.eqb_refl. simpl.
  repeat split.
  intros Hlt (_ & Ht & _). simpl in Ht.
  destruct (Ht next eq_refl) as [_ Hle]. lra.
Qed.

Lemma removeTrack_keeps_position_witness :
  position_ok (Samples.listening false)
  /\ ~ position_ok (Playlist.removeTrack "a" (Samples.listening false)).
Proof.
  split.
  - unfold position_ok, Samples.listening, Samples.three_songs. simpl.
    split; [lra|]. split; [|discriminate].
    intros t [= <-]. split; [now left | simpl; lra].
  - refine (proj2 (proj2 (proj2
      (removeTrack_keeps_position (Samples.listening false)
         {| tid := "a"; tname := "one"; duration := 100; turl := "blob:a" |}
         _ _ eq_refl eq_refl))) _).
    simpl. lra.
Defined.

Lemma skip_there_and_back_witness :
  Playlist.currentTrack
    (Playlist.skipToPrevious 0 (Playlist.skipToNext 0 (Samples.listening false)))
  = head Samples.three_songs.
Proof.
  refine (proj1 (skip_there_and_back (Samples.listening false) _ 0 0
                   eq_refl _ eq_refl _)).
  - simpl. repeat constructor; simpl; intuition discriminate.
  - now left.
Defined.

Lemma shuffle_skips_elsewhere_witness :
  exists t', Playlist.currentTrack (Playlist.skipToNext 1 (Samples.listening true))
             = Some t'
             /\ In t' Samples.three_songs
             /\ Some t' <> head Samples.three_songs.
Proof.
  destruct (shuffle_skips_elsewhere (Samples.listening true)
              {| tid := "a"; tname := "one"; duration := 100; turl := "blob:a" |}
              1 eq_refl) as (t' & H1 & H2 & H3 & _).
  - simpl. repeat constructor; simpl; intuition discriminate.
  - reflexivity.
  - now left.
  - vm_compute. lia.
  - exists t'. split; [exact H1|]. split; [exact H2|].
    intros [= ->]. now apply H3.
Defined.

End ProductivityFacts.
